(* ===================================================================== *)
(* Axiom-Protocol consensus core: a shallow embedding in Rocq.           *)
(*                                                                       *)
(* Modelled source files: src/state.rs, src/economics.rs, src/block.rs,  *)
(* src/genesis.rs, src/chain.rs, src/main.rs (fork choice),              *)
(* src/mempool.rs, src/consensus/lwma.rs.                                *)
(*                                                                       *)
(* Conventions.                                                          *)
(* - u64/usize values are Z.  Arithmetic that can overflow is written   *)
(*   with its wrap-around (release build: overflow checks are off, so   *)
(*   `a + b` on u64 wraps modulo 2^64); saturating_* are written out.   *)
(* - Byte arrays ([u8; 32], Vec<u8>) are lists of Z bytes.              *)
(* - HashMap/HashSet are stdpp gmap/gset; BTreeMap<u64, _> is a gmap    *)
(*   keyed by Z whose least key is computed explicitly.                  *)
(* - The cryptographic primitives (SHA-256, BLAKE3, Transaction::hash)  *)
(*   are the parameters of the class [Crypto].                           *)
(* - A Rust panic (unwrap on None, slice out of range, Timechain::new   *)
(*   with a bad anchor) is the outcome [None] of an option.              *)
(* ===================================================================== *)

From Stdlib Require Import ZArith Lia List Bool.
From stdpp Require Import base gmap sets list strings sorting.

Local Open Scope Z_scope.

(* --------------------------------------------------------------------- *)
(* Machine integers and bytes                                            *)
(* --------------------------------------------------------------------- *)

Definition U64_MAX : Z := 2 ^ 64 - 1.

(** u64 `+` with overflow checks off: wrap-around modulo 2^64. *)
Definition u64_add (a b : Z) : Z := (a + b) mod 2 ^ 64.

Definition u64_saturating_add (a b : Z) : Z := Z.min (a + b) U64_MAX.
Definition u64_saturating_sub (a b : Z) : Z := Z.max (a - b) 0.
Definition u64_saturating_mul (a b : Z) : Z := Z.min (a * b) U64_MAX.

(** `x.to_le_bytes()` for an [n]-byte integer. *)
Fixpoint le_bytes (n : nat) (x : Z) : list Z :=
  match n with
  | O => []
  | S n' => Z.land x 255 :: le_bytes n' (Z.shiftr x 8)
  end.

(** `x.to_be_bytes()`. *)
Definition be_bytes (n : nat) (x : Z) : list Z := rev (le_bytes n x).

(** `u64::from_be_bytes` / `BigUint::from_bytes_be`. *)
Definition from_be_bytes (bs : list Z) : Z :=
  fold_left (fun acc b => acc * 256 + b) bs 0.

Definition zeros32 : list Z := repeat 0 32.

(** The Result type of the Rust code. *)
Inductive result (T E : Type) : Type :=
| Ok (t : T)
| Err (e : E).
Arguments Ok {T E} t.
Arguments Err {T E} e.

Definition is_ok {T E} (r : result T E) : bool :=
  match r with Ok _ => true | Err _ => false end.

(* --------------------------------------------------------------------- *)
(* Transactions and blocks                                               *)
(* --------------------------------------------------------------------- *)

(** Modelled from the spec: the Transaction struct (module
    crate::transaction is not part of the sources); fields in the order
    of the spec's data model and of Transaction::new in the tests:
    {from, to, amount, fee, nonce, zk_proof, signature}. *)
Record Transaction := mkTx {
  from : list Z;
  to : list Z;
  amount : Z;
  fee : Z;
  tx_nonce : Z;
  tx_zk_proof : list Z;
  signature : list Z
}.

(** src/block.rs: struct Block. *)
Record Block := mkBlock {
  parent : list Z;
  slot : Z;
  miner : list Z;
  transactions : list Transaction;
  vdf_proof : list Z;
  zk_proof : list Z;
  nonce : Z
}.

(** bincode (fixint, little endian): a Vec<u8> is its u64 length then
    its bytes; a [u8; 32] is its 32 bytes. *)
Definition bincode_vec (bs : list Z) : list Z :=
  le_bytes 8 (Z.of_nat (length bs)) ++ bs.

Definition bincode_tx (tx : Transaction) : list Z :=
  from tx ++ to tx ++ le_bytes 8 (amount tx) ++ le_bytes 8 (fee tx)
  ++ le_bytes 8 (tx_nonce tx) ++ bincode_vec (tx_zk_proof tx)
  ++ bincode_vec (signature tx).

Definition bincode_block (b : Block) : list Z :=
  parent b ++ le_bytes 8 (slot b) ++ miner b
  ++ le_bytes 8 (Z.of_nat (length (transactions b)))
  ++ concat (map bincode_tx (transactions b))
  ++ vdf_proof b ++ bincode_vec (zk_proof b) ++ le_bytes 8 (nonce b).

(** The hash primitives.  [sha256 bs] is `Sha256::new()`, updated with
    the concatenation [bs], finalized; [blake3] likewise; [tx_hash] is
    Transaction::hash and [tx_proofs_ok] the proof and signature part of
    Transaction::validate (both in the absent crate::transaction). *)
Class Crypto := {
  sha256 : list Z -> list Z;
  blake3 : list Z -> list Z;
  tx_hash : Transaction -> list Z;
  tx_proofs_ok : Transaction -> bool
}.

Section Model.
Context `{Crypto}.

(** src/block.rs: Block::hash = blake3(bincode::serialize(self)). *)
Definition Block_hash (b : Block) : list Z := blake3 (bincode_block b).

(** src/genesis.rs: Block::calculate_hash (SHA-256 over the header
    fields; the transaction list is not fed to the hasher). *)
Definition calculate_hash (b : Block) : list Z :=
  sha256 (parent b ++ be_bytes 8 (slot b) ++ miner b ++ vdf_proof b
          ++ zk_proof b ++ be_bytes 8 (nonce b)).

(** src/block.rs: Block::meets_difficulty, after `let h = self.hash()`. *)
Definition meets_difficulty_digest (h : list Z) (difficulty : Z) : bool :=
  if (length h <? 8)%nat then false (* h[0..8] out of range *)
  else from_be_bytes (firstn 8 h) <? U64_MAX / Z.max difficulty 1.

Definition Block_meets_difficulty (b : Block) (difficulty : Z) : bool :=
  meets_difficulty_digest (Block_hash b) difficulty.

(** src/vdf.rs: evaluate(parent_hash, slot) = H(parent || slot_le). *)
Definition vdf_evaluate (parent_hash : list Z) (s : Z) : list Z :=
  sha256 (parent_hash ++ le_bytes 8 s).

(** Modelled from the spec: main_helper::compute_vdf (module absent from
    the sources): `t` sequential applications of the 256-bit hash
    starting from the seed (spec 4.D, sequential-hash VDF). *)
Definition compute_vdf (seed : list Z) (iterations : Z) : list Z :=
  Nat.iter (Z.to_nat iterations) sha256 seed.

(** src/genesis.rs: verify_zk_pass. *)
Definition verify_zk_pass (miner_address _parent proof : list Z) : bool :=
  (length proof =? 128)%nat && negb (bool_decide (miner_address = zeros32)).

End Model.

(* --------------------------------------------------------------------- *)
(* Account state: src/state.rs                                           *)
(* --------------------------------------------------------------------- *)

Record State := mkState {
  balances : gmap (list Z) Z;
  st_total_issued : Z;
  nonces : gmap (list Z) Z
}.

Definition State_new : State := mkState ∅ 0 ∅.

Definition balance (s : State) (addr : list Z) : Z :=
  default 0 (balances s !! addr).

(** State::nonce. *)
Definition state_nonce (s : State) (addr : list Z) : Z :=
  default 0 (nonces s !! addr).

Definition credit (s : State) (addr : list Z) (amt : Z) : State :=
  let bal := balance s addr in
  mkState (<[addr := u64_add bal amt]> (balances s)) (st_total_issued s)
          (nonces s).

Definition apply_tx (s : State) (tx : Transaction) : result unit string * State :=
  let sender_bal := balance s (from tx) in
  let sender_nonce := state_nonce s (from tx) in
  let cost := u64_add (amount tx) (fee tx) in
  if sender_bal <? cost then (Err "Insufficient balance", s)
  else if negb (tx_nonce tx =? sender_nonce) then (Err "Invalid nonce", s)
  else
    let s1 := mkState (<[from tx := sender_bal - cost]> (balances s))
                      (st_total_issued s) (nonces s) in
    let s2 := credit s1 (to tx) (amount tx) in
    (Ok tt, mkState (balances s2) (st_total_issued s2)
                    (<[from tx := u64_add sender_nonce 1]> (nonces s2))).

(* --------------------------------------------------------------------- *)
(* Economics: src/economics.rs                                           *)
(* --------------------------------------------------------------------- *)

Definition SMALLEST_UNIT : Z := 100000000.
Definition TOTAL_SUPPLY : Z := 124000000000000000.
Definition INITIAL_REWARD : Z := 50 * SMALLEST_UNIT.
Definition HALVING_INTERVAL : Z := 1240000.

Definition get_mining_reward (height : Z) : Z :=
  let era := height / HALVING_INTERVAL in
  if era >=? 64 then 0 else Z.shiftr INITIAL_REWARD era.

Definition block_reward (s _total_issued : Z) : Z := get_mining_reward s.

(* --------------------------------------------------------------------- *)
(* The chain: src/chain.rs, src/genesis.rs                               *)
(* --------------------------------------------------------------------- *)

Record Timechain := mkChain {
  blocks : list Block;
  state : State;
  difficulty : Z;
  seen_hashes : gset (list Z);
  total_issued : Z
}.

Definition TARGET_TIME : Z := 1800.

(** GENESIS_ANCHOR, the hex string decoded to its 32 bytes; Timechain::new
    compares `hex::encode(hash)` with the string, which for 32-byte
    digests is the comparison of the bytes. *)
Definition GENESIS_ANCHOR : list Z :=
  [0x2d; 0xfb; 0xa6; 0x33; 0x81; 0x70; 0x46; 0xc7; 0xf5; 0x59; 0xed; 0x4b;
   0x93; 0x07; 0x60; 0x48; 0x43; 0x5f; 0x7e; 0x1a; 0x90; 0xf1; 0x4e; 0xb8;
   0x03; 0x5c; 0x04; 0xb9; 0xeb; 0xae; 0x25; 0x37].

(** src/genesis.rs: genesis(). *)
Definition genesis : Block :=
  mkBlock zeros32 0 zeros32 [] zeros32 (repeat 0 128) 0.

(** Transaction::validate(sender_balance). *)
Section TxValidate.
Context `{Crypto}.

(** Modelled from the spec: Transaction::validate (crate::transaction is
    absent).  It is given only the sender's balance; it rejects a balance
    below amount + fee (as the tests check: validate(amount + fee - 1) is
    an error) and defers the zk_proof/signature part to the external
    predicate [tx_proofs_ok]. *)
Definition tx_validate (tx : Transaction) (sender_balance : Z)
    : result unit string :=
  if sender_balance <? amount tx + fee tx then Err "Insufficient balance"
  else if tx_proofs_ok tx then Ok tt
  else Err "Invalid transaction proof".

End TxValidate.

Section Chain.
Context `{Crypto}.

(** The loop `for tx in &block.transactions { if self.state.apply_tx(tx)
    .is_ok() {} }` of rebuild_state: failures are skipped. *)
Definition replay_txs (st : State) (txs : list Transaction) : State :=
  fold_left (fun st tx => snd (apply_tx st tx)) txs st.

Definition rebuild_step (acc : State * Z) (b : Block) : State * Z :=
  let '(st, ti) := acc in
  let reward := block_reward (slot b) ti in
  let '(st1, ti1) :=
    if (0 <? reward) && negb (bool_decide (miner b = zeros32))
    then (credit st (miner b) reward, u64_add ti reward)
    else (st, ti) in
  (replay_txs st1 (transactions b), ti1).

(** Timechain::rebuild_state. *)
Definition rebuild_state (tc : Timechain) : Timechain :=
  let '(st, ti) := fold_left rebuild_step (blocks tc) (State_new, 0) in
  mkChain (blocks tc) st (difficulty tc) (seen_hashes tc) ti.

(** Timechain::new: panics ([None]) unless the anchor matches. *)
Definition Timechain_new (g : Block) : option Timechain :=
  if bool_decide (calculate_hash g = GENESIS_ANCHOR)
  then Some (rebuild_state (mkChain [g] State_new 1000 ∅ 0))
  else None.

(** Step 5 of add_block: every tx is validated against the state before
    the block; the state is not updated inside the loop. *)
Fixpoint validate_txs (st : State) (txs : list Transaction)
    : result unit string :=
  match txs with
  | [] => Ok tt
  | tx :: rest =>
      match tx_validate tx (balance st (from tx)) with
      | Err e => Err e
      | Ok _ => validate_txs st rest
      end
  end.

(** Step 8 of add_block: apply the txs in order, stopping at the first
    failure with the state reached so far. *)
Fixpoint apply_txs (st : State) (txs : list Transaction)
    : result unit string * State :=
  match txs with
  | [] => (Ok tt, st)
  | tx :: rest =>
      match apply_tx st tx with
      | (Err e, st') => (Err e, st')
      | (Ok _, st') => apply_txs st' rest
      end
  end.

(** Timechain::adjust_difficulty. *)
Definition adjust_difficulty (tc : Timechain) (elapsed : Z) : Timechain :=
  let d :=
    if elapsed <? TARGET_TIME then u64_saturating_add (difficulty tc) 1
    else if elapsed >? TARGET_TIME
    then Z.max (u64_saturating_sub (difficulty tc) 1) 1
    else difficulty tc in
  mkChain (blocks tc) (state tc) d (seen_hashes tc) (total_issued tc).

(** Timechain::add_block.  [None] is the panic of
    `self.blocks.last().unwrap()` on an empty block list. *)
Definition add_block (tc : Timechain) (b : Block) (elapsed : Z)
    : option (result unit string * Timechain) :=
  let block_hash := calculate_hash b in
  if bool_decide (block_hash ∈ seen_hashes tc)
  then Some (Err "Block already exists (Injection Attack thwarted)", tc)
  else
  match last (blocks tc) with
  | None => None
  | Some tip =>
  if negb (bool_decide (parent b = Block_hash tip))
  then Some (Err "Invalid parent hash", tc)
  else if negb (slot b =? Z.of_nat (length (blocks tc)))
  then Some (Err "Invalid block slot", tc)
  else
  let expected_vdf :=
    compute_vdf (vdf_evaluate (parent b) (slot b))
                (difficulty tc mod 2 ^ 32) (* `as u32` *) in
  if negb (bool_decide (vdf_proof b = expected_vdf))
  then Some (Err "Invalid VDF proof", tc)
  else if negb (Block_meets_difficulty b (difficulty tc))
  then Some (Err "Block doesn't meet difficulty requirement", tc)
  else
  match validate_txs (state tc) (transactions b) with
  | Err e => Some (Err e, tc)
  | Ok _ =>
  if negb (verify_zk_pass (miner b) (parent b) (zk_proof b))
  then Some (Err "Invalid miner ZK pass", tc)
  else
  (* 7. APPLY BLOCK *)
  let seen1 := {[block_hash]} ∪ seen_hashes tc in
  let blocks1 := blocks tc ++ [b] in
  (* 8. UPDATE STATE *)
  let reward := block_reward (slot b) (total_issued tc) in
  let '(st2, ti2) :=
    if (0 <? reward) && negb (bool_decide (miner b = zeros32))
    then (credit (state tc) (miner b) reward, u64_add (total_issued tc) reward)
    else (state tc, total_issued tc) in
  match apply_txs st2 (transactions b) with
  | (Err _, st3) =>
      Some (Err "Transaction application failed",
            mkChain blocks1 st3 (difficulty tc) seen1 ti2)
  | (Ok _, st3) =>
      (* 9. ADJUST DIFFICULTY *)
      Some (Ok tt, adjust_difficulty
                     (mkChain blocks1 st3 (difficulty tc) seen1 ti2) elapsed)
  end
  end
  end.

(* src/main.rs: fork choice *)

(** calculate_chain_work: `.map(|b| b.nonce.max(1)).sum()` over u64. *)
Definition calculate_chain_work (tc : Timechain) : Z :=
  fold_left (fun acc b => u64_add acc (Z.max (nonce b) 1)) (blocks tc) 0.

(** The loop of validate_and_sync_chain over `peer_blocks.skip(1)`:
    [Some (true, c)] when every add_block succeeded, [Some (false, c)]
    at the first rejected block, [None] on a panic. *)
Fixpoint add_all (cand : Timechain) (bs : list Block)
    : option (bool * Timechain) :=
  match bs with
  | [] => Some (true, cand)
  | b :: rest =>
      match add_block cand b 1800 with
      | None => None
      | Some (Err _, c) => Some (false, c)
      | Some (Ok _, c) => add_all c rest
      end
  end.

(** validate_and_sync_chain: the outer [None] is a panic, the inner
    option is the function's result. *)
Definition validate_and_sync_chain (peer_blocks : list Block)
    (current_chain : Timechain) : option (option Timechain) :=
  match peer_blocks with
  | [] => Some None
  | p0 :: rest =>
  match blocks current_chain with
  | [] => None (* current_chain.blocks[0] out of range *)
  | c0 :: _ =>
  if negb (bool_decide (Block_hash p0 = Block_hash c0)) then Some None
  else
  match Timechain_new genesis with
  | None => None
  | Some candidate =>
  match add_all candidate rest with
  | None => None
  | Some (false, _) => Some None
  | Some (true, candidate') =>
      let peer_work := calculate_chain_work candidate' in
      let current_work := calculate_chain_work current_chain in
      if Nat.ltb (length (blocks current_chain)) (length (blocks candidate'))
         || (peer_work >? current_work)
      then Some (Some candidate')
      else Some None
  end
  end
  end
  end.

End Chain.

(* --------------------------------------------------------------------- *)
(* Mempool: src/mempool.rs                                               *)
(* --------------------------------------------------------------------- *)

(** src/error.rs (the variants the mempool raises). *)
Inductive AxiomError :=
| SerializationError (msg : string)
| TransactionTooLarge (size max : Z)
| DuplicateTransaction
| NullifierUsed
| FeeTooLow (min actual : Z).

Record Mempool := mkPool {
  pool_transactions : gmap (list Z) Transaction;
  by_fee : gmap Z (gset (list Z));
  by_sender : gmap (list Z) (list (list Z));
  nullifiers : gset (list Z);
  max_size : Z;
  max_tx_size : Z
}.

Definition Mempool_with_capacity (ms mts : Z) : Mempool :=
  mkPool ∅ ∅ ∅ ∅ ms mts.

(** `by_fee.iter().next()` on the BTreeMap: its least key. *)
Definition btree_first_key {A} (m : gmap Z A) : option Z :=
  fold_right (fun kv acc =>
                match acc with
                | None => Some kv.1
                | Some k => Some (Z.min kv.1 k)
                end) None (map_to_list m).

Section Pool.
Context `{Crypto}.
(** `HashSet::iter().next()`: some element of the set, in the set's
    (randomly seeded) iteration order. *)
Variable set_first : gset (list Z) -> option (list Z).

(** The nullifier H(from || nonce_le). *)
Definition tx_nullifier (tx : Transaction) : list Z :=
  sha256 (from tx ++ le_bytes 8 (tx_nonce tx)).

(** Mempool::remove. *)
Definition remove (mp : Mempool) (hash : list Z) : option Transaction * Mempool :=
  match pool_transactions mp !! hash with
  | None => (None, mp)
  | Some tx =>
      let bf :=
        match by_fee mp !! fee tx with
        | Some hs =>
            let hs' := hs ∖ {[hash]} in
            if bool_decide (hs' = ∅) then delete (fee tx) (by_fee mp)
            else <[fee tx := hs']> (by_fee mp)
        | None => by_fee mp
        end in
      let bs :=
        match by_sender mp !! from tx with
        | Some hs =>
            let hs' := filter (fun h => h ≠ hash) hs in
            if bool_decide (hs' = []) then delete (from tx) (by_sender mp)
            else <[from tx := hs']> (by_sender mp)
        | None => by_sender mp
        end in
      (Some tx, mkPool (delete hash (pool_transactions mp)) bf bs
                       (nullifiers mp ∖ {[tx_nullifier tx]})
                       (max_size mp) (max_tx_size mp))
  end.

(** Mempool::evict_lowest_fee. *)
Definition evict_lowest_fee (mp : Mempool) : Mempool :=
  match btree_first_key (by_fee mp) with
  | None => mp
  | Some k =>
      match by_fee mp !! k with
      | None => mp
      | Some hashes =>
          match set_first hashes with
          | None => mp
          | Some h => snd (remove mp h)
          end
      end
  end.

(** The four index insertions at the end of Mempool::add. *)
Definition insert_indexes (mp : Mempool) (tx : Transaction)
    (hash nul : list Z) : Mempool :=
  mkPool (<[hash := tx]> (pool_transactions mp))
         (<[fee tx := {[hash]} ∪ default ∅ (by_fee mp !! fee tx)]> (by_fee mp))
         (<[from tx := default [] (by_sender mp !! from tx) ++ [hash]]>
            (by_sender mp))
         ({[nul]} ∪ nullifiers mp) (max_size mp) (max_tx_size mp).

(** Mempool::add.  The serialized size is the bincode length of the
    transaction (serialization of this struct cannot fail). *)
Definition add (mp : Mempool) (tx : Transaction) : result unit AxiomError * Mempool :=
  let hash := tx_hash tx in
  let tx_size := Z.of_nat (length (bincode_tx tx)) in
  if tx_size >? max_tx_size mp
  then (Err (TransactionTooLarge tx_size (max_tx_size mp)), mp)
  else if bool_decide (is_Some (pool_transactions mp !! hash))
  then (Err DuplicateTransaction, mp)
  else
  let nul := tx_nullifier tx in
  if bool_decide (nul ∈ nullifiers mp) then (Err NullifierUsed, mp)
  else
  let step :=
    if Z.of_nat (size (pool_transactions mp)) >=? max_size mp then
      match btree_first_key (by_fee mp) with
      | Some lowest_fee =>
          if fee tx <=? lowest_fee
          then inl (FeeTooLow (u64_add lowest_fee 1) (fee tx))
          else inr (evict_lowest_fee mp)
      | None => inr mp
      end
    else inr mp in
  match step with
  | inl e => (Err e, mp)
  | inr mp1 => (Ok tt, insert_indexes mp1 tx hash nul)
  end.

(** Mempool::len. *)
Definition pool_len (mp : Mempool) : Z := Z.of_nat (size (pool_transactions mp)).

(** The multiset of fees held, as a sorted list (for the scenarios). *)
Definition pool_fees (mp : Mempool) : list Z :=
  merge_sort (≤) (map (fun kv => fee kv.2) (map_to_list (pool_transactions mp))).

End Pool.

(* --------------------------------------------------------------------- *)
(* f64 arithmetic used by the LWMA controller                            *)
(* --------------------------------------------------------------------- *)

(** A non-negative binary64 value [m * 2^e], or +infinity.  Every value
    the controller computes is non-negative and not NaN. *)
Inductive f64 :=
| F64 (m e : Z)
| F64_inf.

(** [n/d * 2^k >= 1]-style test: is n/d >= 2^k ? *)
Definition ge_pow2 (n d k : Z) : bool :=
  if 0 <=? k then d * 2 ^ k <=? n else d <=? n * 2 ^ (- k).

(** [num/den] rounded to the nearest integer, ties to even. *)
Definition rne_div (num den : Z) : Z :=
  let m0 := num / den in
  let r := num mod den in
  if (den <? 2 * r) || ((2 * r =? den) && Z.odd m0) then m0 + 1 else m0.

(** IEEE-754 binary64 round-to-nearest-even of the rational [n/d]
    (n >= 0, d > 0), with overflow to infinity. *)
Definition f64_round (n d : Z) : f64 :=
  if n <=? 0 then F64 0 0 else
  let l0 := Z.log2 n - Z.log2 d in
  let l := if ge_pow2 n d l0 then l0 else l0 - 1 in   (* floor(log2(n/d)) *)
  let e := Z.max (l - 52) (-1074) in
  let num := if 0 <=? e then n else n * 2 ^ (- e) in
  let den := if 0 <=? e then d * 2 ^ e else d in
  let m := rne_div num den in
  if 1024 <=? e + Z.log2 m then F64_inf else F64 m e.

(** `x as f64` for an integer x, and `BigUint::to_f64` (correctly
    rounded, infinity when too large). *)
Definition f64_of_int (x : Z) : f64 := f64_round x 1.

(** Exact value [m*2^e] as the fraction [num/den]. *)
Definition f64_num (m e : Z) : Z := if 0 <=? e then m * 2 ^ e else m.
Definition f64_den (e : Z) : Z := if 0 <=? e then 1 else 2 ^ (- e).

Definition f64_div (a b : f64) : f64 :=
  match a, b with
  | F64 m1 e1, F64 m2 e2 =>
      if m2 =? 0 then F64_inf (* not reached: divisors are non-zero *)
      else f64_round (f64_num m1 e1 * f64_den e2) (f64_den e1 * f64_num m2 e2)
  | F64_inf, _ => F64_inf
  | F64 _ _, F64_inf => F64 0 0
  end.

Definition f64_mul (a b : f64) : f64 :=
  match a, b with
  | F64 m1 e1, F64 m2 e2 =>
      f64_round (f64_num m1 e1 * f64_num m2 e2) (f64_den e1 * f64_den e2)
  | F64 m _, F64_inf | F64_inf, F64 m _ =>
      if m =? 0 then F64 0 0 (* NaN: not reached *) else F64_inf
  | F64_inf, F64_inf => F64_inf
  end.

(** a <= b on the values. *)
Definition f64_leb (a b : f64) : bool :=
  match a, b with
  | _, F64_inf => true
  | F64_inf, F64 _ _ => false
  | F64 m1 e1, F64 m2 e2 =>
      f64_num m1 e1 * f64_den e2 <=? f64_num m2 e2 * f64_den e1
  end.

Definition f64_max (a b : f64) : f64 := if f64_leb a b then b else a.
Definition f64_min (a b : f64) : f64 := if f64_leb a b then a else b.

(** `x as u64`: truncation toward zero, saturating at u64::MAX. *)
Definition f64_as_u64 (a : f64) : Z :=
  match a with
  | F64_inf => U64_MAX
  | F64 m e => Z.min (f64_num m e / f64_den e) U64_MAX
  end.

(* --------------------------------------------------------------------- *)
(* LWMA: src/consensus/lwma.rs                                           *)
(* --------------------------------------------------------------------- *)

Definition TARGET_BLOCK_TIME : Z := 1800.
Definition LWMA_WINDOW : nat := 60.
Definition MIN_DIFFICULTY : Z := 1000.
(** MAX_ADJUSTMENT_FACTOR = 3.0 and MIN_ADJUSTMENT_FACTOR = 0.33. *)
Definition MAX_ADJUSTMENT_FACTOR : f64 := F64 3 0.
Definition MIN_ADJUSTMENT_FACTOR : f64 := f64_round 33 100.

Record BlockHeader := mkHeader {
  height : Z;
  timestamp : Z;
  hdr_difficulty : Z (* BigUint *)
}.

Definition dummy_header : BlockHeader := mkHeader 0 0 0.

(** One iteration of the loop `for i in 1..=LWMA_WINDOW`; [window[i]] is
    always in range (the window has LWMA_WINDOW + 1 headers). *)
Definition lwma_step (window : list BlockHeader) (acc : Z * Z) (i : nat)
  : Z * Z :=
  let '(weighted_times, sum_difficulties) := acc in
  let hi := nth i window dummy_header in
  let hp := nth (i - 1) window dummy_header in
  let time_delta :=
    Z.max (u64_saturating_sub (timestamp hi) (timestamp hp)) 1 in
  let weight := Z.of_nat i in
  (u64_saturating_add weighted_times (u64_saturating_mul time_delta weight),
   sum_difficulties + hdr_difficulty hi).

Definition lwma_sums (window : list BlockHeader) : Z * Z :=
  fold_left (lwma_step window) (seq 1 LWMA_WINDOW) (0, 0).

Definition calculate_lwma_difficulty (block_headers : list BlockHeader) : Z :=
  if (length block_headers <? LWMA_WINDOW + 1)%nat then MIN_DIFFICULTY
  else
  let start_idx := (length block_headers - (LWMA_WINDOW + 1))%nat in
  let window := drop start_idx block_headers in
  let '(weighted_times, sum_difficulties) := lwma_sums window in
  let n := Z.of_nat LWMA_WINDOW in
  let expected_times :=
    u64_saturating_mul (u64_saturating_mul TARGET_BLOCK_TIME n) (n + 1) / 2 in
  let avg_difficulty := sum_difficulties / Z.of_nat LWMA_WINDOW in
  let new_difficulty :=
    if (weighted_times =? 0) || (expected_times =? 0) then avg_difficulty
    else
      let adjustment :=
        f64_div (f64_of_int weighted_times) (f64_of_int expected_times) in
      let clamped_adjustment :=
        f64_min (f64_max adjustment MIN_ADJUSTMENT_FACTOR)
                MAX_ADJUSTMENT_FACTOR in
      let adjusted := f64_mul (f64_of_int avg_difficulty) clamped_adjustment in
      f64_as_u64 adjusted in
  Z.max new_difficulty MIN_DIFFICULTY.

(** lwma::difficulty_to_target and lwma::meets_difficulty (the 256-bit
    check, not the one add_block calls). *)
Definition max_target : Z := 2 ^ 256 - 1.

Definition difficulty_to_target (d : Z) : Z :=
  if d =? 0 then max_target else max_target / d.

Definition lwma_meets_difficulty (block_hash : list Z) (d : Z) : bool :=
  from_be_bytes block_hash <=? difficulty_to_target d.

(* --------------------------------------------------------------------- *)
(* Stub primitives for concrete runs (spec 9: consensus logic must be    *)
(* exercisable with stub predicates).                                    *)
(* --------------------------------------------------------------------- *)

(** A polynomial, non-cryptographic 32-byte digest (a 64-bit value
    zero-extended). *)
Definition poly_digest (bs : list Z) : list Z :=
  le_bytes 32 (fold_left (fun acc b => Z.land (acc * 257 + b + 1) 18446744073709551615) bs 0).

(** The SHA-256 input of calculate_hash for the genesis block. *)
Definition genesis_preimage : list Z :=
  parent genesis ++ be_bytes 8 (slot genesis) ++ miner genesis
  ++ vdf_proof genesis ++ zk_proof genesis ++ be_bytes 8 (nonce genesis).

(** Stubs: SHA-256 maps the genesis preimage to the anchor and anything
    else to its polynomial digest; BLAKE3 is constantly zero (so every
    block meets every difficulty); Transaction::hash is the polynomial
    digest of the bincode bytes; proofs and signatures are accepted. *)
Definition stub_crypto : Crypto := {|
  sha256 bs := if bool_decide (bs = genesis_preimage) then GENESIS_ANCHOR
               else poly_digest bs;
  blake3 _ := zeros32;
  tx_hash tx := poly_digest (bincode_tx tx);
  tx_proofs_ok _ := true
|}.

(** The stub primitives, except that BLAKE3 returns the all-0xFF digest
    (the largest 256-bit value). *)
Definition ff_crypto : Crypto := {|
  sha256 := @sha256 stub_crypto;
  blake3 _ := repeat 255 32;
  tx_hash := @tx_hash stub_crypto;
  tx_proofs_ok := @tx_proofs_ok stub_crypto
|}.

(** HashSet::iter().next() in the stubbed runs: the first element. *)
Definition stub_set_first (s : gset (list Z)) : option (list Z) :=
  head (elements s).

(* --------------------------------------------------------------------- *)
(* Concrete inputs of the spec's scenarios                               *)
(* --------------------------------------------------------------------- *)

Definition addr_A : list Z := repeat 1 32.
Definition addr_B : list Z := repeat 2 32.

(** S2: balances = {A:1000, B:0}, nonces = {A:0}. *)
Definition S2_state : State :=
  mkState (<[addr_A := 1000]> (<[addr_B := 0]> ∅)) 0 (<[addr_A := 0]> ∅).

(** S2: tx{from=A, to=B, amount=100, fee=10, nonce=0}. *)
Definition S2_tx : Transaction := mkTx addr_A addr_B 100 10 0 [] [].

(** A transfer whose amount + fee does not fit in a u64. *)
Definition overflow_tx : Transaction := mkTx addr_A addr_B U64_MAX 1 0 [] [].

Definition miner_M : list Z := repeat 7 32.

(** A zero-value transfer from A carrying nonce 0. *)
Definition tx_A0 : Transaction := mkTx addr_A addr_B 0 0 0 [] [].

Section StubData.
#[local] Existing Instance stub_crypto.

(** The chain built by Timechain::new(genesis()) (evaluated once). *)
Definition chain0 : Timechain := Eval vm_compute in
  rebuild_state (mkChain [genesis] State_new 1000 ∅ 0).

(** The VDF output expected for slot 1 at difficulty 1000 (evaluated
    once). *)
Definition stub_vdf1 : list Z := Eval vm_compute in compute_vdf (vdf_evaluate zeros32 1) 1000.

(** A block at slot 1 on top of genesis, mined by M, with the given
    transactions and PoW nonce. *)
Definition block1 (txs : list Transaction) (n : Z) : Block :=
  mkBlock zeros32 1 miner_M txs stub_vdf1 (repeat 0 128) n.

(** The chain after accepting [block1 [] 5] (evaluated once). *)
Definition chain1 : Timechain := Eval vm_compute in
  match add_block chain0 (block1 [] 5) 1800 with
  | Some (_, tc) => tc
  | None => chain0
  end.

End StubData.

(** The chains a Timechain can evolve into: any sequence of add_block
    calls (accepted or not) and rebuild_state calls. *)
Inductive chain_steps `{Crypto} : Timechain -> Timechain -> Prop :=
| steps_refl tc : chain_steps tc tc
| steps_add tc b e r tc' tc'' :
    add_block tc b e = Some (r, tc') -> chain_steps tc' tc'' ->
    chain_steps tc tc''
| steps_rebuild tc tc'' :
    chain_steps (rebuild_state tc) tc'' -> chain_steps tc tc''.

(** The spec's cumulative work: the sum over the blocks of
    max(block.nonce, 1), as an unbounded integer (spec side, compared with
    calculate_chain_work). *)
Definition spec_chain_work (tc : Timechain) : Z :=
  fold_left (fun acc b => acc + Z.max (nonce b) 1) (blocks tc) 0.

(** A peer chain of the same length as [chain1] whose slot-1 block
    carries the largest u64 nonce. *)
Definition peer_max_nonce : list Block := [genesis; block1 [] U64_MAX].

(** The reward a block's miner is credited by rebuild_state and
    add_block: block_reward(slot) when it is positive and the miner is
    not the zero address, nothing otherwise. *)
Definition credited_reward (b : Block) : Z :=
  let reward := get_mining_reward (slot b) in
  if (0 <? reward) && negb (bool_decide (miner b = zeros32)) then reward
  else 0.

(** The sum of the credited rewards of a block list. *)
Definition issued_sum (bs : list Block) : Z :=
  fold_right (fun b acc => credited_reward b + acc) 0 bs.

(** The i-th block of the list has slot i. *)
Definition slots_ok (bs : list Block) : Prop :=
  map slot bs = map Z.of_nat (seq 0 (length bs)).

(** The rewards of the slots 0 .. n-1. *)
Fixpoint reward_prefix (n : nat) : Z :=
  match n with
  | O => 0
  | S n' => reward_prefix n' + get_mining_reward (Z.of_nat n')
  end.

(** The issuance invariant of a chain. *)
Definition issuance_inv (tc : Timechain) : Prop :=
  slots_ok (blocks tc) /\ total_issued tc = issued_sum (blocks tc).

(** S3: tx1{from=A, nonce=5, fee=10} and tx2{from=A, nonce=5, fee=20}. *)
Definition S3_tx1 : Transaction := mkTx addr_A addr_B 1 10 5 [] [].
Definition S3_tx2 : Transaction := mkTx addr_A addr_B 1 20 5 [] [].

(** tx2 of S3 carrying a 200-byte proof (bincode size 304). *)
Definition S3_tx2_big : Transaction := mkTx addr_A addr_B 1 20 5 (repeat 0 200) [].

(** An empty pool with room for 100 transactions of at most 100_000
    bytes, and one whose size limit is 200 bytes. *)
Definition S3_pool : Mempool := Mempool_with_capacity 100 100000.
Definition small_pool : Mempool := Mempool_with_capacity 100 200.

Section StubPools.
#[local] Existing Instance stub_crypto.

(** The S3 pool after tx1 was added (evaluated once). *)
Definition S3_pool1 : Mempool := Eval vm_compute in
  insert_indexes S3_pool S3_tx1 (tx_hash S3_tx1) (tx_nullifier S3_tx1).

End StubPools.

(** S4: a capacity-2 pool holding fees 5 and 10 (both from A, nonces 0
    and 1), then tx{fee=15} and tx{fee=3}. *)
Definition S4_tx5 : Transaction := mkTx addr_A addr_B 1 5 0 [] [].
Definition S4_tx10 : Transaction := mkTx addr_A addr_B 1 10 1 [] [].
Definition S4_tx15 : Transaction := mkTx addr_A addr_B 1 15 2 [] [].
Definition S4_tx3 : Transaction := mkTx addr_A addr_B 1 3 3 [] [].

(** A fee-15 transaction reusing the (from, nonce) of the fee-5 one. *)
Definition S4_tx15_replay : Transaction := mkTx addr_A addr_B 2 15 0 [] [].

Section StubPoolsS4.
#[local] Existing Instance stub_crypto.

(** The pool after an add call, whatever its result. *)
Definition add_then (mp : Mempool) (tx : Transaction) : Mempool :=
  snd (add stub_set_first mp tx).

(** The pool {5, 10} of capacity 2, built by two adds (evaluated once). *)
Definition S4_pool2 : Mempool := Eval vm_compute in
  add_then (add_then (Mempool_with_capacity 2 100000) S4_tx5) S4_tx10.

(** The same pool after tx{fee=15} (evaluated once). *)
Definition S4_pool3 : Mempool := Eval vm_compute in add_then S4_pool2 S4_tx15.

End StubPoolsS4.

(** Consistency of the fee index with the transaction map: every fee
    bucket is non-empty and holds digests of pool transactions with that
    fee, and every pool transaction is in the bucket of its fee. *)
Definition pool_wf (mp : Mempool) : Prop :=
  map_Forall (fun k hs => hs ≠ ∅ /\
                set_Forall (fun h => fee <$> pool_transactions mp !! h = Some k) hs)
             (by_fee mp) /\
  map_Forall (fun h t => h ∈ default ∅ (by_fee mp !! fee t))
             (pool_transactions mp).

(** A constant-interval history: consecutive timestamps exactly
    TARGET_BLOCK_TIME apart, and difficulty constantly [D]. *)
Definition steady_history (hs : list BlockHeader) (D : Z) : Prop :=
  (forall i, (S i < length hs)%nat ->
     timestamp (nth (S i) hs dummy_header)
     = timestamp (nth i hs dummy_header) + TARGET_BLOCK_TIME) /\
  Forall (fun h => hdr_difficulty h = D) hs.

(** [n] headers at heights 0..n-1, timestamps t0 + 1800 i, difficulty D. *)
Definition steady_list (t0 D : Z) (n : nat) : list BlockHeader :=
  map (fun i => mkHeader (Z.of_nat i) (t0 + TARGET_BLOCK_TIME * Z.of_nat i) D)
      (seq 0 n).

(** S5: 100 headers at 1800 s intervals with difficulty 100_000. *)
Definition S5_headers : list BlockHeader := steady_list 0 100000 100.

(* ===================================================================== *)
(* Well-formedness of machine values                                     *)
(* ===================================================================== *)

Definition u64_ok (x : Z) : Prop := 0 <= x <= U64_MAX.

Definition state_wf (s : State) : Prop :=
  map_Forall (fun _ v => u64_ok v) (balances s) /\
  map_Forall (fun _ v => u64_ok v) (nonces s).

Definition tx_wf (tx : Transaction) : Prop :=
  u64_ok (amount tx) /\ u64_ok (fee tx) /\ u64_ok (tx_nonce tx).

(* ===================================================================== *)
(* Further code of the cited files                                       *)
(* ===================================================================== *)

(** economics::calculate_total_supply: the `while current_height < height
    && era < 64` loop (at most 64 iterations, as era goes up by one each
    time). *)
Fixpoint total_supply_loop (fuel : nat) (height total current_height era : Z) : Z :=
  match fuel with
  | O => total
  | S f =>
      if (current_height <? height) && (era <? 64) then
        let reward := Z.shiftr INITIAL_REWARD era in
        let blocks_in_era := Z.min HALVING_INTERVAL (height - current_height) in
        total_supply_loop f height
          (u64_saturating_add total (u64_saturating_mul reward blocks_in_era))
          (u64_add current_height blocks_in_era) (u64_add era 1)
      else total
  end.

(** economics::calculate_total_supply. *)
Definition calculate_total_supply (height : Z) : Z :=
  if height =? 0 then 0
  else Z.min (total_supply_loop 64 height 0 0 0) TOTAL_SUPPLY.

(** economics::remaining_supply. *)
Definition remaining_supply (height : Z) : Z :=
  u64_saturating_sub TOTAL_SUPPLY (calculate_total_supply height).

(** economics::current_era. *)
Definition current_era (height : Z) : Z := Z.min (height / HALVING_INTERVAL) 63.

(** economics::blocks_until_halving (HALVING_INTERVAL - height % HALVING_INTERVAL
    never underflows). *)
Definition blocks_until_halving (height : Z) : Z :=
  HALVING_INTERVAL - height mod HALVING_INTERVAL.

(** The issuance of the first [n] complete eras. *)
Fixpoint era_supply (n : nat) : Z :=
  match n with
  | O => 0
  | S n' => era_supply n' + HALVING_INTERVAL * Z.shiftr INITIAL_REWARD (Z.of_nat n')
  end.

(** u64 multiplication (the products below never exceed u64::MAX). *)
Definition u64_mul (a b : Z) : Z := (a * b) mod 2 ^ 64.

(** The three error messages of validate_economics. *)
Inductive EconError :=
| InitialRewardIncorrect (expected got : Z)
| HalvingIncorrect (at_block before after : Z)
| TotalSupplyIncorrect (expected got : Z).

(** The `while era < 64` loop of validate_economics (Test 3). *)
Fixpoint economics_supply_loop (fuel : nat) (total era : Z) : Z :=
  match fuel with
  | O => total
  | S f =>
      if era <? 64 then
        let reward := get_mining_reward (u64_mul era HALVING_INTERVAL) in
        if reward =? 0 then total
        else economics_supply_loop f
               (u64_saturating_add total (u64_saturating_mul reward HALVING_INTERVAL))
               (u64_add era 1)
      else total
  end.

(** economics::validate_economics. *)
Definition validate_economics : result unit EconError :=
  if negb (get_mining_reward 0 =? 50 * SMALLEST_UNIT)
  then Err (InitialRewardIncorrect (50 * SMALLEST_UNIT) (get_mining_reward 0))
  else
  let before_halving := get_mining_reward (HALVING_INTERVAL - 1) in
  let after_halving := get_mining_reward HALVING_INTERVAL in
  if negb (after_halving =? before_halving / 2)
  then Err (HalvingIncorrect HALVING_INTERVAL before_halving after_halving)
  else
  let total := economics_supply_loop 64 0 0 in
  if (total <? TOTAL_SUPPLY * 99 / 100) || (total >? TOTAL_SUPPLY)
  then Err (TotalSupplyIncorrect TOTAL_SUPPLY total)
  else Ok tt.

(** economics::EraStats. *)
Record EraStats := mkEraStats {
  es_era : Z;
  es_start_height : Z;
  es_end_height : Z;
  es_reward : Z;
  es_total_era_supply : Z;
  es_years_duration : f64
}.

(** ERA_DURATION_YEARS = 70.7 (as an f64). *)
Definition ERA_DURATION_YEARS : f64 := f64_round 707 10.

(** EraStats::for_height. *)
Definition EraStats_for_height (height : Z) : EraStats :=
  let era := current_era height in
  let reward := get_mining_reward height in
  let start_height := u64_mul era HALVING_INTERVAL in
  let end_height := u64_mul (u64_add era 1) HALVING_INTERVAL in
  let total_era_supply := u64_mul reward HALVING_INTERVAL in
  mkEraStats era start_height end_height reward total_era_supply ERA_DURATION_YEARS.


(** Block::mining_reward (block.rs). *)
Definition Block_mining_reward (s : Z) : Z :=
  let initial_reward := 50000000 in
  let halving_interval := 1240000 in
  let halvings := s / halving_interval in
  Z.shiftr initial_reward (Z.min halvings 32).

(** Block::apply_mining_reward. *)
Definition apply_mining_reward (b : Block) (st : State) : State :=
  credit st (miner b) (Block_mining_reward (slot b)).

(** Chains reached from a chain by accepted add_block calls only. *)
Inductive accepted_steps `{Crypto} : Timechain -> Timechain -> Prop :=
| acc_refl tc : accepted_steps tc tc
| acc_add tc b e tc' tc'' :
    add_block tc b e = Some (Ok tt, tc') -> accepted_steps tc' tc'' ->
    accepted_steps tc tc''.

Section ZK.
Context `{Crypto}.


End ZK.

(** The sender index agrees with the transaction map: every sender list
    is non-empty and lists transactions of that sender, and every pool
    transaction is listed under its sender. *)
Definition sender_wf (mp : Mempool) : Prop :=
  map_Forall (fun a hs => hs ≠ [] /\
                Forall (fun h => from <$> pool_transactions mp !! h = Some a) hs)
             (by_sender mp) /\
  map_Forall (fun h t => h ∈ default [] (by_sender mp !! from t))
             (pool_transactions mp).

(** Both indexes agree with the transaction map. *)
Definition mempool_wf (mp : Mempool) : Prop := pool_wf mp /\ sender_wf mp.

(** Order of (fee, hashes) entries by fee. *)
Definition fee_le (a b : Z * gset (list Z)) : Prop := a.1 <= b.1.
#[global] Instance fee_le_dec : RelDecision fee_le := fun a b => decide (a.1 <= b.1).

Section Mining.
(** HashSet iteration order, as a list of the set's elements. *)
Variable set_list : gset (list Z) -> list (list Z).

(** The two nested loops of Mempool::get_for_mining run over the
    concatenation of the buckets; `return result` leaves both. *)
Fixpoint take_mining (pool : gmap (list Z) Transaction) (max_count : Z)
    (result : list Transaction) (hashes : list (list Z)) : list Transaction :=
  match hashes with
  | [] => result
  | hash :: rest =>
      match pool !! hash with
      | Some tx =>
          let result' := result ++ [tx] in
          if Z.of_nat (length result') >=? max_count then result'
          else take_mining pool max_count result' rest
      | None => take_mining pool max_count result rest
      end
  end.

(** by_fee.iter().rev(): the entries of the fee index by decreasing fee. *)
Definition by_fee_desc (m : gmap Z (gset (list Z))) : list (Z * gset (list Z)) :=
  reverse (merge_sort fee_le (map_to_list m)).

(** Mempool::get_for_mining. *)
Definition get_for_mining (mp : Mempool) (max_count : Z) : list Transaction :=
  take_mining (pool_transactions mp) max_count []
    (concat (map (fun kv => set_list kv.2) (by_fee_desc (by_fee mp)))).
End Mining.

Section RB.
Context `{Crypto}.

(** Mempool::remove_batch. *)
Definition remove_batch (mp : Mempool) (hashes : list (list Z)) : Mempool :=
  fold_left (fun mp hash => snd (remove mp hash)) hashes mp.
End RB.

(** Mempool::get_by_sender. *)
Definition get_by_sender (mp : Mempool) (sender : list Z) : list Transaction :=
  match by_sender mp !! sender with
  | Some hashes => omap (fun hash => pool_transactions mp !! hash) hashes
  | None => []
  end.

(** src/vdf.rs: wesolowski_evaluate, `g.pow_mod(&(1 << t), n).unwrap()`.
    GMP reduces modulo |n| into [0, |n|); a zero modulus panics. *)
Definition wesolowski_evaluate (g t n : Z) : option Z :=
  if n =? 0 then None else Some (g ^ (2 ^ t) mod Z.abs n).

(** src/vdf.rs: wesolowski_verify. *)
Definition wesolowski_verify (g t n y : Z) : option bool :=
  match wesolowski_evaluate g t n with
  | Some expected => Some (expected =? y)
  | None => None
  end.

(** rug::Integer::from_digits(bs, Order::Lsf) on u8 digits. *)
Definition from_digits_lsf (bs : list Z) : Z :=
  fold_right (fun d acc => d + 256 * acc) 0 bs.

Section BlockValidate.
Context `{Crypto}.

(** The transaction loop of Block::validate: `tx.validate(sender_balance)?`
    then `state.apply_tx(tx)?`, on the caller's state. *)
Fixpoint validate_apply_txs (st : State) (txs : list Transaction)
    : result unit string * State :=
  match txs with
  | [] => (Ok tt, st)
  | tx :: rest =>
      match tx_validate tx (balance st (from tx)) with
      | Err e => (Err e, st)
      | Ok _ =>
          match apply_tx st tx with
          | (Err e, st') => (Err e, st')
          | (Ok _, st') => validate_apply_txs st' rest
          end
      end
  end.

(** src/block.rs: Block::validate.  The `&mut State` is threaded through
    and returned with the result; [None] is the panic of the VDF
    evaluation on a zero modulus. *)
Definition Block_validate (b : Block) (parent_hash : list Z) (parent_slot : Z)
    (st : State) (difficulty vdf_iterations vdf_n : Z)
    : option (result unit string * State) :=
  let vdf_seed := vdf_evaluate parent_hash parent_slot in
  match wesolowski_verify (from_digits_lsf vdf_seed) vdf_iterations vdf_n
          (from_digits_lsf (vdf_proof b)) with
  | None => None
  | Some false => Some (Err "Invalid VDF proof", st)
  | Some true =>
      if negb (Block_meets_difficulty b difficulty)
      then Some (Err "Block does not meet PoW difficulty", st)
      else if bool_decide (zk_proof b = [])
      then Some (Err "Missing miner ZK-SNARK proof", st)
      else Some (validate_apply_txs st (transactions b))
  end.
End BlockValidate.

Section StubPoolsX.
#[local] Existing Instance stub_crypto.

(** A capacity-3 pool holding the fee-5 transaction, and the same pool
    after the fee-10 one (evaluated once). *)
Definition pool3_5 : Mempool := Eval vm_compute in
  add_then (Mempool_with_capacity 3 100000) S4_tx5.
Definition pool3_5_10 : Mempool := Eval vm_compute in add_then pool3_5 S4_tx10.

End StubPoolsX.

Section StubBlockValidate.
#[local] Existing Instance stub_crypto.

Definition bv_modulus : Z := 1000003.

(** The Wesolowski output for the slot-0 seed on the zero parent, t = 1
    and the modulus above, as 32 little-endian bytes (evaluated once). *)
Definition bv_vdf : list Z := Eval vm_compute in
  le_bytes 32 (from_digits_lsf (vdf_evaluate zeros32 0) ^ 2 mod bv_modulus).

(** A slot-1 block on genesis carrying that VDF proof and the given
    transactions. *)
Definition bv_block (txs : list Transaction) : Block :=
  mkBlock zeros32 1 miner_M txs bv_vdf [1] 0.

(** S2's state after S2's transfer (evaluated once). *)
Definition S2_state1 : State := Eval vm_compute in snd (apply_tx S2_state S2_tx).
End StubBlockValidate.

(* ===================================================================== *)
(* Economics                                                             *)
(* ===================================================================== *)

(** C6: the reward schedule.  reward(0) = 5_000_000_000,
    reward(1_240_000) = 2_500_000_000, reward(2_480_000) = 1_250_000_000,
    reward(64 * 1_240_000) = 0, and for every slot
    reward(slot) = INITIAL_REWARD >> min(slot / HALVING_INTERVAL, 63)
    with INITIAL_REWARD = 50 * 10^8 and HALVING_INTERVAL = 1_240_000;
    block_reward, which the chain calls, is the same function. *)
Theorem C6_reward_schedule :
  get_mining_reward 0 = 5000000000 /\
  get_mining_reward 1240000 = 2500000000 /\
  get_mining_reward 2480000 = 1250000000 /\
  get_mining_reward (64 * 1240000) = 0 /\
  INITIAL_REWARD = 50 * 10 ^ 8 /\ HALVING_INTERVAL = 1240000 /\
  (forall (s ti : Z),
     get_mining_reward s =
       Z.shiftr INITIAL_REWARD (Z.min (s / HALVING_INTERVAL) 63) /\
     block_reward s ti = get_mining_reward s).
Proof.
  split; [reflexivity|]. split; [reflexivity|]. split; [reflexivity|].
  split; [reflexivity|]. split; [reflexivity|]. split; [reflexivity|].
  intros s ti. split; [|reflexivity].
  unfold get_mining_reward.
  destruct (Z.geb_spec (s / HALVING_INTERVAL) 64) as [Hge|Hlt].
  - rewrite Z.min_r by lia. reflexivity.
  - rewrite Z.min_l by lia. reflexivity.
Qed.

(* ===================================================================== *)
(* State::apply_tx                                                       *)
(* ===================================================================== *)

Lemma default_lookup_insert (m : gmap (list Z) Z) (k a : list Z) (v : Z) :
  default 0 (<[k:=v]> m !! a) = if decide (a = k) then v else default 0 (m !! a).
Proof.
  destruct (decide (a = k)) as [->|Hne].
  - by rewrite lookup_insert_eq.
  - by rewrite lookup_insert_ne.
Qed.

Lemma balance_wf (s : State) (a : list Z) : state_wf s -> u64_ok (balance s a).
Proof.
  intros [Hb _]. unfold balance.
  destruct (balances s !! a) eqn:E; simpl.
  - exact (Hb _ _ E).
  - unfold u64_ok, U64_MAX. lia.
Qed.

Lemma state_nonce_wf (s : State) (a : list Z) :
  state_wf s -> u64_ok (state_nonce s a).
Proof.
  intros [_ Hn]. unfold state_nonce.
  destruct (nonces s !! a) eqn:E; simpl.
  - exact (Hn _ _ E).
  - unfold u64_ok, U64_MAX. lia.
Qed.

Lemma u64_add_small (a b : Z) : 0 <= a + b <= U64_MAX -> u64_add a b = a + b.
Proof. unfold u64_add, U64_MAX. intros. apply Z.mod_small. lia. Qed.

Lemma apply_tx_general (s : State) (tx : Transaction) :
  state_wf s -> tx_wf tx ->
  amount tx + fee tx <= U64_MAX ->
  state_nonce s (from tx) < U64_MAX ->
  (to tx <> from tx -> balance s (to tx) + amount tx <= U64_MAX) ->
  let '(r, s') := apply_tx s tx in
  (is_ok r = true <->
     amount tx + fee tx <= balance s (from tx) /\
     tx_nonce tx = state_nonce s (from tx)) /\
  (is_ok r = true ->
     (forall a, balance s' a =
        (if decide (a = from tx) then balance s a - (amount tx + fee tx)
         else balance s a) + (if decide (a = to tx) then amount tx else 0)) /\
     (forall a, state_nonce s' a =
        if decide (a = from tx) then state_nonce s a + 1 else state_nonce s a) /\
     st_total_issued s' = st_total_issued s) /\
  (is_ok r = false -> exists msg, r = Err msg /\ s' = s).
Proof.
  intros Hs [Ha [Hf Hnn]] Hcost Hn Hto.
  pose proof (balance_wf s (from tx) Hs) as Hbf.
  pose proof (balance_wf s (to tx) Hs) as Hbt.
  unfold u64_ok in *.
  unfold apply_tx.
  rewrite (u64_add_small (amount tx) (fee tx)) by lia.
  destruct (Z.ltb_spec (balance s (from tx)) (amount tx + fee tx)) as [Hlt|Hge];
    simpl.
  { split; [split; [discriminate | lia]|].
    split; [discriminate|]. intros _. eauto. }
  destruct (Z.eqb_spec (tx_nonce tx) (state_nonce s (from tx))) as [Heq|Hneq];
    simpl.
  2:{ split; [split; [discriminate | tauto]|].
      split; [discriminate|]. intros _. eauto. }
  split; [split; auto|].
  split; [|discriminate].
  intros _. split; [|split; [|reflexivity]].
  - intros a. unfold balance at 1. simpl.
    rewrite default_lookup_insert.
    unfold balance. simpl. rewrite !default_lookup_insert.
    unfold balance in *.
    destruct (decide (a = to tx)) as [->|Nto].
    + destruct (decide (to tx = from tx)) as [Etf|Ntf].
      * rewrite Etf. rewrite u64_add_small; lia.
      * specialize (Hto Ntf). unfold balance in Hto.
        rewrite u64_add_small; lia.
    + destruct (decide (a = from tx)) as [->|]; lia.
  - intros a. unfold state_nonce at 1. simpl.
    rewrite default_lookup_insert.
    destruct (decide (a = from tx)) as [->|Nfr].
    + apply u64_add_small. pose proof (state_nonce_wf s (from tx) Hs).
      unfold u64_ok in *. lia.
    + reflexivity.
Qed.

(** C5 (amended): for every well-formed state and transaction in which
    no u64 overflow occurs (amount + fee <= u64::MAX, nonce(from) <
    u64::MAX and, when to <> from, balance(to) + amount <= u64::MAX),
    apply_tx succeeds iff balance(from) >= amount + fee and nonce(from)
    = tx.nonce; on success it debits from by amount + fee, credits to by
    amount, increments nonce(from) and changes nothing else; on failure
    it returns an error and leaves the state untouched.  Scenario S2:
    {A:1000, B:0}, {A:0} becomes {A:890, B:100}, {A:1}. *)
Theorem C5_apply_tx_amended :
  (forall (s : State) (tx : Transaction),
    state_wf s -> tx_wf tx ->
    amount tx + fee tx <= U64_MAX ->
    state_nonce s (from tx) < U64_MAX ->
    (to tx <> from tx -> balance s (to tx) + amount tx <= U64_MAX) ->
    let '(r, s') := apply_tx s tx in
    (is_ok r = true <->
       amount tx + fee tx <= balance s (from tx) /\
       tx_nonce tx = state_nonce s (from tx)) /\
    (is_ok r = true ->
       (forall a, balance s' a =
          (if decide (a = from tx) then balance s a - (amount tx + fee tx)
           else balance s a) + (if decide (a = to tx) then amount tx else 0)) /\
       (forall a, state_nonce s' a =
          if decide (a = from tx) then state_nonce s a + 1
          else state_nonce s a) /\
       st_total_issued s' = st_total_issued s) /\
    (is_ok r = false -> exists msg, r = Err msg /\ s' = s)) /\
  (let '(r, s') := apply_tx S2_state S2_tx in
   r = Ok tt /\
   balances s' = <[addr_A := 890]> (<[addr_B := 100]> ∅) /\
   nonces s' = <[addr_A := 1]> ∅).
Proof.
  split.
  - exact apply_tx_general.
  - vm_compute. split; [reflexivity|split; reflexivity].
Qed.

(** Witness of C5: the hypotheses hold for scenario S2, and the theorem
    gives the outcome there. *)
Lemma C5_witness :
  state_wf S2_state /\ tx_wf S2_tx /\
  (let '(r, s') := apply_tx S2_state S2_tx in
   (is_ok r = true <->
      amount S2_tx + fee S2_tx <= balance S2_state (from S2_tx) /\
      tx_nonce S2_tx = state_nonce S2_state (from S2_tx)) /\
   (is_ok r = true ->
      (forall a, balance s' a =
         (if decide (a = from S2_tx)
          then balance S2_state a - (amount S2_tx + fee S2_tx)
          else balance S2_state a)
         + (if decide (a = to S2_tx) then amount S2_tx else 0)) /\
      (forall a, state_nonce s' a =
         if decide (a = from S2_tx) then state_nonce S2_state a + 1
         else state_nonce S2_state a) /\
      st_total_issued s' = st_total_issued S2_state) /\
   (is_ok r = false -> exists msg, r = Err msg /\ s' = S2_state)).
Proof.
  assert (Hs : state_wf S2_state).
  { split; apply (bool_decide_unpack _); vm_compute; exact I. }
  assert (Ht : tx_wf S2_tx).
  { unfold tx_wf, u64_ok, U64_MAX; simpl; lia. }
  split; [exact Hs|]. split; [exact Ht|].
  apply (proj1 C5_apply_tx_amended S2_state S2_tx Hs Ht).
  - unfold U64_MAX; simpl; lia.
  - vm_compute. reflexivity.
  - intros _. vm_compute. discriminate.
Defined.

(** C5 counterexample: with amount = u64::MAX and fee = 1 the cost wraps
    to 0, so apply_tx succeeds from a balance of 1000 < amount + fee,
    debits nothing and credits B with u64::MAX. *)
Lemma C5_counterexample :
  let '(r, s') := apply_tx S2_state overflow_tx in
  r = Ok tt /\
  balance S2_state addr_A < amount overflow_tx + fee overflow_tx /\
  balance s' addr_A = 1000 /\ balance s' addr_B = U64_MAX.
Proof. vm_compute. repeat split; reflexivity. Qed.

(* ===================================================================== *)
(* The duplicate guard                                                   *)
(* ===================================================================== *)

Lemma rebuild_state_seen (tc : Timechain) :
  seen_hashes (rebuild_state tc) = seen_hashes tc.
Proof.
  unfold rebuild_state. by destruct (fold_left _ _ _).
Qed.

Lemma add_block_seen `{Crypto} (tc : Timechain) (b : Block) (e : Z)
    (r : result unit string) (tc' : Timechain) :
  add_block tc b e = Some (r, tc') ->
  seen_hashes tc ⊆ seen_hashes tc' /\
  (r = Ok tt -> calculate_hash b ∈ seen_hashes tc').
Proof.
  unfold add_block. intros Hadd.
  repeat (case_match; simplify_eq/=); split; try set_solver; discriminate.
Qed.

Lemma chain_steps_seen `{Crypto} (tc tc'' : Timechain) :
  chain_steps tc tc'' -> seen_hashes tc ⊆ seen_hashes tc''.
Proof.
  induction 1 as [tc|tc b e r tc' tc'' Hadd _ IH|tc tc'' _ IH].
  - reflexivity.
  - apply add_block_seen in Hadd as [Hsub _]. set_solver.
  - rewrite rebuild_state_seen in IH. exact IH.
Qed.

(** C10: two blocks that agree on parent, slot, miner, vdf_proof,
    zk_proof and nonce have the same calculate_hash whatever their
    transaction lists; hence once add_block has accepted one of them, any
    later add_block of the other (after any further add_block or
    rebuild_state calls) is rejected as a duplicate. *)
Theorem C10_calculate_hash_ignores_transactions `{Crypto} (b : Block)
    (txs : list Transaction) :
  let b' := mkBlock (parent b) (slot b) (miner b) txs (vdf_proof b)
                    (zk_proof b) (nonce b) in
  calculate_hash b' = calculate_hash b /\
  (forall tc e tc', add_block tc b e = Some (Ok tt, tc') ->
   forall tc'' e', chain_steps tc' tc'' ->
   add_block tc'' b' e' =
     Some (Err "Block already exists (Injection Attack thwarted)", tc'')).
Proof.
  intros b'. split; [reflexivity|].
  intros tc e tc' Hadd tc'' e' Hsteps.
  apply add_block_seen in Hadd as [_ Hin].
  specialize (Hin eq_refl).
  apply chain_steps_seen in Hsteps.
  unfold add_block.
  rewrite bool_decide_eq_true_2; [reflexivity|].
  change (calculate_hash b) with (calculate_hash b') in Hin. set_solver.
Qed.

Section StubRuns.
#[local] Existing Instance stub_crypto.

(** Witness of C10: with the stub primitives, the empty block at slot 1
    is accepted, and the same header carrying a transaction is then
    rejected as a duplicate. *)
Lemma C10_witness :
  add_block  chain0 (block1 [] 5) 1800 = Some (Ok tt, chain1) /\
  add_block  chain1 (block1 [tx_A0] 5) 1800 =
    Some (Err "Block already exists (Injection Attack thwarted)", chain1).
Proof.
  assert (H1 : add_block  chain0 (block1 [] 5) 1800
               = Some (Ok tt, chain1)) by (vm_compute; reflexivity).
  split; [exact H1|].
  exact (proj2 (C10_calculate_hash_ignores_transactions 
                  (block1 [] 5) [tx_A0])
               chain0 1800 chain1 H1 chain1 1800 (steps_refl chain1)).
Defined.

(* ===================================================================== *)
(* Failed add_block calls                                                *)
(* ===================================================================== *)

(** C1 (code defect): add_block rejects the block at slot 1 carrying two
    transfers from A with nonce 0 (both pass the balance-only validation
    against the pre-block state; the second fails in apply_tx), yet the
    failed call has already pushed the block, recorded its digest in
    seen_hashes, credited the reward (total_issued 0 -> 5_000_000_000)
    and applied the first transfer (nonce(A) 0 -> 1). *)
Lemma C1_partial_mutation :
  match add_block  chain0 (block1 [tx_A0; tx_A0] 5) 1800 with
  | Some (Err msg, tc') =>
      msg = "Transaction application failed" /\
      length (blocks chain0) = 1%nat /\ length (blocks tc') = 2%nat /\
      total_issued chain0 = 0 /\ total_issued tc' = 5000000000 /\
      balance (state chain0) miner_M = 0 /\
      balance (state tc') miner_M = 5000000000 /\
      state_nonce (state chain0) addr_A = 0 /\
      state_nonce (state tc') addr_A = 1 /\
      seen_hashes chain0 = ∅ /\
      bool_decide (calculate_hash  (block1 [tx_A0; tx_A0] 5)
                     ∈ seen_hashes tc') = true
  | _ => False
  end.
Proof. vm_compute. repeat split; reflexivity. Qed.

End StubRuns.

Section StubRuns2.
#[local] Existing Instance stub_crypto.

(** C3 (code defect): calculate_chain_work sums in u64 with wrap-around.
    The local chain [chain1] (genesis and a slot-1 block with nonce 5)
    has work 6. The peer chain [peer_max_nonce] has the same genesis and
    the same length, and its slot-1 block passes add_block, so it is fully
    valid. Its work is 1 + (2^64 - 1) = 2^64 > 6, but the u64 sum wraps to
    0, and validate_and_sync_chain does not adopt it. *)
Lemma C3_work_sum_wraps :
  Block_hash genesis = Block_hash (hd genesis (blocks chain1)) /\
  match Timechain_new genesis with
  | Some cand =>
      match add_all cand (tl peer_max_nonce) with
      | Some (true, cand') =>
          length (blocks cand') = length (blocks chain1) /\
          spec_chain_work cand' = 2 ^ 64 /\ spec_chain_work chain1 = 6 /\
          calculate_chain_work cand' = 0 /\ calculate_chain_work chain1 = 6
      | _ => False
      end
  | None => False
  end /\
  validate_and_sync_chain peer_max_nonce chain1 = Some None.
Proof. vm_compute. repeat split; reflexivity. Qed.

End StubRuns2.

(* ===================================================================== *)
(* Proof of work                                                         *)
(* ===================================================================== *)

Lemma from_be_bytes_acc (l : list Z) (acc : Z) :
  fold_left (fun acc b => acc * 256 + b) l acc
  = acc * 256 ^ Z.of_nat (length l) + from_be_bytes l.
Proof.
  unfold from_be_bytes. revert acc.
  induction l as [|x l IH]; intros acc; simpl.
  - lia.
  - rewrite (IH (acc * 256 + x)), (IH (0 * 256 + x)).
    rewrite Nat2Z.inj_succ, Z.pow_succ_r by lia. ring.
Qed.

Lemma from_be_bytes_app (l1 l2 : list Z) :
  from_be_bytes (l1 ++ l2)
  = from_be_bytes l1 * 256 ^ Z.of_nat (length l2) + from_be_bytes l2.
Proof.
  unfold from_be_bytes at 1. rewrite fold_left_app.
  apply from_be_bytes_acc.
Qed.

Lemma from_be_bytes_range (l : list Z) :
  Forall (fun x => 0 <= x < 256) l ->
  0 <= from_be_bytes l < 256 ^ Z.of_nat (length l).
Proof.
  induction l as [|x l IH] using rev_ind; intros Hl.
  - unfold from_be_bytes. simpl. lia.
  - apply Forall_app in Hl as [Hl Hx]. apply Forall_cons in Hx as [Hx _].
    specialize (IH Hl).
    rewrite from_be_bytes_app, length_app.
    rewrite Nat2Z.inj_add, Z.pow_add_r by lia.
    replace (from_be_bytes [x]) with x by (unfold from_be_bytes; simpl; lia).
    replace (256 ^ Z.of_nat (length [x])) with 256 by reflexivity.
    generalize dependent (256 ^ Z.of_nat (length l)). intros. nia.
Qed.

Lemma prefix_target_bound (P R d : Z) :
  0 <= d -> 0 <= P -> 0 <= R < 2 ^ 192 ->
  P < U64_MAX / Z.max d 1 ->
  P * 2 ^ 192 + R <= difficulty_to_target d.
Proof.
  intros Hd HP HR HPq. unfold difficulty_to_target, max_target.
  unfold U64_MAX in HPq.
  destruct (Z.eqb_spec d 0) as [->|Hd0].
  - rewrite Z.max_r, Z.div_1_r in HPq by lia. nia.
  - rewrite Z.max_l in HPq by lia.
    set (q := (2 ^ 64 - 1) / d) in *.
    assert (Hq : d * q <= 2 ^ 64 - 1) by (apply Z.mul_div_le; lia).
    assert (Hq2 : q * 2 ^ 192 <= (2 ^ 256 - 1) / d).
    { apply Z.div_le_lower_bound; [lia|].
      replace (2 ^ 256) with (2 ^ 64 * 2 ^ 192) by reflexivity. nia. }
    nia.
Qed.

(** C2 (amended): for every block whose Block::hash is 32 bytes and every
    u64 difficulty d, Block::meets_difficulty (the check add_block uses)
    holds iff the big-endian value of the first 8 bytes of the digest is
    strictly below (2^64 - 1) / max(d, 1); and whenever it holds, the
    256-bit rule digest <= (2^256 - 1) / d of lwma::meets_difficulty
    holds as well (the 64-bit check is the stricter one). *)
Theorem C2_meets_difficulty_amended `{Crypto} (b : Block) (d : Z)
    (Hd : 0 <= d) (Hlen : length (Block_hash b) = 32%nat)
    (Hbytes : Forall (fun x => 0 <= x < 256) (Block_hash b)) :
  (Block_meets_difficulty b d = true <->
   from_be_bytes (firstn 8 (Block_hash b)) < U64_MAX / Z.max d 1) /\
  (Block_meets_difficulty b d = true ->
   lwma_meets_difficulty (Block_hash b) d = true).
Proof.
  unfold Block_meets_difficulty. set (h := Block_hash b) in *.
  unfold meets_difficulty_digest. rewrite Hlen.
  change ((32 <? 8)%nat) with false. cbv beta iota.
  rewrite Z.ltb_lt. split; [tauto|]. intros HP.
  unfold lwma_meets_difficulty. apply Z.leb_le.
  rewrite <- (firstn_skipn 8 h), from_be_bytes_app.
  pose proof (from_be_bytes_range (skipn 8 h) (Forall_drop _ 8 h Hbytes)) as HR.
  pose proof (from_be_bytes_range (firstn 8 h) (Forall_take _ 8 h Hbytes)) as HPr.
  rewrite length_skipn, Hlen in HR |- *.
  change (256 ^ Z.of_nat (32 - 8)) with (2 ^ 192) in HR |- *.
  apply prefix_target_bound; lia.
Qed.

Section StubPow.
#[local] Existing Instance stub_crypto.

(** Witness of C2: with the stub (all-zero BLAKE3 digest) the genesis
    block meets difficulty 1000 under both checks. *)
Lemma C2_witness :
  0 <= 1000 /\ length (Block_hash genesis) = 32%nat /\
  Forall (fun x => 0 <= x < 256) (Block_hash genesis) /\
  Block_meets_difficulty genesis 1000 = true /\
  lwma_meets_difficulty (Block_hash genesis) 1000 = true.
Proof.
  assert (Hb : Forall (fun x => 0 <= x < 256) (Block_hash genesis))
    by (change (Block_hash genesis) with (repeat 0 32);
        apply List.Forall_forall; intros x Hx; apply repeat_spec in Hx; lia).
  assert (Hm : Block_meets_difficulty genesis 1000 = true) by reflexivity.
  split; [lia|]. split; [reflexivity|]. split; [exact Hb|]. split; [exact Hm|].
  exact (proj2 (C2_meets_difficulty_amended genesis 1000 ltac:(lia)
                  eq_refl Hb) Hm).
Defined.

End StubPow.

Section FFPow.
#[local] Existing Instance ff_crypto.

(** C2 fails at difficulty 1: when Block::hash is the all-0xFF digest,
    the digest equals (2^256 - 1) / 1, so the 256-bit rule accepts the
    block, but Block::meets_difficulty compares u64::MAX < u64::MAX / 1
    and rejects it. *)
Lemma C2_counterexample :
  from_be_bytes (Block_hash genesis) = (2 ^ 256 - 1) / 1 /\
  lwma_meets_difficulty (Block_hash genesis) 1 = true /\
  Block_meets_difficulty genesis 1 = false.
Proof. vm_compute. repeat split; reflexivity. Qed.

End FFPow.

(* ===================================================================== *)
(* Issuance                                                              *)
(* ===================================================================== *)

Lemma get_mining_reward_shiftr (i : Z) :
  0 <= i -> get_mining_reward i = Z.shiftr INITIAL_REWARD (i / HALVING_INTERVAL).
Proof.
  intros Hi. unfold get_mining_reward.
  destruct (Z.geb_spec (i / HALVING_INTERVAL) 64) as [Hge|]; [|reflexivity].
  rewrite Z.shiftr_div_pow2 by lia. symmetry. apply Z.div_small.
  split; [unfold INITIAL_REWARD, SMALLEST_UNIT; lia|].
  apply Z.lt_le_trans with (2 ^ 64); [unfold INITIAL_REWARD, SMALLEST_UNIT; lia|].
  apply Z.pow_le_mono_r; lia.
Qed.

Lemma shiftr_reward_nonneg (e : Z) : 0 <= Z.shiftr INITIAL_REWARD e.
Proof. apply Z.shiftr_nonneg. unfold INITIAL_REWARD, SMALLEST_UNIT. lia. Qed.

Lemma shiftr_reward_halves (e : Z) :
  0 <= e -> 2 * Z.shiftr INITIAL_REWARD (e + 1) <= Z.shiftr INITIAL_REWARD e.
Proof.
  intros He. rewrite !Z.shiftr_div_pow2 by lia.
  rewrite Z.pow_add_r, <- Z.div_div by lia.
  apply Z.mul_div_le. lia.
Qed.

Lemma get_mining_reward_nonneg (i : Z) : 0 <= i -> 0 <= get_mining_reward i.
Proof.
  intros Hi. rewrite get_mining_reward_shiftr by exact Hi.
  apply shiftr_reward_nonneg.
Qed.

(** The geometric bound: the rewards of the first n slots, plus what the
    rest of the current era and one more era of the current reward would
    pay, never exceed 2 * HALVING_INTERVAL * INITIAL_REWARD. *)
Lemma reward_prefix_bound (n : nat) :
  reward_prefix n
  + (2 * HALVING_INTERVAL - Z.of_nat n mod HALVING_INTERVAL)
    * Z.shiftr INITIAL_REWARD (Z.of_nat n / HALVING_INTERVAL)
  <= 2 * HALVING_INTERVAL * INITIAL_REWARD.
Proof.
  induction n as [|n IH].
  - apply Z.leb_le. vm_compute. reflexivity.
  - cbn [reward_prefix]. rewrite get_mining_reward_shiftr by lia.
    rewrite Nat2Z.inj_succ.
    set (I := HALVING_INTERVAL) in *.
    set (N := Z.of_nat n) in *.
    assert (HI : 0 < I) by (unfold I, HALVING_INTERVAL; lia).
    pose proof (Z.div_mod N I ltac:(lia)) as Hdm.
    pose proof (Z.mod_pos_bound N I HI) as Hr.
    assert (He : 0 <= N / I) by (apply Z.div_pos; lia).
    set (e := N / I) in *. set (r := N mod I) in *.
    pose proof (shiftr_reward_halves e He) as Hh.
    pose proof (shiftr_reward_nonneg e) as Hx0.
    pose proof (shiftr_reward_nonneg (e + 1)) as Hy0.
    set (X := Z.shiftr INITIAL_REWARD e) in *.
    set (Y := Z.shiftr INITIAL_REWARD (e + 1)) in *.
    destruct (Z.eq_dec (r + 1) I) as [Hlast|Hmid].
    + assert (Hd : Z.succ N / I = e + 1)
        by (symmetry; apply Z.div_unique with 0; lia).
      assert (Hm : Z.succ N mod I = 0)
        by (symmetry; apply Z.mod_unique with (e + 1); lia).
      rewrite Hd, Hm. fold Y. nia.
    + assert (Hd : Z.succ N / I = e)
        by (symmetry; apply Z.div_unique with (r + 1); lia).
      assert (Hm : Z.succ N mod I = r + 1)
        by (symmetry; apply Z.mod_unique with e; lia).
      rewrite Hd, Hm. fold X. nia.
Qed.

Lemma reward_prefix_le (n : nat) :
  reward_prefix n <= 2 * HALVING_INTERVAL * INITIAL_REWARD.
Proof.
  pose proof (reward_prefix_bound n) as Hb.
  pose proof (shiftr_reward_nonneg (Z.of_nat n / HALVING_INTERVAL)).
  pose proof (Z.mod_pos_bound (Z.of_nat n) HALVING_INTERVAL
                ltac:(unfold HALVING_INTERVAL; lia)).
  nia.
Qed.

Lemma credited_reward_nonneg (b : Block) : 0 <= credited_reward b.
Proof.
  unfold credited_reward.
  destruct (Z.ltb_spec 0 (get_mining_reward (slot b))); simpl; [|lia].
  destruct (negb _); lia.
Qed.

Lemma credited_reward_le (b : Block) :
  0 <= slot b -> credited_reward b <= get_mining_reward (slot b).
Proof.
  intros Hs. pose proof (get_mining_reward_nonneg _ Hs).
  unfold credited_reward.
  destruct (0 <? _); simpl; [|lia]. destruct (negb _); lia.
Qed.

Lemma issued_sum_nonneg (bs : list Block) : 0 <= issued_sum bs.
Proof.
  induction bs as [|b bs IH]; simpl; [lia|].
  pose proof (credited_reward_nonneg b). lia.
Qed.

Lemma issued_sum_snoc (bs : list Block) (b : Block) :
  issued_sum (bs ++ [b]) = issued_sum bs + credited_reward b.
Proof.
  unfold issued_sum. rewrite fold_right_app. simpl.
  induction bs as [|b' bs IH]; simpl; [lia|]. rewrite IH. lia.
Qed.

Lemma slots_ok_snoc (bs : list Block) (b : Block) :
  slots_ok (bs ++ [b]) <-> slots_ok bs /\ slot b = Z.of_nat (length bs).
Proof.
  unfold slots_ok. rewrite length_app, Nat.add_1_r, seq_S, !map_app. simpl.
  split.
  - intros Heq. apply app_inj_tail in Heq as [H1 H2]. split; congruence.
  - intros [H1 H2]. rewrite H1, H2. reflexivity.
Qed.

Lemma issued_sum_le_prefix (bs : list Block) :
  slots_ok bs -> issued_sum bs <= reward_prefix (length bs).
Proof.
  induction bs as [|b bs IH] using rev_ind; intros Hs.
  - simpl. lia.
  - apply slots_ok_snoc in Hs as [Hs Hb].
    rewrite issued_sum_snoc, length_app, Nat.add_1_r. cbn [reward_prefix].
    pose proof (credited_reward_le b ltac:(lia)). rewrite <- Hb. specialize (IH Hs).
    lia.
Qed.

Lemma issued_sum_bound (bs : list Block) :
  slots_ok bs -> 0 <= issued_sum bs <= 2 * HALVING_INTERVAL * INITIAL_REWARD.
Proof.
  intros Hs. split; [apply issued_sum_nonneg|].
  etransitivity; [apply issued_sum_le_prefix, Hs|apply reward_prefix_le].
Qed.

Lemma supply_bound :
  2 * HALVING_INTERVAL * INITIAL_REWARD <= TOTAL_SUPPLY /\ TOTAL_SUPPLY <= U64_MAX.
Proof. split; apply Z.leb_le; vm_compute; reflexivity. Qed.

(** The guarded credit of add_block and rebuild_state adds exactly the
    credited reward while no u64 overflow occurs. *)
Lemma guarded_credit (b : Block) (ti : Z) :
  0 <= ti -> ti + credited_reward b <= U64_MAX ->
  (if (0 <? get_mining_reward (slot b)) && negb (bool_decide (miner b = zeros32))
   then u64_add ti (get_mining_reward (slot b)) else ti)
  = ti + credited_reward b.
Proof.
  unfold credited_reward. intros Hti Hle.
  destruct (Z.ltb_spec 0 (get_mining_reward (slot b))); simpl in *; [|lia].
  destruct (negb _); [|lia]. apply u64_add_small. lia.
Qed.

Lemma rebuild_fold_issued `{Crypto} (bs : list Block) (st : State) (ti : Z) :
  0 <= ti -> ti + issued_sum bs <= U64_MAX ->
  snd (fold_left rebuild_step bs (st, ti)) = ti + issued_sum bs.
Proof.
  revert st ti. induction bs as [|b bs IH]; intros st ti Hti Hle.
  - simpl. lia.
  - cbn [fold_left]. pose proof (credited_reward_nonneg b). pose proof (issued_sum_nonneg bs).
    assert (Hstep : snd (rebuild_step (st, ti) b) = ti + credited_reward b).
    { rewrite <- guarded_credit by (simpl in Hle; lia).
      unfold rebuild_step, block_reward. destruct (_ && _); reflexivity. }
    destruct (rebuild_step (st, ti) b) as [st' ti'] eqn:E. simpl in Hstep.
    rewrite IH by (simpl in Hle; lia). simpl. lia.
Qed.

Lemma rebuild_state_issued `{Crypto} (tc : Timechain) :
  slots_ok (blocks tc) -> total_issued (rebuild_state tc) = issued_sum (blocks tc).
Proof.
  intros Hs. pose proof (issued_sum_bound _ Hs). pose proof supply_bound.
  unfold rebuild_state.
  pose proof (rebuild_fold_issued (blocks tc) State_new 0 ltac:(lia) ltac:(lia))
    as Hf.
  destruct (fold_left rebuild_step (blocks tc) (State_new, 0)). simpl in *. lia.
Qed.

(** What one add_block call does to the block list and total_issued:
    either nothing changes, or the block (of the next slot) is appended
    and the guarded reward is added. *)
Lemma add_block_cases `{Crypto} (tc : Timechain) (b : Block) (e : Z)
    (r : result unit string) (tc' : Timechain) :
  add_block tc b e = Some (r, tc') ->
  tc' = tc \/
  (blocks tc' = blocks tc ++ [b] /\ slot b = Z.of_nat (length (blocks tc)) /\
   total_issued tc' =
     (if (0 <? get_mining_reward (slot b))
         && negb (bool_decide (miner b = zeros32))
      then u64_add (total_issued tc) (get_mining_reward (slot b))
      else total_issued tc) /\
   exists r', apply_txs
     (if (0 <? get_mining_reward (slot b))
         && negb (bool_decide (miner b = zeros32))
      then credit (state tc) (miner b) (get_mining_reward (slot b))
      else state tc) (transactions b) = (r', state tc')).
Proof.
  intros Hadd. unfold add_block, block_reward in Hadd.
  repeat (case_match; simplify_eq/=; try (left; reflexivity)).
  all: match goal with
       | Hs : negb (slot _ =? _) = false |- _ =>
           apply negb_false_iff, Z.eqb_eq in Hs
       end.
  all: right; split_and!; try assumption; eexists; eassumption.
Qed.

(** The credit guard of the code, in terms of [credited_reward]. *)
Lemma credited_reward_guard (b : Block) (st : State) :
  (if (0 <? get_mining_reward (slot b)) && negb (bool_decide (miner b = zeros32))
   then credit st (miner b) (get_mining_reward (slot b)) else st)
  = (if bool_decide (credited_reward b = 0) then st
     else credit st (miner b) (credited_reward b)).
Proof.
  unfold credited_reward.
  destruct (Z.ltb_spec 0 (get_mining_reward (slot b)));
    destruct (bool_decide (miner b = zeros32)); simpl;
    try case_bool_decide; first [reflexivity | lia].
Qed.

Lemma credited_reward_miner (b : Block) :
  credited_reward b <> 0 ->
  miner b <> zeros32 /\ credited_reward b = get_mining_reward (slot b).
Proof.
  unfold credited_reward.
  destruct (0 <? get_mining_reward (slot b)); simpl; [|lia].
  case_bool_decide; simpl; [lia|]. auto.
Qed.

Lemma rebuild_state_blocks `{Crypto} (tc : Timechain) :
  blocks (rebuild_state tc) = blocks tc.
Proof. unfold rebuild_state. destruct (fold_left _ _ _). reflexivity. Qed.

Lemma issuance_inv_rebuild `{Crypto} (tc : Timechain) :
  issuance_inv tc -> issuance_inv (rebuild_state tc).
Proof.
  intros [Hs _]. unfold issuance_inv. rewrite rebuild_state_blocks. split.
  - exact Hs.
  - apply rebuild_state_issued, Hs.
Qed.

Lemma issuance_inv_add_block `{Crypto} (tc : Timechain) (b : Block) (e : Z)
    (r : result unit string) (tc' : Timechain) :
  issuance_inv tc -> add_block tc b e = Some (r, tc') ->
  issuance_inv tc' /\
  (tc' = tc \/
   (blocks tc' = blocks tc ++ [b] /\
    total_issued tc' = total_issued tc + credited_reward b /\
    total_issued tc + credited_reward b <= TOTAL_SUPPLY)).
Proof.
  intros [Hs Hti] Hadd.
  destruct (add_block_cases tc b e r tc' Hadd) as [->|(Hb & Hslot & Hti' & _)].
  - split; [split; assumption|left; reflexivity].
  - assert (Hs' : slots_ok (blocks tc ++ [b]))
      by (apply slots_ok_snoc; split; assumption).
    pose proof (issued_sum_bound _ Hs') as Hbd.
    rewrite issued_sum_snoc in Hbd.
    pose proof (issued_sum_nonneg (blocks tc)). pose proof supply_bound.
    rewrite guarded_credit in Hti' by lia.
    split; [split|right; split_and!].
    + rewrite Hb. exact Hs'.
    + rewrite Hb, issued_sum_snoc. lia.
    + exact Hb.
    + exact Hti'.
    + lia.
Qed.

Lemma issuance_inv_steps `{Crypto} (tc tc'' : Timechain) :
  chain_steps tc tc'' -> issuance_inv tc -> issuance_inv tc''.
Proof.
  induction 1 as [tc|tc b e r tc' tc'' Hadd Hst IH|tc tc'' Hst IH]; intros Hinv.
  - exact Hinv.
  - apply IH. eapply issuance_inv_add_block; eassumption.
  - apply IH. apply issuance_inv_rebuild, Hinv.
Qed.

Lemma issuance_inv_new `{Crypto} (tc0 : Timechain) :
  Timechain_new genesis = Some tc0 -> issuance_inv tc0.
Proof.
  unfold Timechain_new. case_bool_decide; intros Heq; simplify_eq.
  apply issuance_inv_rebuild. split; reflexivity.
Qed.

(** C4: for every chain reached from Timechain::new(genesis()) by any
    sequence of add_block calls (accepted ones, and also rejected ones,
    which may have changed the chain) and rebuild_state calls:
    total_issued is the sum of block_reward(slot) over exactly the blocks
    whose miner is nonzero and whose reward is positive
    ([credited_reward]); it never exceeds TOTAL_SUPPLY; rebuild_state
    recomputes the same value; and a further add_block call either leaves
    the chain as it was or appends the block, adding its credited reward
    to total_issued, with total_issued + reward <= TOTAL_SUPPLY. The
    state is credited exactly when that reward is nonzero, which needs a
    nonzero miner; the transactions are then applied to the credited
    state. The code does not test the supply bound itself: the bound
    follows from the slots being 0, 1, 2, ... and the halving schedule. *)
Theorem C4_issuance_invariant `{Crypto} (tc0 tc : Timechain)
    (H0 : Timechain_new genesis = Some tc0) (Hsteps : chain_steps tc0 tc) :
  total_issued tc = issued_sum (blocks tc) /\
  total_issued tc <= TOTAL_SUPPLY /\
  total_issued (rebuild_state tc) = total_issued tc /\
  (forall b e r tc', add_block tc b e = Some (r, tc') ->
   tc' = tc \/
   (blocks tc' = blocks tc ++ [b] /\
    total_issued tc' = total_issued tc + credited_reward b /\
    total_issued tc + credited_reward b <= TOTAL_SUPPLY /\
    (credited_reward b <> 0 ->
     miner b <> zeros32 /\
     credited_reward b = block_reward (slot b) (total_issued tc)) /\
    exists r', apply_txs
      (if bool_decide (credited_reward b = 0) then state tc
       else credit (state tc) (miner b) (credited_reward b))
      (transactions b) = (r', state tc'))).
Proof.
  pose proof (issuance_inv_steps _ _ Hsteps (issuance_inv_new _ H0)) as Hinv.
  destruct Hinv as [Hsl Hti] eqn:EHinv.
  pose proof (issued_sum_bound _ Hsl). pose proof supply_bound.
  split_and!.
  - exact Hti.
  - lia.
  - rewrite rebuild_state_issued by exact Hsl. lia.
  - intros b e r tc' Hadd.
    destruct (issuance_inv_add_block tc b e r tc' Hinv Hadd)
      as [_ [->|(Hb & Hti' & Hle)]]; [left; reflexivity|right].
    destruct (add_block_cases tc b e r tc' Hadd)
      as [->|(_ & _ & _ & r' & Happ)].
    + apply (f_equal length) in Hb. rewrite length_app in Hb. simpl in Hb. lia.
    + rewrite credited_reward_guard in Happ.
      split_and!; try assumption; [|eauto].
      intros Hne. apply credited_reward_miner in Hne as [Hm Hr].
      split; [exact Hm|]. rewrite Hr. reflexivity.
Qed.

Section StubIssuance.
#[local] Existing Instance stub_crypto.

(** Witness of C4: with the stub primitives, Timechain::new(genesis())
    succeeds and then accepts the slot-1 block mined by M; the invariant
    holds for the resulting chain (total_issued = 5_000_000_000). *)
Lemma C4_witness :
  Timechain_new genesis = Some chain0 /\ chain_steps chain0 chain1 /\
  total_issued chain1 = issued_sum (blocks chain1) /\
  total_issued chain1 <= TOTAL_SUPPLY /\
  total_issued chain1 = 5000000000.
Proof.
  assert (H0 : Timechain_new genesis = Some chain0) by (vm_compute; reflexivity).
  assert (H1 : add_block chain0 (block1 [] 5) 1800 = Some (Ok tt, chain1))
    by (vm_compute; reflexivity).
  assert (Hs : chain_steps chain0 chain1)
    by (eapply steps_add; [exact H1|apply steps_refl]).
  destruct (C4_issuance_invariant chain0 chain1 H0 Hs) as (Ha & Hb & _).
  split; [exact H0|]. split; [exact Hs|]. split; [exact Ha|].
  split; [exact Hb|]. vm_compute. reflexivity.
Defined.

End StubIssuance.

(* ===================================================================== *)
(* Mempool                                                               *)
(* ===================================================================== *)

Lemma add_ok_nullifier `{Crypto} (set_first : gset (list Z) -> option (list Z))
    (mp mp1 : Mempool) (tx : Transaction) :
  add set_first mp tx = (Ok tt, mp1) -> tx_nullifier tx ∈ nullifiers mp1.
Proof.
  unfold add. intros Hadd.
  repeat (case_match; simplify_eq/=); set_solver.
Qed.

(** C9 (amended): for every pool and every two transactions with the same
    (from, nonce): adding the first succeeds when its bincode size is
    within max_tx_size, its digest is not in the pool, its nullifier is
    unused and the pool is not full; and once it has been added, any add
    of the second fails and leaves the pool unchanged, with NullifierUsed
    whenever the second is within max_tx_size and its digest is not in
    the pool (otherwise TransactionTooLarge or DuplicateTransaction,
    which are checked first). *)
Theorem C9_first_wins `{Crypto} (set_first : gset (list Z) -> option (list Z))
    (mp : Mempool) (tx1 tx2 : Transaction)
    (Hfrom : from tx1 = from tx2) (Hnonce : tx_nonce tx1 = tx_nonce tx2) :
  (Z.of_nat (length (bincode_tx tx1)) <= max_tx_size mp ->
   pool_transactions mp !! tx_hash tx1 = None ->
   tx_nullifier tx1 ∉ nullifiers mp ->
   pool_len mp < max_size mp ->
   add set_first mp tx1
   = (Ok tt, insert_indexes mp tx1 (tx_hash tx1) (tx_nullifier tx1))) /\
  (forall mp1, add set_first mp tx1 = (Ok tt, mp1) ->
   exists e, add set_first mp1 tx2 = (Err e, mp1) /\
   (Z.of_nat (length (bincode_tx tx2)) <= max_tx_size mp1 ->
    pool_transactions mp1 !! tx_hash tx2 = None -> e = NullifierUsed)).
Proof.
  split.
  - intros Hsize Hhash Hnul Hlen. unfold pool_len in Hlen. unfold add.
    destruct (Z.gtb_spec (Z.of_nat (length (bincode_tx tx1))) (max_tx_size mp));
      [lia|].
    rewrite Hhash. rewrite bool_decide_eq_false_2 by (intros [? ?]; discriminate).
    rewrite bool_decide_eq_false_2 by exact Hnul.
    destruct (Z.geb_spec (Z.of_nat (size (pool_transactions mp))) (max_size mp));
      [lia|]. reflexivity.
  - intros mp1 Hadd. apply add_ok_nullifier in Hadd.
    assert (Hn : tx_nullifier tx2 = tx_nullifier tx1)
      by (unfold tx_nullifier; rewrite Hfrom, Hnonce; reflexivity).
    unfold add.
    destruct (Z.gtb_spec (Z.of_nat (length (bincode_tx tx2))) (max_tx_size mp1)).
    { eexists; split; [reflexivity|]. lia. }
    case_bool_decide as Hdup.
    { eexists; split; [reflexivity|]. intros _ Hnone.
      rewrite Hnone in Hdup. destruct Hdup; discriminate. }
    rewrite Hn, bool_decide_eq_true_2 by exact Hadd.
    eexists; split; [reflexivity|]. auto.
Qed.

Section StubMempool.
#[local] Existing Instance stub_crypto.

(** Witness of C9, scenario S3: tx1{from=A, nonce=5, fee=10} is accepted
    into the empty pool and tx2{from=A, nonce=5, fee=20} is then rejected
    with NullifierUsed, the pool unchanged. *)
Lemma C9_witness :
  add stub_set_first S3_pool S3_tx1 = (Ok tt, S3_pool1) /\
  add stub_set_first S3_pool1 S3_tx2 = (Err NullifierUsed, S3_pool1).
Proof.
  destruct (C9_first_wins stub_set_first S3_pool S3_tx1 S3_tx2 eq_refl eq_refl)
    as [H1 H2].
  assert (Hins : insert_indexes S3_pool S3_tx1 (tx_hash S3_tx1)
                   (tx_nullifier S3_tx1) = S3_pool1)
    by (vm_compute; reflexivity).
  assert (Hadd : add stub_set_first S3_pool S3_tx1 = (Ok tt, S3_pool1)).
  { rewrite <- Hins. apply H1.
    - vm_compute. discriminate.
    - vm_compute. reflexivity.
    - change (nullifiers S3_pool) with (∅ : gset (list Z)).
      apply not_elem_of_empty.
    - apply Z.ltb_lt. vm_compute. reflexivity. }
  split; [exact Hadd|].
  destruct (H2 S3_pool1 Hadd) as (e & He & Hnul).
  rewrite Hnul in He.
  - exact He.
  - vm_compute. discriminate.
  - vm_compute. reflexivity.
Defined.

(** C9 fails for a second transaction that is too large: tx1 is accepted
    into a pool whose size limit is 200 bytes, and tx2 with the same
    (from, nonce) but a 200-byte proof is rejected with
    TransactionTooLarge, not NullifierUsed. *)
Lemma C9_counterexample :
  match add stub_set_first small_pool S3_tx1 with
  | (Ok _, p1) =>
      add stub_set_first p1 S3_tx2_big = (Err (TransactionTooLarge 304 200), p1)
  | (Err _, _) => False
  end.
Proof. vm_compute. reflexivity. Qed.

End StubMempool.

(** `by_fee.iter().next()`: the least key of the map, [None] only for the
    empty map. *)
Lemma btree_first_key_spec {A} (m : gmap Z A) :
  match btree_first_key m with
  | None => m = ∅
  | Some k => is_Some (m !! k) /\ forall k' v, m !! k' = Some v -> k <= k'
  end.
Proof.
  unfold btree_first_key.
  assert (Hl : forall l : list (Z * A),
    match fold_right (fun kv acc =>
                        match acc with
                        | None => Some kv.1
                        | Some k => Some (Z.min kv.1 k)
                        end) None l with
    | None => l = []
    | Some k => (exists v, (k, v) ∈ l) /\
                forall k' v, (k', v) ∈ l -> k <= k'
    end).
  { induction l as [|[k v] l IH]; simpl; [reflexivity|].
    destruct (fold_right _ None l) as [k0|]; simpl.
    - destruct IH as [[v0 Hv0] Hmin]. split.
      + destruct (Z.min_spec k k0) as [[_ ->]|[_ ->]].
        * exists v. apply elem_of_cons. left. reflexivity.
        * exists v0. apply elem_of_cons. right. exact Hv0.
      + intros k' v' Hin. apply elem_of_cons in Hin as [Heq|Hin].
        * injection Heq as -> ->. lia.
        * specialize (Hmin k' v' Hin). lia.
    - subst l. split.
      + exists v. apply list_elem_of_singleton. reflexivity.
      + intros k' v' Hin. apply list_elem_of_singleton in Hin.
        injection Hin as -> ->. lia. }
  specialize (Hl (map_to_list m)).
  destruct (fold_right _ None (map_to_list m)) as [k|].
  - destruct Hl as [[v Hv] Hmin]. split.
    + exists v. apply elem_of_map_to_list. exact Hv.
    + intros k' v' Hk'. apply (Hmin k' v'). apply elem_of_map_to_list. exact Hk'.
  - apply map_to_list_empty_iff. exact Hl.
Qed.

Lemma stub_set_first_elem (s : gset (list Z)) (h : list Z) :
  stub_set_first s = Some h -> h ∈ s.
Proof.
  unfold stub_set_first. destruct (elements s) as [|x l] eqn:E; simpl;
    intros Hh; [discriminate|]. injection Hh as ->.
  apply elem_of_elements. rewrite E. apply elem_of_cons. left. reflexivity.
Qed.

Lemma stub_set_first_nonempty (s : gset (list Z)) :
  s ≠ ∅ -> stub_set_first s ≠ None.
Proof.
  unfold stub_set_first. destruct (elements s) as [|x l] eqn:E; simpl;
    [|discriminate]. intros Hne _. apply Hne.
  apply elements_empty_iff in E. apply leibniz_equiv. exact E.
Qed.

(** C8 (amended): let the pool be consistent ([pool_wf]) and full
    (len = max_size >= 1). Let tx be an admissible newcomer: within
    max_tx_size, with a digest not in the pool and an unused nullifier.
    Let [lowest] be the least fee in the pool. If fee(tx) <= lowest, add
    fails with FeeTooLow{min = lowest + 1, actual = fee(tx)} and leaves
    the pool unchanged. Otherwise it succeeds, and it evicts exactly one
    transaction, one of fee [lowest], before inserting tx, so the pool
    keeps its size. [set_first] is any HashSet::iter().next() that
    returns an element of a non-empty set. *)
Theorem C8_full_pool_eviction `{Crypto}
    (set_first : gset (list Z) -> option (list Z))
    (Hsf_in : forall s h, set_first s = Some h -> h ∈ s)
    (Hsf_some : forall s, s ≠ ∅ -> set_first s ≠ None)
    (mp : Mempool) (tx : Transaction)
    (Hwf : pool_wf mp) (Hfull : pool_len mp = max_size mp)
    (Hcap : 1 <= max_size mp)
    (Hsize : Z.of_nat (length (bincode_tx tx)) <= max_tx_size mp)
    (Hnew : pool_transactions mp !! tx_hash tx = None)
    (Hnul : tx_nullifier tx ∉ nullifiers mp) :
  exists lowest,
    (exists h t, pool_transactions mp !! h = Some t /\ fee t = lowest) /\
    (forall h t, pool_transactions mp !! h = Some t -> lowest <= fee t) /\
    (fee tx <= lowest ->
     add set_first mp tx = (Err (FeeTooLow (u64_add lowest 1) (fee tx)), mp)) /\
    (lowest < fee tx ->
     exists h t mp1,
       pool_transactions mp !! h = Some t /\ fee t = lowest /\
       add set_first mp tx = (Ok tt, mp1) /\
       pool_transactions mp1
         = <[tx_hash tx := tx]> (delete h (pool_transactions mp)) /\
       pool_len mp1 = pool_len mp).
Proof.
  destruct Hwf as [Hbf Htx]. unfold pool_len in *.
  assert (Hne : size (pool_transactions mp) ≠ 0%nat) by lia.
  apply map_size_ne_0_lookup in Hne as [h0 [t0 Ht0]].
  pose proof (map_Forall_lookup_1 _ _ _ _ Htx Ht0) as Hh0. simpl in Hh0.
  destruct (by_fee mp !! fee t0) as [hs0|] eqn:Ehs0; simpl in Hh0;
    [|set_solver].
  pose proof (btree_first_key_spec (by_fee mp)) as Hbk.
  destruct (btree_first_key (by_fee mp)) as [lowest|] eqn:Elow;
    [|rewrite Hbk, lookup_empty in Ehs0; discriminate].
  destruct Hbk as [[hs Ehs] Hmin].
  destruct (map_Forall_lookup_1 _ _ _ _ Hbf Ehs) as [Hhs_ne Hhs_all].
  destruct (set_first hs) as [h|] eqn:Eh;
    [|exfalso; exact (Hsf_some hs Hhs_ne Eh)].
  pose proof (Hhs_all h (Hsf_in hs h Eh)) as Hfee_h. cbv beta in Hfee_h.
  destruct (pool_transactions mp !! h) as [t|] eqn:Et;
    [|inversion Hfee_h].
  assert (Hft : fee t = lowest) by (inversion Hfee_h; reflexivity).
  assert (Hdecide :
    add set_first mp tx =
      if fee tx <=? lowest
      then (Err (FeeTooLow (u64_add lowest 1) (fee tx)), mp)
      else (Ok tt, insert_indexes (evict_lowest_fee set_first mp) tx
                                  (tx_hash tx) (tx_nullifier tx))).
  { unfold add.
    destruct (Z.gtb_spec (Z.of_nat (length (bincode_tx tx))) (max_tx_size mp));
      [lia|].
    rewrite Hnew, bool_decide_eq_false_2 by (intros [? ?]; discriminate).
    rewrite bool_decide_eq_false_2 by exact Hnul.
    rewrite Hfull, Z.geb_leb, Z.leb_refl, Elow.
    destruct (fee tx <=? lowest); reflexivity. }
  assert (Hev : evict_lowest_fee set_first mp = snd (remove mp h))
    by (unfold evict_lowest_fee; rewrite Elow, Ehs, Eh; reflexivity).
  assert (Hrm : pool_transactions (snd (remove mp h))
                = delete h (pool_transactions mp))
    by (unfold remove; rewrite Et; reflexivity).
  exists lowest. split_and!.
  - exists h, t. split; assumption.
  - intros h' t' Ht'.
    pose proof (map_Forall_lookup_1 _ _ _ _ Htx Ht') as Hin. simpl in Hin.
    destruct (by_fee mp !! fee t') as [hs'|] eqn:E'; simpl in Hin; [|set_solver].
    exact (Hmin _ hs' E').
  - intros Hle. rewrite Hdecide.
    destruct (Z.leb_spec (fee tx) lowest); [reflexivity|lia].
  - intros Hlt. exists h, t.
    exists (insert_indexes (evict_lowest_fee set_first mp) tx (tx_hash tx)
                           (tx_nullifier tx)).
    split_and!; [exact Et|exact Hft| | |].
    + rewrite Hdecide. destruct (Z.leb_spec (fee tx) lowest); [lia|reflexivity].
    + simpl. rewrite Hev, Hrm. reflexivity.
    + simpl. rewrite Hev, Hrm.
      rewrite map_size_insert_None
        by (apply lookup_delete_None; right; exact Hnew).
      rewrite map_size_delete_Some by (exists t; exact Et).
      assert (size (pool_transactions mp) ≠ 0%nat)
        by (apply map_size_ne_0_lookup_2 with h; exists t; exact Et).
      lia.
Qed.

Section StubEviction.
#[local] Existing Instance stub_crypto.

Lemma S4_pool2_wf : pool_wf S4_pool2.
Proof. unfold pool_wf. apply (bool_decide_unpack _). vm_compute. reflexivity. Qed.

Lemma S4_pool3_wf : pool_wf S4_pool3.
Proof. unfold pool_wf. apply (bool_decide_unpack _). vm_compute. reflexivity. Qed.

(** Witness of C8, scenario S4: the capacity-2 pool holding fees {5, 10}
    accepts tx{fee=15} by evicting the fee-5 transaction, leaving fees
    {10, 15} and two transactions; a following tx{fee=3} is rejected
    with FeeTooLow{min = 11, actual = 3} and the pool is unchanged. *)
Lemma C8_witness :
  pool_fees S4_pool2 = [5; 10] /\
  add stub_set_first S4_pool2 S4_tx15 = (Ok tt, S4_pool3) /\
  pool_fees S4_pool3 = [10; 15] /\ pool_len S4_pool3 = 2 /\
  add stub_set_first S4_pool3 S4_tx3 = (Err (FeeTooLow 11 3), S4_pool3).
Proof.
  (* tx{fee=15} on the pool {5, 10} *)
  destruct (C8_full_pool_eviction stub_set_first stub_set_first_elem
              stub_set_first_nonempty S4_pool2 S4_tx15 S4_pool2_wf
              ltac:(vm_compute; reflexivity) ltac:(vm_compute; discriminate)
              ltac:(vm_compute; discriminate) ltac:(vm_compute; reflexivity)
              ltac:(apply (bool_decide_unpack _); vm_compute; reflexivity))
    as (low1 & (h1 & t1 & Ht1 & Hft1) & Hmin1 & _ & Hhigh1).
  assert (Hge1 : map_Forall (fun _ t => 5 <= fee t) (pool_transactions S4_pool2))
    by (apply (bool_decide_unpack _); vm_compute; reflexivity).
  pose proof (map_Forall_lookup_1 _ _ _ _ Hge1 Ht1) as Hl1. simpl in Hl1.
  pose proof (Hmin1 (@tx_hash stub_crypto S4_tx5) S4_tx5 ltac:(vm_compute; reflexivity)) as Hu1.
  simpl in Hu1.
  destruct (Hhigh1 ltac:(simpl; lia)) as (h & t & mp1 & _ & _ & Hadd1 & _ & Hlen1).
  assert (Hc1 : add stub_set_first S4_pool2 S4_tx15 = (Ok tt, S4_pool3))
    by (vm_compute; reflexivity).
  rewrite Hc1 in Hadd1. injection Hadd1 as <-.
  (* tx{fee=3} on the pool {10, 15} *)
  destruct (C8_full_pool_eviction stub_set_first stub_set_first_elem
              stub_set_first_nonempty S4_pool3 S4_tx3 S4_pool3_wf
              ltac:(vm_compute; reflexivity) ltac:(vm_compute; discriminate)
              ltac:(vm_compute; discriminate) ltac:(vm_compute; reflexivity)
              ltac:(apply (bool_decide_unpack _); vm_compute; reflexivity))
    as (low2 & (h2 & t2 & Ht2 & Hft2) & Hmin2 & Hlow2 & _).
  assert (Hge2 : map_Forall (fun _ t => 10 <= fee t) (pool_transactions S4_pool3))
    by (apply (bool_decide_unpack _); vm_compute; reflexivity).
  pose proof (map_Forall_lookup_1 _ _ _ _ Hge2 Ht2) as Hl2. simpl in Hl2.
  pose proof (Hmin2 (@tx_hash stub_crypto S4_tx10) S4_tx10 ltac:(vm_compute; reflexivity)) as Hu2.
  simpl in Hu2.
  split; [vm_compute; reflexivity|]. split; [exact Hc1|].
  split; [vm_compute; reflexivity|]. split.
  - rewrite Hlen1. vm_compute. reflexivity.
  - rewrite (Hlow2 ltac:(simpl; lia)). repeat f_equal.
    unfold u64_add. rewrite Z.mod_small; lia.
Defined.

(** C8 fails for a replayed (from, nonce): on the full pool {5, 10}, a
    fee-15 transaction reusing the nullifier of the fee-5 one is rejected
    with NullifierUsed; nothing is evicted although its fee exceeds the
    lowest fee. *)
Lemma C8_counterexample :
  pool_len S4_pool2 = max_size S4_pool2 /\
  fee S4_tx15_replay = 15 /\
  add stub_set_first S4_pool2 S4_tx15_replay = (Err NullifierUsed, S4_pool2).
Proof. vm_compute. repeat split; reflexivity. Qed.

End StubEviction.

(* ===================================================================== *)
(* LWMA on a constant-interval history                                   *)
(* ===================================================================== *)

Lemma rne_div_scale (num den c : Z) :
  0 < den -> 0 < c -> rne_div (num * c) (den * c) = rne_div num den.
Proof.
  intros Hd Hc. unfold rne_div.
  rewrite Z.div_mul_cancel_r, Z.mul_mod_distr_r by lia.
  set (r := num mod den).
  replace (den * c <? 2 * (r * c)) with (den <? 2 * r)
    by (apply Bool.eq_iff_eq_true; rewrite !Z.ltb_lt; split; intro; nia).
  replace (2 * (r * c) =? den * c) with (2 * r =? den)
    by (apply Bool.eq_iff_eq_true; rewrite !Z.eqb_eq; split; intro; nia).
  reflexivity.
Qed.

Lemma rne_div_1 (x : Z) : rne_div x 1 = x.
Proof. unfold rne_div. rewrite Z.div_1_r, Z.mod_1_r. reflexivity. Qed.

Lemma rne_div_bound (num den : Z) :
  0 < den ->
  num / den <= rne_div num den <= num / den + 1 /\
  2 * Z.abs (rne_div num den * den - num) <= den.
Proof.
  intros Hd. unfold rne_div.
  pose proof (Z.div_mod num den ltac:(lia)) as Hdm.
  pose proof (Z.mod_pos_bound num den Hd) as Hr.
  set (m0 := num / den) in *. set (r := num mod den) in *.
  destruct (Z.ltb_spec den (2 * r)); simpl.
  - split; [lia|]. nia.
  - destruct (Z.eqb_spec (2 * r) den); simpl.
    + destruct (Z.odd m0); simpl; (split; [lia|]); nia.
    + split; [lia|]. nia.
Qed.

Lemma ge_pow2_log2_scale (N k : Z) :
  0 < N -> 0 <= k -> ge_pow2 (N * 2 ^ k) (2 ^ k) (Z.log2 N) = true.
Proof.
  intros HN Hk. unfold ge_pow2.
  pose proof (Z.log2_nonneg N). pose proof (Z.log2_spec N HN).
  destruct (Z.leb_spec 0 (Z.log2 N)); [|lia].
  apply Z.leb_le. assert (0 < 2 ^ k) by (apply Z.pow_pos_nonneg; lia). nia.
Qed.

(** Rounding the integer [N] written as [N * 2^k / 2^k]. *)
Lemma f64_round_int_scale (N k : Z) :
  0 < N -> 0 <= k -> f64_round (N * 2 ^ k) (2 ^ k) = f64_round N 1.
Proof.
  intros HN Hk. assert (Hpk : 0 < 2 ^ k) by (apply Z.pow_pos_nonneg; lia).
  unfold f64_round.
  destruct (Z.leb_spec (N * 2 ^ k) 0); [nia|].
  destruct (Z.leb_spec N 0); [lia|].
  rewrite Z.log2_mul_pow2, Z.log2_pow2, Z.log2_1 by lia.
  replace (k + Z.log2 N - k) with (Z.log2 N) by ring.
  replace (Z.log2 N - 0) with (Z.log2 N) by ring.
  rewrite ge_pow2_log2_scale by lia.
  pose proof (ge_pow2_log2_scale N 0 HN ltac:(lia)) as G.
  rewrite Z.pow_0_r, Z.mul_1_r in G. rewrite G.
  set (e := Z.max (Z.log2 N - 52) (-1074)).
  destruct (Z.leb_spec 0 e).
  - replace (2 ^ k * 2 ^ e) with (2 ^ e * 2 ^ k) by ring.
    rewrite rne_div_scale by (try apply Z.pow_pos_nonneg; lia).
    rewrite Z.mul_1_l. reflexivity.
  - replace (N * 2 ^ k * 2 ^ (- e)) with (N * 2 ^ (- e) * 2 ^ k) by ring.
    replace (rne_div (N * 2 ^ (- e) * 2 ^ k) (2 ^ k))
      with (rne_div (N * 2 ^ (- e)) 1); [reflexivity|].
    rewrite <- (rne_div_scale _ 1 (2 ^ k)) by lia. now rewrite Z.mul_1_l.
Qed.

Lemma ge_pow2_log2 (N : Z) : 0 < N -> ge_pow2 N 1 (Z.log2 N) = true.
Proof.
  intros HN. pose proof (ge_pow2_log2_scale N 0 HN ltac:(lia)) as G.
  now rewrite Z.pow_0_r, Z.mul_1_r in G.
Qed.

(** Integers below 2^53 are rounded exactly. *)
Lemma f64_round_int_small (N : Z) :
  0 < N < 2 ^ 53 ->
  f64_round N 1 = F64 (N * 2 ^ (52 - Z.log2 N)) (Z.log2 N - 52).
Proof.
  intros HN. unfold f64_round.
  destruct (Z.leb_spec N 0); [lia|].
  rewrite Z.log2_1, Z.sub_0_r, ge_pow2_log2 by lia.
  assert (Hl : 0 <= Z.log2 N < 53)
    by (split; [apply Z.log2_nonneg | apply Z.log2_lt_pow2; lia]).
  replace (Z.max (Z.log2 N - 52) (-1074)) with (Z.log2 N - 52) by lia.
  destruct (Z.leb_spec 0 (Z.log2 N - 52)).
  - replace (Z.log2 N - 52) with 0 by lia.
    replace (52 - Z.log2 N) with 0 by lia.
    rewrite Z.pow_0_r, !Z.mul_1_r, rne_div_1.
    destruct (Z.leb_spec 1024 (0 + Z.log2 N)); [lia|reflexivity].
  - rewrite rne_div_1. replace (- (Z.log2 N - 52)) with (52 - Z.log2 N) by ring.
    rewrite Z.log2_mul_pow2 by lia.
    destruct (Z.leb_spec 1024 (Z.log2 N - 52 + (52 - Z.log2 N + Z.log2 N)));
      [lia|reflexivity].
Qed.

(** Integers from 2^53 on: the mantissa is the nearest integer to
    [N / 2^e] with [e = log2 N - 52]. *)
Lemma f64_round_int_large (N : Z) :
  2 ^ 53 <= N < 2 ^ 1000 ->
  exists m, f64_round N 1 = F64 m (Z.log2 N - 52) /\
    2 ^ 52 <= m <= 2 ^ 53 /\
    2 * Z.abs (m * 2 ^ (Z.log2 N - 52) - N) <= 2 ^ (Z.log2 N - 52).
Proof.
  intros HN. assert (HN0 : 0 < N) by lia.
  pose proof (Z.log2_spec N HN0) as Hsp.
  assert (Hl : 53 <= Z.log2 N < 1000).
  { split.
    - rewrite <- (Z.log2_pow2 53) by lia. apply Z.log2_le_mono; lia.
    - apply Z.log2_lt_pow2; lia. }
  set (l := Z.log2 N) in *. set (e := l - 52).
  assert (Hpe : 0 < 2 ^ e) by (apply Z.pow_pos_nonneg; lia).
  assert (Hpl : 2 ^ l = 2 ^ e * 2 ^ 52)
    by (unfold e; rewrite <- Z.pow_add_r by lia; f_equal; ring).
  assert (Hpl1 : 2 ^ Z.succ l = 2 ^ e * 2 ^ 53)
    by (unfold e; rewrite <- Z.pow_add_r by lia; f_equal; ring).
  unfold f64_round.
  destruct (Z.leb_spec N 0); [lia|].
  rewrite Z.log2_1, Z.sub_0_r, ge_pow2_log2 by lia. fold l.
  replace (Z.max (l - 52) (-1074)) with e by (unfold e; lia).
  destruct (Z.leb_spec 0 e); [|unfold e in *; lia].
  rewrite Z.mul_1_l.
  pose proof (rne_div_bound N (2 ^ e) Hpe) as [Hm Herr].
  set (m := rne_div N (2 ^ e)) in *.
  assert (Hlo : 2 ^ 52 <= N / 2 ^ e)
    by (apply Z.div_le_lower_bound; lia).
  assert (Hhi : N / 2 ^ e < 2 ^ 53)
    by (apply Z.div_lt_upper_bound; lia).
  assert (Hlm : Z.log2 m <= 53).
  { rewrite <- (Z.log2_pow2 53) by lia. apply Z.log2_le_mono; lia. }
  destruct (Z.leb_spec 1024 (e + Z.log2 m)); [unfold e in *; lia|].
  exists m. split; [reflexivity|]. split; [lia|]. exact Herr.
Qed.

Lemma f64_round_int_err (N : Z) :
  2 ^ 53 <= N < 2 ^ 1000 ->
  exists m e, f64_round N 1 = F64 m e /\ 0 < m /\ 1 <= e /\
    2 ^ 53 <= m * 2 ^ e /\ 2 ^ 53 * Z.abs (m * 2 ^ e - N) <= N.
Proof.
  intros HN. destruct (f64_round_int_large N HN) as (m & Hr & Hm & Herr).
  assert (HN0 : 0 < N) by lia.
  pose proof (Z.log2_spec N HN0) as Hsp.
  assert (Hl : 53 <= Z.log2 N).
  { rewrite <- (Z.log2_pow2 53) by lia. apply Z.log2_le_mono; lia. }
  set (l := Z.log2 N) in *.
  assert (Hpl : 2 ^ l = 2 ^ 52 * 2 ^ (l - 52))
    by (rewrite <- Z.pow_add_r by lia; f_equal; ring).
  assert (Hpe : 2 <= 2 ^ (l - 52)).
  { change 2 with (2 ^ 1) at 1. apply Z.pow_le_mono_r; lia. }
  exists m, (l - 52). split; [exact Hr|]. split; [lia|]. split; [lia|].
  split; nia.
Qed.

Lemma f64_num_one : f64_num (2 ^ 52) (-52) = 2 ^ 52.
Proof. reflexivity. Qed.

Lemma f64_den_one : f64_den (-52) = 2 ^ 52.
Proof. reflexivity. Qed.

(** Multiplying by 1.0 (mantissa 2^52, exponent -52). *)
Lemma f64_mul_one_pos (m e : Z) :
  0 < m -> 0 <= e ->
  f64_mul (F64 m e) (F64 (2 ^ 52) (-52)) = f64_round (m * 2 ^ e) 1.
Proof.
  intros Hm He. unfold f64_mul. rewrite f64_num_one, f64_den_one.
  unfold f64_num, f64_den. destruct (Z.leb_spec 0 e); [|lia].
  rewrite Z.mul_1_l. apply f64_round_int_scale; [|lia].
  assert (0 < 2 ^ e) by (apply Z.pow_pos_nonneg; lia). nia.
Qed.

Lemma f64_mul_one_small (N : Z) :
  0 < N < 2 ^ 53 ->
  f64_mul (f64_round N 1) (F64 (2 ^ 52) (-52)) = f64_round N 1.
Proof.
  intros HN. rewrite (f64_round_int_small N HN) at 1.
  assert (Hl : 0 <= Z.log2 N < 53)
    by (split; [apply Z.log2_nonneg | apply Z.log2_lt_pow2; lia]).
  set (l := Z.log2 N) in *.
  unfold f64_mul. rewrite f64_num_one, f64_den_one.
  rewrite <- (f64_round_int_scale N (104 - l)) by lia.
  unfold f64_num, f64_den. destruct (Z.leb_spec 0 (l - 52)).
  - replace l with 52 by lia. rewrite Z.mul_1_l.
    change (2 ^ (52 - 52)) with 1. change (104 - 52) with 52.
    now rewrite !Z.mul_1_r.
  - replace (104 - l) with ((52 - l) + 52) by ring.
    replace (- (l - 52)) with (52 - l) by ring.
    rewrite !Z.pow_add_r by lia. now rewrite Z.mul_assoc.
Qed.

Lemma f64_as_u64_small (N : Z) :
  0 < N < 2 ^ 53 -> f64_as_u64 (f64_round N 1) = N.
Proof.
  intros HN. rewrite f64_round_int_small by exact HN.
  assert (Hl : 0 <= Z.log2 N < 53)
    by (split; [apply Z.log2_nonneg | apply Z.log2_lt_pow2; lia]).
  set (l := Z.log2 N) in *.
  unfold f64_as_u64, f64_num, f64_den. destruct (Z.leb_spec 0 (l - 52)).
  - replace l with 52 by lia. change (2 ^ (52 - 52)) with 1.
    rewrite Z.div_1_r, !Z.mul_1_r. unfold U64_MAX. lia.
  - replace (- (l - 52)) with (52 - l) by ring.
    rewrite Z.div_mul by (apply Z.pow_nonzero; lia). unfold U64_MAX. lia.
Qed.

Lemma lwma_fold_steady (w : list BlockHeader) (D : Z) (l : list nat) (a b : Z) :
  steady_history w D ->
  Forall (fun i => 1 <= i < length w)%nat l ->
  0 <= a -> a + 1800 * Z.of_nat (List.list_sum l) <= U64_MAX ->
  fold_left (lwma_step w) l (a, b)
  = (a + 1800 * Z.of_nat (List.list_sum l), b + D * Z.of_nat (length l)).
Proof.
  intros [Hts Hd]. revert a b.
  induction l as [|i l IH]; intros a b Hl Ha Hsum;
    cbn [fold_left length] in *.
  - simpl. f_equal; lia.
  - inversion Hl as [|? ? Hi Hl']; subst.
    change (List.list_sum (i :: l)) with (i + List.list_sum l)%nat in *.
    rewrite Nat2Z.inj_add in Hsum.
    assert (Hdi : hdr_difficulty (nth i w dummy_header) = D).
    { rewrite List.Forall_forall in Hd. apply Hd, nth_In. lia. }
    assert (Hti : timestamp (nth i w dummy_header)
                  = timestamp (nth (i - 1) w dummy_header) + TARGET_BLOCK_TIME).
    { replace i with (S (i - 1)) at 1 by lia. apply Hts. lia. }
    assert (0 <= Z.of_nat (List.list_sum l)) by lia.
    assert (Hstep : lwma_step w (a, b) i = (a + 1800 * Z.of_nat i, b + D)).
    { unfold lwma_step. rewrite Hdi, Hti. unfold u64_saturating_sub,
        u64_saturating_mul, u64_saturating_add, TARGET_BLOCK_TIME.
      f_equal. lia. }
    rewrite Hstep.
    rewrite IH by (auto; lia). f_equal; [lia | nia].
Qed.

Lemma lwma_sums_steady (w : list BlockHeader) (D : Z) :
  length w = 61%nat -> steady_history w D -> lwma_sums w = (3294000, 60 * D).
Proof.
  intros Hlen Hs. unfold lwma_sums.
  rewrite (lwma_fold_steady w D); [| exact Hs | | lia | ].
  - rewrite length_seq. unfold LWMA_WINDOW.
    f_equal; first [reflexivity | simpl Z.of_nat; ring].
  - apply List.Forall_forall. intros i Hi. apply in_seq in Hi.
    unfold LWMA_WINDOW in Hi. lia.
  - vm_compute. discriminate.
Qed.

Lemma steady_history_drop (hs : list BlockHeader) (D : Z) (k : nat) :
  steady_history hs D -> steady_history (drop k hs) D.
Proof.
  intros [Hts Hd]. split.
  - intros i Hi. rewrite length_drop in Hi. rewrite !nth_skipn.
    replace (k + S i)%nat with (S (k + i)) by lia. apply Hts. lia.
  - now apply Forall_drop.
Qed.

Lemma calculate_lwma_steady (hs : list BlockHeader) (D : Z) :
  (LWMA_WINDOW + 1 <= length hs)%nat -> steady_history hs D ->
  calculate_lwma_difficulty hs
  = Z.max (f64_as_u64 (f64_mul (f64_of_int D) (F64 (2 ^ 52) (-52))))
          MIN_DIFFICULTY.
Proof.
  intros Hlen Hs. unfold calculate_lwma_difficulty.
  destruct (Nat.ltb_spec (length hs) (LWMA_WINDOW + 1)); [lia|].
  rewrite (lwma_sums_steady _ D).
  2: { rewrite length_drop. unfold LWMA_WINDOW in *. lia. }
  2: { now apply steady_history_drop. }
  cbv beta iota zeta.
  replace (60 * D / Z.of_nat LWMA_WINDOW) with D
    by (unfold LWMA_WINDOW; simpl Z.of_nat; rewrite Z.mul_comm, Z.div_mul; lia).
  replace (f64_min (f64_max (f64_div (f64_of_int 3294000) (f64_of_int 3294000))
             MIN_ADJUSTMENT_FACTOR) MAX_ADJUSTMENT_FACTOR)
    with (F64 (2 ^ 52) (-52)) by (vm_compute; reflexivity).
  reflexivity.
Qed.

Lemma steady_list_ok (t0 D : Z) (n : nat) :
  steady_history (steady_list t0 D n) D.
Proof.
  unfold steady_list. split.
  - intros i Hi. rewrite length_map, length_seq in Hi.
    set (f := fun i : nat => mkHeader (Z.of_nat i)
                (t0 + TARGET_BLOCK_TIME * Z.of_nat i) D).
    rewrite !(nth_indep _ dummy_header (f 0%nat))
      by (rewrite length_map, length_seq; lia).
    rewrite !map_nth, !seq_nth by lia. unfold f; simpl.
    unfold TARGET_BLOCK_TIME. lia.
  - apply List.Forall_forall. intros h Hh. apply in_map_iff in Hh.
    destruct Hh as (i & <- & _). reflexivity.
Qed.

(** C7 (amended): on a history of at least LWMA_WINDOW + 1 headers whose
    timestamps are exactly TARGET_BLOCK_TIME apart and whose difficulty is
    constantly D, calculate_lwma_difficulty returns a value in
    [0.9 D, 1.1 D] provided 910 <= D and 0.9 D <= u64::MAX; below 910 the
    MIN_DIFFICULTY floor 1000 exceeds 1.1 D, and above u64::MAX / 0.9 the
    saturating `as u64` falls below 0.9 D.  For D < 2^53 the result is
    exactly max(D, MIN_DIFFICULTY). *)
Theorem C7_lwma_steady_amended (hs : list BlockHeader) (D : Z)
  (Hlen : (LWMA_WINDOW + 1 <= length hs)%nat) (Hs : steady_history hs D)
  (Hlo : 910 <= D) (Hhi : 9 * D <= 10 * U64_MAX) :
  9 * D <= 10 * calculate_lwma_difficulty hs <= 11 * D /\
  (D < 2 ^ 53 -> calculate_lwma_difficulty hs = Z.max D MIN_DIFFICULTY).
Proof.
  rewrite (calculate_lwma_steady hs D Hlen Hs). unfold f64_of_int.
  assert (Hp53 : 2 ^ 53 = 9007199254740992) by reflexivity.
  assert (Hp1000 : 2 ^ 66 <= 2 ^ 1000) by (apply Z.pow_le_mono_r; lia).
  assert (Hp66 : 2 ^ 66 = 73786976294838206464) by reflexivity.
  assert (Hp64 : 2 ^ 64 = 18446744073709551616) by reflexivity.
  unfold U64_MAX, MIN_DIFFICULTY in *.
  destruct (Z.ltb_spec D (2 ^ 53)) as [Hsm|Hbig].
  - rewrite f64_mul_one_small, f64_as_u64_small by lia.
    split; [lia | intros; reflexivity].
  - split; [|lia].
    destruct (f64_round_int_err D) as (m1 & e1 & H1 & Hm1 & He1 & Hv1 & Herr1);
      [lia|].
    rewrite H1, f64_mul_one_pos by lia.
    set (V1 := m1 * 2 ^ e1) in *.
    destruct (f64_round_int_err V1) as (m2 & e2 & H2 & Hm2 & He2 & Hv2 & Herr2);
      [lia|].
    rewrite H2. unfold f64_as_u64, f64_num, f64_den.
    destruct (Z.leb_spec 0 e2); [|lia]. rewrite Z.div_1_r.
    set (V2 := m2 * 2 ^ e2) in *.
    unfold U64_MAX. lia.
Qed.

(** S5: 100 headers at 1800 s intervals with difficulty 100_000 give
    exactly 100_000, inside [90_000, 110_000]. *)
Lemma C7_witness :
  (LWMA_WINDOW + 1 <= length S5_headers)%nat /\
  steady_history S5_headers 100000 /\ 910 <= 100000 /\
  9 * 100000 <= 10 * U64_MAX /\
  calculate_lwma_difficulty S5_headers = 100000 /\
  90000 <= calculate_lwma_difficulty S5_headers <= 110000.
Proof.
  assert (Hl : (LWMA_WINDOW + 1 <= length S5_headers)%nat)
    by (vm_compute; lia).
  pose proof (steady_list_ok 0 100000 100) as Hs.
  assert (HU : 9 * 100000 <= 10 * U64_MAX) by (unfold U64_MAX; lia).
  pose proof (C7_lwma_steady_amended S5_headers 100000 Hl Hs
                ltac:(lia) HU) as [Hb Heq].
  rewrite Heq in Hb by lia. rewrite Heq by lia.
  refine (conj Hl (conj Hs (conj _ (conj HU (conj _ _))))); [lia | | lia].
  reflexivity.
Defined.

(** C7 counterexample: with the same steady history, difficulty 1 gives
    the floor 1000 (above 1.1), and difficulty 2^66 gives u64::MAX (below
    0.9 * 2^66). *)
Lemma C7_counterexample :
  steady_history (steady_list 0 1 61) 1 /\
  calculate_lwma_difficulty (steady_list 0 1 61) = 1000 /\
  11 * 1 < 10 * 1000 /\
  steady_history (steady_list 0 (2 ^ 66) 61) (2 ^ 66) /\
  calculate_lwma_difficulty (steady_list 0 (2 ^ 66) 61) = U64_MAX /\
  10 * U64_MAX < 9 * 2 ^ 66.
Proof.
  refine (conj (steady_list_ok 0 1 61) (conj _ (conj _
           (conj (steady_list_ok 0 (2 ^ 66) 61) (conj _ _))))).
  all: vm_compute; reflexivity.
Qed.

(* ===================================================================== *)
(* Further properties of the code                                        *)
(* ===================================================================== *)

(* Economics *)

Lemma reward_prefix_range (e : Z) (k : nat) :
  0 <= e -> (Z.of_nat k <= HALVING_INTERVAL) ->
  reward_prefix (Z.to_nat (e * HALVING_INTERVAL) + k)
  = reward_prefix (Z.to_nat (e * HALVING_INTERVAL))
    + Z.of_nat k * Z.shiftr INITIAL_REWARD e.
Proof.
  intros He. induction k as [|k IH]; intros Hk.
  - rewrite Nat.add_0_r. lia.
  - rewrite Nat.add_succ_r. cbn [reward_prefix]. rewrite IH by lia.
    rewrite get_mining_reward_shiftr by lia.
    replace (Z.of_nat (Z.to_nat (e * HALVING_INTERVAL) + k) / HALVING_INTERVAL) with e.
    + lia.
    + apply Z.div_unique with (Z.of_nat k); unfold HALVING_INTERVAL in *; lia.
Qed.

Lemma reward_prefix_tail (n : nat) :
  reward_prefix n = reward_prefix (Nat.min n (Z.to_nat (64 * HALVING_INTERVAL))).
Proof.
  induction n as [|n IH]; [reflexivity|].
  destruct (Nat.le_gt_cases (S n) (Z.to_nat (64 * HALVING_INTERVAL))) as [Hle|Hgt].
  - rewrite Nat.min_l by exact Hle. reflexivity.
  - rewrite Nat.min_r by lia. cbn [reward_prefix]. rewrite IH.
    rewrite Nat.min_r by lia.
    unfold get_mining_reward.
    replace (Z.of_nat n / HALVING_INTERVAL >=? 64) with true; [lia|].
    symmetry. apply Z.geb_le. apply Z.div_le_lower_bound; unfold HALVING_INTERVAL in *; lia.
Qed.

Lemma total_supply_loop_stop (fuel : nat) (h t e : Z) :
  total_supply_loop fuel h t h e = t.
Proof. destruct fuel; simpl; [reflexivity|]. rewrite Z.ltb_irrefl. reflexivity. Qed.

Lemma total_supply_prefix_small (h : Z) :
  0 <= h -> reward_prefix (Z.to_nat h) <= 2 * HALVING_INTERVAL * INITIAL_REWARD.
Proof. intros. apply reward_prefix_le. Qed.

Lemma total_supply_loop_spec (fuel : nat) (h e : Z) :
  Z.of_nat fuel = 64 - e -> 0 <= e -> e * HALVING_INTERVAL <= h <= U64_MAX ->
  total_supply_loop fuel h (reward_prefix (Z.to_nat (e * HALVING_INTERVAL)))
    (e * HALVING_INTERVAL) e
  = reward_prefix (Z.to_nat h).
Proof.
  revert e. induction fuel as [|f IH]; intros e Hf He Hh.
  - simpl. rewrite (reward_prefix_tail (Z.to_nat h)). f_equal.
    unfold HALVING_INTERVAL in *; lia.
  - cbn [total_supply_loop].
    destruct (Z.ltb_spec (e * HALVING_INTERVAL) h) as [Hlt|Hge];
      [|replace h with (e * HALVING_INTERVAL) by lia; reflexivity].
    replace (e <? 64) with true by (symmetry; apply Z.ltb_lt; lia). cbn [andb].
    assert (HI : HALVING_INTERVAL = 1240000) by reflexivity.
    assert (HIR : INITIAL_REWARD = 5000000000) by reflexivity.
    assert (HU : U64_MAX = 18446744073709551615) by reflexivity.
    pose proof (shiftr_reward_nonneg e) as Hx0.
    assert (Hx : Z.shiftr INITIAL_REWARD e <= INITIAL_REWARD).
    { rewrite Z.shiftr_div_pow2 by lia. apply Z.div_le_upper_bound.
      - apply Z.pow_pos_nonneg; lia.
      - pose proof (Z.pow_pos_nonneg 2 e ltac:(lia) He). rewrite HIR. nia. }
    set (k := Z.min HALVING_INTERVAL (h - e * HALVING_INTERVAL)).
    assert (Hk : 0 < k <= HALVING_INTERVAL) by (unfold k; lia).
    pose proof (reward_prefix_range e (Z.to_nat k) He ltac:(lia)) as Hr.
    rewrite Z2Nat.id in Hr by lia.
    pose proof (reward_prefix_le (Z.to_nat (e * HALVING_INTERVAL) + Z.to_nat k)) as Hb.
    pose proof (reward_prefix_le (Z.to_nat (e * HALVING_INTERVAL))) as Hb0.
    assert (Hmul : u64_saturating_mul (Z.shiftr INITIAL_REWARD e) k
                   = k * Z.shiftr INITIAL_REWARD e).
    { unfold u64_saturating_mul. rewrite Z.min_l; [ring|]. nia. }
    rewrite Hmul.
    assert (Hadd : u64_saturating_add (reward_prefix (Z.to_nat (e * HALVING_INTERVAL)))
                     (k * Z.shiftr INITIAL_REWARD e)
                   = reward_prefix (Z.to_nat (e * HALVING_INTERVAL) + Z.to_nat k)).
    { unfold u64_saturating_add. rewrite Z.min_l; lia. }
    rewrite Hadd.
    rewrite !u64_add_small by lia.
    destruct (Z.eq_dec k HALVING_INTERVAL) as [Hfull|Hpart].
    + rewrite Hfull.
      replace (Z.to_nat (e * HALVING_INTERVAL) + Z.to_nat HALVING_INTERVAL)%nat
        with (Z.to_nat ((e + 1) * HALVING_INTERVAL)) by lia.
      replace (e * HALVING_INTERVAL + HALVING_INTERVAL) with ((e + 1) * HALVING_INTERVAL) by ring.
      apply IH; lia.
    + replace (e * HALVING_INTERVAL + k) with h by (unfold k; lia).
      rewrite total_supply_loop_stop. f_equal. unfold k; lia.
Qed.

Lemma reward_prefix_eras (n : nat) :
  reward_prefix (Z.to_nat (Z.of_nat n * HALVING_INTERVAL)) = era_supply n.
Proof.
  induction n as [|n IH]; [reflexivity|].
  cbn [era_supply]. rewrite <- IH.
  replace (Z.to_nat (Z.of_nat (S n) * HALVING_INTERVAL))
    with (Z.to_nat (Z.of_nat n * HALVING_INTERVAL) + Z.to_nat HALVING_INTERVAL)%nat
    by (unfold HALVING_INTERVAL; lia).
  rewrite reward_prefix_range by (unfold HALVING_INTERVAL; lia).
  rewrite Z2Nat.id by (unfold HALVING_INTERVAL; lia). ring.
Qed.

Lemma get_mining_reward_late (i : Z) :
  33 * HALVING_INTERVAL <= i -> get_mining_reward i = 0.
Proof.
  intros Hi. rewrite get_mining_reward_shiftr by (unfold HALVING_INTERVAL in *; lia).
  rewrite Z.shiftr_div_pow2 by (apply Z.div_pos; unfold HALVING_INTERVAL in *; lia).
  apply Z.div_small. split; [unfold INITIAL_REWARD, SMALLEST_UNIT; lia|].
  apply Z.lt_le_trans with (2 ^ 33); [unfold INITIAL_REWARD, SMALLEST_UNIT; lia|].
  apply Z.pow_le_mono_r; [lia|]. apply Z.div_le_lower_bound; unfold HALVING_INTERVAL in *; lia.
Qed.

Lemma reward_prefix_tail_from (c : Z) (n : nat) :
  33 * HALVING_INTERVAL <= c ->
  reward_prefix n = reward_prefix (Nat.min n (Z.to_nat c)).
Proof.
  intros Hc. induction n as [|n IH]; [reflexivity|].
  destruct (Nat.le_gt_cases (S n) (Z.to_nat c)) as [Hle|Hgt].
  - rewrite Nat.min_l by exact Hle. reflexivity.
  - rewrite Nat.min_r by lia. cbn [reward_prefix]. rewrite IH.
    rewrite Nat.min_r by lia.
    rewrite get_mining_reward_late by lia. ring.
Qed.

Lemma reward_prefix_mono (m n : nat) : (m <= n)%nat -> reward_prefix m <= reward_prefix n.
Proof.
  induction 1 as [|n _ IH]; [lia|]. cbn [reward_prefix].
  pose proof (get_mining_reward_nonneg (Z.of_nat n) ltac:(lia)). lia.
Qed.

Lemma reward_prefix_final (n : nat) :
  (Z.to_nat (33 * HALVING_INTERVAL) <= n)%nat -> reward_prefix n = 12399999986360000.
Proof.
  intros Hn. rewrite (reward_prefix_tail_from (33 * HALVING_INTERVAL)) by lia.
  rewrite Nat.min_r by exact Hn.
  change (33 * HALVING_INTERVAL) with (Z.of_nat 33 * HALVING_INTERVAL).
  rewrite reward_prefix_eras. vm_compute. reflexivity.
Qed.

Lemma reward_prefix_max (n : nat) : reward_prefix n <= 12399999986360000.
Proof.
  destruct (Nat.le_gt_cases (Z.to_nat (33 * HALVING_INTERVAL)) n) as [H|H].
  - rewrite reward_prefix_final by exact H. lia.
  - rewrite <- (reward_prefix_final (Z.to_nat (33 * HALVING_INTERVAL))) by lia.
    apply reward_prefix_mono. lia.
Qed.

Lemma calculate_total_supply_eq (h : Z) :
  0 <= h <= U64_MAX -> calculate_total_supply h = reward_prefix (Z.to_nat h).
Proof.
  intros Hh. unfold calculate_total_supply.
  destruct (Z.eqb_spec h 0) as [->|Hne]; [reflexivity|].
  pose proof (total_supply_loop_spec 64 h 0 eq_refl ltac:(lia) ltac:(unfold HALVING_INTERVAL; lia)) as Hl.
  rewrite Z.mul_0_l in Hl. change (reward_prefix (Z.to_nat 0)) with 0 in Hl.
  rewrite Hl. pose proof (reward_prefix_max (Z.to_nat h)).
  apply Z.min_l. unfold TOTAL_SUPPLY. lia.
Qed.

(** X1: for every u64 height h, calculate_total_supply h is the sum of
    get_mining_reward over the slots 0 .. h-1: the era-by-era loop, its
    saturating arithmetic and the final min with TOTAL_SUPPLY never change
    the exact sum. *)
Theorem calculate_total_supply_prefix (h : Z) :
  0 <= h <= U64_MAX -> calculate_total_supply h = reward_prefix (Z.to_nat h).
Proof. apply calculate_total_supply_eq. Qed.

(** X2: calculate_total_supply is monotone in the height and never exceeds
    12_399_999_986_360_000 (about 124M AXM minus 0.1364 AXM); from height 33
    * HALVING_INTERVAL on it is exactly that value, so the TOTAL_SUPPLY cap
    of the final min is never reached. *)
Theorem calculate_total_supply_limit (h h' : Z) :
  0 <= h <= h' -> h' <= U64_MAX ->
  calculate_total_supply h <= calculate_total_supply h' <= 12399999986360000 /\
  (33 * HALVING_INTERVAL <= h -> calculate_total_supply h = 12399999986360000).
Proof.
  intros Hh Hh'. rewrite !calculate_total_supply_eq by lia.
  split; [split|].
  - apply reward_prefix_mono. lia.
  - apply reward_prefix_max.
  - intros H33. apply reward_prefix_final. lia.
Qed.

(** X3: remaining_supply h never saturates (it is TOTAL_SUPPLY -
    calculate_total_supply h) and is at least 111_600_000_013_640_000 for
    every u64 height. *)
Theorem remaining_supply_floor (h : Z) :
  0 <= h <= U64_MAX ->
  remaining_supply h = TOTAL_SUPPLY - calculate_total_supply h /\
  111600000013640000 <= remaining_supply h.
Proof.
  intros Hh. unfold remaining_supply, u64_saturating_sub.
  rewrite calculate_total_supply_eq by lia.
  pose proof (reward_prefix_max (Z.to_nat h)).
  pose proof (reward_prefix_mono 0 (Z.to_nat h) ltac:(lia)). simpl in H0.
  unfold TOTAL_SUPPLY. lia.
Qed.

(** X4: validate_economics always fails, with TotalSupplyIncorrect (expected
    TOTAL_SUPPLY, got 12_399_999_986_360_000): the first two checks pass and
    the supply its loop sums is the same value calculate_total_supply gives
    after 64 eras, 10x less than TOTAL_SUPPLY. *)
Theorem validate_economics_fails :
  validate_economics = Err (TotalSupplyIncorrect TOTAL_SUPPLY 12399999986360000) /\
  economics_supply_loop 64 0 0 = calculate_total_supply (64 * HALVING_INTERVAL).
Proof.
  split; [vm_compute; reflexivity|].
  rewrite calculate_total_supply_eq by (unfold HALVING_INTERVAL, U64_MAX; lia).
  rewrite reward_prefix_final by (unfold HALVING_INTERVAL; lia).
  vm_compute. reflexivity.
Qed.

(** X5: for every height h, blocks_until_halving h is between 1 and
    HALVING_INTERVAL, h + blocks_until_halving h is the first height of the
    next era, and get_mining_reward is constant on the heights in between. *)
Theorem blocks_until_halving_next_era (h : Z) :
  0 <= h ->
  let b := blocks_until_halving h in
  1 <= b <= HALVING_INTERVAL /\
  (h + b) mod HALVING_INTERVAL = 0 /\
  (h + b) / HALVING_INTERVAL = h / HALVING_INTERVAL + 1 /\
  (forall i, h <= i < h + b -> get_mining_reward i = get_mining_reward h).
Proof.
  intros Hh b. unfold b, blocks_until_halving.
  assert (HI : 0 < HALVING_INTERVAL) by (unfold HALVING_INTERVAL; lia).
  pose proof (Z.div_mod h HALVING_INTERVAL ltac:(lia)) as Hdm.
  pose proof (Z.mod_pos_bound h HALVING_INTERVAL HI) as Hr.
  set (q := h / HALVING_INTERVAL) in *. set (r := h mod HALVING_INTERVAL) in *.
  assert (Hd : (h + (HALVING_INTERVAL - r)) / HALVING_INTERVAL = q + 1)
    by (symmetry; apply Z.div_unique with 0; lia).
  split; [lia|]. split; [|split; [exact Hd|]].
  - symmetry. apply Z.mod_unique with (q + 1); lia.
  - intros i Hi. rewrite !get_mining_reward_shiftr by lia. f_equal.
    fold q. symmetry. apply Z.div_unique with (i - HALVING_INTERVAL * q); lia.
Qed.

(** X6: EraStats::for_height h reports reward = INITIAL_REWARD >> era and
    total_era_supply = the sum of the rewards of the heights start_height ..
    end_height-1; below height 64 * HALVING_INTERVAL the era is h /
    HALVING_INTERVAL and h lies in [start_height, end_height); from there on
    era stays 63, end_height <= h and the reward is 0. *)
Theorem EraStats_for_height_range (h : Z) :
  0 <= h <= U64_MAX ->
  let st := EraStats_for_height h in
  es_reward st = Z.shiftr INITIAL_REWARD (es_era st) /\
  es_total_era_supply st
    = reward_prefix (Z.to_nat (es_end_height st))
      - reward_prefix (Z.to_nat (es_start_height st)) /\
  (h < 64 * HALVING_INTERVAL ->
     es_era st = h / HALVING_INTERVAL /\
     es_start_height st <= h < es_end_height st) /\
  (64 * HALVING_INTERVAL <= h ->
     es_era st = 63 /\ es_end_height st <= h /\ es_reward st = 0).
Proof.
  intros Hh st. unfold st, EraStats_for_height, current_era. cbn [es_era es_start_height es_end_height es_reward es_total_era_supply].
  assert (HI : HALVING_INTERVAL = 1240000) by reflexivity.
  assert (HIR : INITIAL_REWARD = 5000000000) by reflexivity.
  assert (Hq0 : 0 <= h / HALVING_INTERVAL) by (apply Z.div_pos; lia).
  set (era := Z.min (h / HALVING_INTERVAL) 63).
  assert (He : 0 <= era <= 63) by (unfold era; lia).
  assert (Hrew : get_mining_reward h = Z.shiftr INITIAL_REWARD era).
  { unfold era, get_mining_reward.
    destruct (Z.geb_spec (h / HALVING_INTERVAL) 64) as [Hge|Hlt].
    - rewrite Z.min_r by lia. reflexivity.
    - rewrite Z.min_l by lia. reflexivity. }
  pose proof (shiftr_reward_nonneg era) as Hx0.
  assert (Hx : Z.shiftr INITIAL_REWARD era <= INITIAL_REWARD).
  { rewrite Z.shiftr_div_pow2 by lia. apply Z.div_le_upper_bound.
    - apply Z.pow_pos_nonneg; lia.
    - pose proof (Z.pow_pos_nonneg 2 era ltac:(lia) ltac:(lia)). rewrite HIR. nia. }
  assert (Hp : 2 ^ 64 = 18446744073709551616) by reflexivity.
  unfold u64_mul, u64_add.
  rewrite (Z.mod_small (era + 1)) by lia.
  rewrite (Z.mod_small (era * HALVING_INTERVAL)) by lia.
  rewrite (Z.mod_small ((era + 1) * HALVING_INTERVAL)) by lia.
  rewrite Hrew. rewrite (Z.mod_small (Z.shiftr INITIAL_REWARD era * HALVING_INTERVAL)) by nia.
  split; [reflexivity|]. split.
  - replace (Z.to_nat ((era + 1) * HALVING_INTERVAL))
      with (Z.to_nat (era * HALVING_INTERVAL) + Z.to_nat HALVING_INTERVAL)%nat by lia.
    rewrite reward_prefix_range by lia. rewrite Z2Nat.id by lia. ring.
  - split.
    + intros Hlt. assert (Hq : h / HALVING_INTERVAL <= 63).
      { apply Z.lt_succ_r. apply Z.div_lt_upper_bound; lia. }
      unfold era. rewrite Z.min_l by exact Hq. split; [reflexivity|].
      pose proof (Z.div_mod h HALVING_INTERVAL ltac:(lia)).
      pose proof (Z.mod_pos_bound h HALVING_INTERVAL ltac:(lia)). lia.
    + intros Hge. assert (Hq : 64 <= h / HALVING_INTERVAL)
        by (apply Z.div_le_lower_bound; lia).
      unfold era. rewrite Z.min_r by lia. split; [reflexivity|]. split; [lia|].
      reflexivity.
Qed.

(* State *)




(* Block rewards *)

(** X8: Block::mining_reward(slot) is get_mining_reward(slot) / 100 (its
    50_000_000 base is 100 times smaller than INITIAL_REWARD), and
    apply_mining_reward credits exactly that amount to the miner with a
    wrapping add, leaving other balances, total_issued and the nonces
    unchanged. *)
Theorem Block_mining_reward_hundredth (b : Block) (st : State) :
  0 <= slot b ->
  Block_mining_reward (slot b) = get_mining_reward (slot b) / 100 /\
  (forall a, balance (apply_mining_reward b st) a =
     if decide (a = miner b) then u64_add (balance st a) (get_mining_reward (slot b) / 100)
     else balance st a) /\
  st_total_issued (apply_mining_reward b st) = st_total_issued st /\
  nonces (apply_mining_reward b st) = nonces st.
Proof.
  intros Hs.
  assert (Hr : Block_mining_reward (slot b) = get_mining_reward (slot b) / 100).
  { unfold Block_mining_reward. rewrite get_mining_reward_shiftr by exact Hs.
    fold HALVING_INTERVAL.
    assert (Hq : 0 <= slot b / HALVING_INTERVAL) by (apply Z.div_pos; unfold HALVING_INTERVAL; lia).
    rewrite !Z.shiftr_div_pow2 by lia. rewrite Z.div_div by (try apply Z.pow_pos_nonneg; lia).
    destruct (Z.le_gt_cases (slot b / HALVING_INTERVAL) 32) as [Hle|Hgt].
    - rewrite Z.min_l by exact Hle.
      replace (INITIAL_REWARD) with (50000000 * 100) by reflexivity.
      rewrite Z.div_mul_cancel_r; [reflexivity| |lia].
      pose proof (Z.pow_pos_nonneg 2 (slot b / HALVING_INTERVAL) ltac:(lia) Hq). lia.
    - rewrite Z.min_r by lia. rewrite (Z.div_small 50000000) by (vm_compute; split; congruence).
      symmetry. apply Z.div_small. split; [unfold INITIAL_REWARD, SMALLEST_UNIT; lia|].
      apply Z.lt_le_trans with (2 ^ 33 * 100); [unfold INITIAL_REWARD, SMALLEST_UNIT; lia|].
      apply Z.mul_le_mono_nonneg_r; [lia|]. apply Z.pow_le_mono_r; lia. }
  split; [exact Hr|]. split; [|split; reflexivity].
  intros a. unfold apply_mining_reward, credit, balance. cbn [balances].
  rewrite default_lookup_insert. rewrite Hr.
  destruct (decide (a = miner b)) as [->|]; reflexivity.
Qed.

(* Chain *)

Lemma add_block_difficulty `{Crypto} (tc : Timechain) (b : Block) (e : Z)
    (r : result unit string) (tc' : Timechain) :
  add_block tc b e = Some (r, tc') ->
  difficulty tc' = if is_ok r then difficulty (adjust_difficulty tc e) else difficulty tc.
Proof.
  intros Hadd. unfold add_block, block_reward in Hadd.
  repeat (case_match; simplify_eq/=; try reflexivity).
Qed.

Lemma apply_txs_replay `{Crypto} (st st' : State) (txs : list Transaction) :
  apply_txs st txs = (Ok tt, st') -> replay_txs st txs = st'.
Proof.
  unfold replay_txs. revert st. induction txs as [|tx txs IH]; intros st Hap.
  - simpl in Hap. inversion Hap. reflexivity.
  - simpl in Hap. simpl. destruct (apply_tx st tx) as [[u|m] s1] eqn:E; [|discriminate].
    simpl. apply IH. exact Hap.
Qed.

Lemma add_block_ok `{Crypto} (tc : Timechain) (b : Block) (e : Z) (tc' : Timechain) :
  add_block tc b e = Some (Ok tt, tc') ->
  blocks tc' = blocks tc ++ [b] /\
  (state tc', total_issued tc') = rebuild_step (state tc, total_issued tc) b /\
  seen_hashes tc' = {[calculate_hash b]} ∪ seen_hashes tc /\
  difficulty tc' = difficulty (adjust_difficulty tc e).
Proof.
  intros Hadd. unfold add_block in Hadd.
  repeat (case_match; simplify_eq/=).
  all: split_and!; try reflexivity.
  all: repeat match goal with u : unit |- _ => destruct u end.
  all: f_equal; symmetry; apply apply_txs_replay; assumption.
Qed.

Lemma rebuild_state_difficulty `{Crypto} (tc : Timechain) :
  difficulty (rebuild_state tc) = difficulty tc.
Proof. unfold rebuild_state. destruct (fold_left _ _ _). reflexivity. Qed.

Lemma Timechain_new_fields `{Crypto} (g : Block) (tc0 : Timechain) :
  Timechain_new g = Some tc0 ->
  blocks tc0 = [g] /\ difficulty tc0 = 1000 /\
  fold_left rebuild_step (blocks tc0) (State_new, 0) = (state tc0, total_issued tc0).
Proof.
  unfold Timechain_new. case_bool_decide; intros Heq; simplify_eq.
  unfold rebuild_state. cbn [blocks difficulty].
  destruct (fold_left rebuild_step [g] (State_new, 0)) as [st ti] eqn:E.
  split_and!; [reflexivity|reflexivity|]. simpl. exact E.
Qed.

Lemma adjust_difficulty_value (tc : Timechain) (e : Z) :
  difficulty (adjust_difficulty tc e) =
  if e <? TARGET_TIME then Z.min (difficulty tc + 1) U64_MAX
  else if TARGET_TIME <? e then Z.max (Z.max (difficulty tc - 1) 0) 1
  else difficulty tc.
Proof.
  unfold adjust_difficulty, u64_saturating_add, u64_saturating_sub. cbn [difficulty].
  destruct (e <? TARGET_TIME); [reflexivity|].
  rewrite Z.gtb_ltb. reflexivity.
Qed.

Lemma difficulty_steps `{Crypto} (tc tc'' : Timechain) :
  chain_steps tc tc'' -> 1 <= difficulty tc <= U64_MAX -> 1 <= difficulty tc'' <= U64_MAX.
Proof.
  induction 1 as [tc|tc b e r tc' tc'' Hadd Hst IH|tc tc'' Hst IH]; intros Hd.
  - exact Hd.
  - apply IH. rewrite (add_block_difficulty _ _ _ _ _ Hadd).
    destruct (is_ok r); [|exact Hd].
    rewrite adjust_difficulty_value.
    destruct (e <? TARGET_TIME); [unfold U64_MAX in *; lia|].
    destruct (TARGET_TIME <? e); lia.
  - apply IH. rewrite rebuild_state_difficulty. exact Hd.
Qed.

(** X9: on every chain reached from Timechain::new by add_block and
    rebuild_state calls, the difficulty stays between 1 and u64::MAX; a
    rejected add_block leaves it unchanged and an accepted one moves it by
    one step: +1 (saturating) when elapsed < 1800, unchanged at 1800, and
    -1 (never below 1) when elapsed > 1800. *)
Theorem chain_difficulty_bounds `{Crypto} (g : Block) (tc0 tc : Timechain) :
  Timechain_new g = Some tc0 -> chain_steps tc0 tc ->
  1 <= difficulty tc <= U64_MAX /\
  (forall b e r tc', add_block tc b e = Some (r, tc') ->
     (is_ok r = false -> difficulty tc' = difficulty tc) /\
     (is_ok r = true ->
        (e < TARGET_TIME -> difficulty tc' = Z.min (difficulty tc + 1) U64_MAX) /\
        (e = TARGET_TIME -> difficulty tc' = difficulty tc) /\
        (TARGET_TIME < e -> difficulty tc' = Z.max (difficulty tc - 1) 1))).
Proof.
  intros H0 Hst.
  destruct (Timechain_new_fields g tc0 H0) as (_ & Hd0 & _).
  pose proof (difficulty_steps tc0 tc Hst ltac:(rewrite Hd0; unfold U64_MAX; lia)) as Hd.
  split; [exact Hd|].
  intros b e r tc' Hadd. rewrite (add_block_difficulty _ _ _ _ _ Hadd).
  split; [intros ->; reflexivity|]. intros ->.
  rewrite adjust_difficulty_value. split_and!; intros He.
  - rewrite (proj2 (Z.ltb_lt _ _) He). reflexivity.
  - subst e. rewrite Z.ltb_irrefl. reflexivity.
  - rewrite (proj2 (Z.ltb_ge e TARGET_TIME)) by lia.
    rewrite (proj2 (Z.ltb_lt _ _) He). lia.
Qed.

Lemma rebuild_inv_steps `{Crypto} (tc tc'' : Timechain) :
  accepted_steps tc tc'' ->
  fold_left rebuild_step (blocks tc) (State_new, 0) = (state tc, total_issued tc) ->
  fold_left rebuild_step (blocks tc'') (State_new, 0) = (state tc'', total_issued tc'').
Proof.
  induction 1 as [tc|tc b e tc' tc'' Hadd Hst IH]; intros Hinv; [exact Hinv|].
  apply IH. destruct (add_block_ok tc b e tc' Hadd) as (Hb & Hs & _).
  rewrite Hb, fold_left_app, Hinv. simpl. symmetry. exact Hs.
Qed.

(** X10: on every chain reached from Timechain::new by accepted
    add_block calls, rebuild_state returns the chain unchanged: the state
    and total_issued that add_block updates incrementally equal a replay of
    all blocks from the genesis. *)
Theorem rebuild_state_accepted `{Crypto} (g : Block) (tc0 tc : Timechain) :
  Timechain_new g = Some tc0 -> accepted_steps tc0 tc -> rebuild_state tc = tc.
Proof.
  intros H0 Hst.
  destruct (Timechain_new_fields g tc0 H0) as (_ & _ & Hf0).
  pose proof (rebuild_inv_steps tc0 tc Hst Hf0) as Hf.
  unfold rebuild_state. rewrite Hf. destruct tc. reflexivity.
Qed.

Lemma add_all_true `{Crypto} (cand c : Timechain) (bs : list Block) :
  add_all cand bs = Some (true, c) -> blocks c = blocks cand ++ bs.
Proof.
  revert cand. induction bs as [|b bs IH]; intros cand Hall.
  - simpl in Hall. inversion Hall. rewrite app_nil_r. reflexivity.
  - simpl in Hall. destruct (add_block cand b 1800) as [[[u|m] c1]|] eqn:E;
      try discriminate.
    destruct u. rewrite (IH c1 Hall).
    destruct (add_block_ok cand b 1800 c1 E) as (Hb & _).
    rewrite Hb, <- app_assoc. reflexivity.
Qed.

(** X11: when validate_and_sync_chain adopts a chain, the peer list and the
    current chain are non-empty with genesis blocks of equal hash, the
    adopted chain is the local genesis followed by the peer's blocks after
    its first, and it is longer or has more work (calculate_chain_work) than
    the current one. *)
Theorem validate_and_sync_chain_adopted `{Crypto} (peer : list Block) (cur c : Timechain) :
  validate_and_sync_chain peer cur = Some (Some c) ->
  exists p0 c0 rest cs,
    peer = p0 :: rest /\ blocks cur = c0 :: cs /\ Block_hash p0 = Block_hash c0 /\
    blocks c = genesis :: rest /\
    ((length (blocks cur) < length (blocks c))%nat \/
     calculate_chain_work cur < calculate_chain_work c).
Proof.
  unfold validate_and_sync_chain.
  destruct peer as [|p0 rest]; [discriminate|].
  destruct (blocks cur) as [|c0 cs] eqn:Ecur; [discriminate|].
  case_bool_decide as Hh; [|discriminate]. simpl.
  destruct (Timechain_new genesis) as [cand|] eqn:En; [|discriminate].
  destruct (add_all cand rest) as [[[|] c']|] eqn:Ea; try discriminate.
  destruct (Nat.ltb _ _ || _) eqn:Ec; intros Hc; inversion Hc; subst c'.
  exists p0, c0, rest, cs. split_and!; try reflexivity; try assumption.
  - rewrite (add_all_true _ _ _ Ea). destruct (Timechain_new_fields _ _ En) as (-> & _). reflexivity.
  - apply orb_true_iff in Ec as [Hl|Hw].
    + left. apply Nat.ltb_lt, Hl.
    + right. apply Z.gtb_lt, Hw.
Qed.

(* Genesis proofs and difficulty checks *)


(** X13: Block::meets_difficulty and lwma::meets_difficulty are antitone in
    the difficulty: a hash that meets difficulty d' also meets every
    difficulty d with 0 <= d <= d'. *)
Theorem meets_difficulty_antimono `{Crypto} (b : Block) (h : list Z) (d d' : Z) :
  0 <= d <= d' ->
  (Block_meets_difficulty b d' = true -> Block_meets_difficulty b d = true) /\
  (lwma_meets_difficulty h d' = true -> lwma_meets_difficulty h d = true).
Proof.
  intros Hd. split.
  - unfold Block_meets_difficulty, meets_difficulty_digest.
    destruct (length (Block_hash b) <? 8)%nat; [discriminate|].
    rewrite !Z.ltb_lt. intros Hlt. eapply Z.lt_le_trans; [exact Hlt|].
    apply Z.div_le_compat_l; [unfold U64_MAX; lia|lia].
  - unfold lwma_meets_difficulty, difficulty_to_target.
    rewrite !Z.leb_le. intros Hle. eapply Z.le_trans; [exact Hle|].
    assert (Hm : 0 <= max_target) by (unfold max_target; lia).
    destruct (Z.eqb_spec d' 0) as [E'|N']; destruct (Z.eqb_spec d 0) as [E|N]; try lia.
    + rewrite <- (Z.div_1_r max_target) at 2. apply Z.div_le_compat_l; lia.
    + apply Z.div_le_compat_l; lia.
Qed.

(* Mempool *)

Lemma fmap_some_ne {A B} (f : A -> B) (m : gmap (list Z) A) (h h' : list Z) (k : B) :
  f <$> m !! h = Some k -> m !! h' = None -> h' <> h.
Proof. intros E N ->. rewrite N in E. discriminate. Qed.

Lemma insert_indexes_wf (mp : Mempool) (tx : Transaction) (hash nul : list Z) :
  mempool_wf mp -> pool_transactions mp !! hash = None ->
  mempool_wf (insert_indexes mp tx hash nul).
Proof.
  intros [[Hf1 Hf2] [Hs1 Hs2]] Hnew.
  unfold mempool_wf, pool_wf, sender_wf, map_Forall, set_Forall in *.
  unfold insert_indexes; cbn [pool_transactions by_fee by_sender].
  split_and!.
  - intros k hs Hk. destruct (decide (k = fee tx)) as [->|Nk].
    + rewrite lookup_insert_eq in Hk. injection Hk as <-. split; [set_solver|].
      intros h Hh. apply elem_of_union in Hh as [Hh|Hh].
      * apply elem_of_singleton in Hh as ->. rewrite lookup_insert_eq. reflexivity.
      * destruct (by_fee mp !! fee tx) as [D|] eqn:ED; simpl in Hh; [|set_solver].
        pose proof (proj2 (Hf1 _ _ ED) h Hh) as Hp.
        rewrite lookup_insert_ne by exact (fmap_some_ne _ _ _ _ _ Hp Hnew). exact Hp.
    + rewrite lookup_insert_ne in Hk by congruence.
      destruct (Hf1 _ _ Hk) as [Hne Hall]. split; [exact Hne|].
      intros h Hh. pose proof (Hall h Hh) as Hp.
      rewrite lookup_insert_ne by exact (fmap_some_ne _ _ _ _ _ Hp Hnew). exact Hp.
  - intros h t Ht. destruct (decide (h = hash)) as [->|Nh].
    + rewrite lookup_insert_eq in Ht. injection Ht as <-.
      rewrite lookup_insert_eq. simpl. set_solver.
    + rewrite lookup_insert_ne in Ht by congruence. pose proof (Hf2 _ _ Ht) as Hin.
      destruct (decide (fee t = fee tx)) as [E|E].
      * rewrite E in Hin |- *. rewrite lookup_insert_eq. simpl. set_solver.
      * rewrite lookup_insert_ne by congruence. exact Hin.
  - intros a l Ha. destruct (decide (a = from tx)) as [->|Na].
    + rewrite lookup_insert_eq in Ha. injection Ha as <-.
      split; [destruct (default _ _); discriminate|].
      apply Forall_app. split.
      * destruct (by_sender mp !! from tx) as [L|] eqn:EL; simpl; [|constructor].
        apply Forall_forall. intros h Hh.
        pose proof (proj1 (Forall_forall _ _) (proj2 (Hs1 _ _ EL)) h Hh) as Hp.
        cbv beta in Hp.
        rewrite lookup_insert_ne by exact (fmap_some_ne _ _ _ _ _ Hp Hnew). exact Hp.
      * constructor; [|constructor]. rewrite lookup_insert_eq. reflexivity.
    + rewrite lookup_insert_ne in Ha by congruence.
      destruct (Hs1 _ _ Ha) as [Hne Hall]. split; [exact Hne|].
      apply Forall_forall. intros h Hh.
      pose proof (proj1 (Forall_forall _ _) Hall h Hh) as Hp. cbv beta in Hp.
      rewrite lookup_insert_ne by exact (fmap_some_ne _ _ _ _ _ Hp Hnew). exact Hp.
  - intros h t Ht. destruct (decide (h = hash)) as [->|Nh].
    + rewrite lookup_insert_eq in Ht. injection Ht as <-.
      rewrite lookup_insert_eq. simpl. apply elem_of_app. right. constructor.
    + rewrite lookup_insert_ne in Ht by congruence. pose proof (Hs2 _ _ Ht) as Hin.
      destruct (decide (from t = from tx)) as [E|E].
      * rewrite E in Hin |- *. rewrite lookup_insert_eq. simpl.
        apply elem_of_app. left. exact Hin.
      * rewrite lookup_insert_ne by congruence. exact Hin.
Qed.

Lemma remove_wf `{Crypto} (mp : Mempool) (hash : list Z) :
  mempool_wf mp -> mempool_wf (snd (remove mp hash)).
Proof.
  intros Hwf. unfold remove.
  destruct (pool_transactions mp !! hash) as [tx|] eqn:Etx; [|exact Hwf].
  destruct Hwf as [[Hf1 Hf2] [Hs1 Hs2]].
  unfold mempool_wf, pool_wf, sender_wf, map_Forall, set_Forall in *.
  cbn [snd pool_transactions by_fee by_sender].
  (* lookups in the pool after the deletion *)
  assert (Hpool : forall h, h <> hash -> delete hash (pool_transactions mp) !! h
                                        = pool_transactions mp !! h)
    by (intros h Nh; apply lookup_delete_ne; congruence).
  split_and!.
  - intros k hs Hk.
    assert (Hold : forall HS h, by_fee mp !! k = Some HS -> h ∈ HS -> k <> fee tx ->
              fee <$> delete hash (pool_transactions mp) !! h = Some k).
    { intros HS h EHS Hh Nk. pose proof (proj2 (Hf1 _ _ EHS) h Hh) as Hp.
      rewrite Hpool; [exact Hp|]. intros ->. rewrite Etx in Hp. simpl in Hp. congruence. }
    destruct (by_fee mp !! fee tx) as [HS|] eqn:EHS.
    + case_bool_decide as Hemp.
      * destruct (decide (k = fee tx)) as [->|Nk];
          [rewrite lookup_delete_eq in Hk; discriminate|].
        rewrite lookup_delete_ne in Hk by congruence.
        split; [exact (proj1 (Hf1 _ _ Hk))|]. intros h Hh. exact (Hold _ _ Hk Hh Nk).
      * destruct (decide (k = fee tx)) as [->|Nk].
        -- rewrite lookup_insert_eq in Hk. injection Hk as <-. split; [exact Hemp|].
           intros h Hh. apply elem_of_difference in Hh as [Hh Nh].
           rewrite Hpool by set_solver. exact (proj2 (Hf1 _ _ EHS) h Hh).
        -- rewrite lookup_insert_ne in Hk by congruence.
           split; [exact (proj1 (Hf1 _ _ Hk))|]. intros h Hh. exact (Hold _ _ Hk Hh Nk).
    + split; [exact (proj1 (Hf1 _ _ Hk))|]. intros h Hh.
      destruct (decide (k = fee tx)) as [->|Nk]; [congruence|].
      exact (Hold _ _ Hk Hh Nk).
  - intros h t Ht. destruct (decide (h = hash)) as [->|Nh];
      [rewrite lookup_delete_eq in Ht; discriminate|].
    rewrite Hpool in Ht by exact Nh. pose proof (Hf2 _ _ Ht) as Hin.
    destruct (by_fee mp !! fee tx) as [HS|] eqn:EHS; [|exact Hin].
    destruct (decide (fee t = fee tx)) as [E|E].
    + rewrite E, EHS in Hin. simpl in Hin. rewrite E.
      case_bool_decide as Hemp.
      * exfalso. assert (h ∈ HS ∖ {[hash]}) by set_solver. set_solver.
      * rewrite lookup_insert_eq. simpl. set_solver.
    + case_bool_decide.
      * rewrite lookup_delete_ne by congruence. exact Hin.
      * rewrite lookup_insert_ne by congruence. exact Hin.
  - intros a l Ha.
    assert (Hold : forall L, by_sender mp !! a = Some L -> a <> from tx ->
              Forall (fun h => from <$> delete hash (pool_transactions mp) !! h = Some a) L).
    { intros L EL Na. apply Forall_forall. intros h Hh.
      pose proof (proj1 (Forall_forall _ _) (proj2 (Hs1 _ _ EL)) h Hh) as Hp. cbv beta in Hp.
      rewrite Hpool; [exact Hp|]. intros ->. rewrite Etx in Hp. simpl in Hp. congruence. }
    destruct (by_sender mp !! from tx) as [L|] eqn:EL.
    + case_bool_decide as Hemp.
      * destruct (decide (a = from tx)) as [->|Na];
          [rewrite lookup_delete_eq in Ha; discriminate|].
        rewrite lookup_delete_ne in Ha by congruence.
        split; [exact (proj1 (Hs1 _ _ Ha))|]. exact (Hold _ Ha Na).
      * destruct (decide (a = from tx)) as [->|Na].
        -- rewrite lookup_insert_eq in Ha. injection Ha as <-. split; [exact Hemp|].
           apply Forall_forall. intros h Hh. apply list_elem_of_filter in Hh as [Nh Hh].
           rewrite Hpool by exact Nh.
           exact (proj1 (Forall_forall _ _) (proj2 (Hs1 _ _ EL)) h Hh).
        -- rewrite lookup_insert_ne in Ha by congruence.
           split; [exact (proj1 (Hs1 _ _ Ha))|]. exact (Hold _ Ha Na).
    + split; [exact (proj1 (Hs1 _ _ Ha))|].
      destruct (decide (a = from tx)) as [->|Na]; [congruence|]. exact (Hold _ Ha Na).
  - intros h t Ht. destruct (decide (h = hash)) as [->|Nh];
      [rewrite lookup_delete_eq in Ht; discriminate|].
    rewrite Hpool in Ht by exact Nh. pose proof (Hs2 _ _ Ht) as Hin.
    destruct (by_sender mp !! from tx) as [L|] eqn:EL; [|exact Hin].
    destruct (decide (from t = from tx)) as [E|E].
    + rewrite E, EL in Hin. simpl in Hin. rewrite E.
      assert (Hf : h ∈ filter (fun h => h ≠ hash) L) by (apply list_elem_of_filter; auto).
      case_bool_decide as Hemp.
      * exfalso. rewrite Hemp in Hf. apply not_elem_of_nil in Hf. exact Hf.
      * rewrite lookup_insert_eq. exact Hf.
    + case_bool_decide.
      * rewrite lookup_delete_ne by congruence. exact Hin.
      * rewrite lookup_insert_ne by congruence. exact Hin.
Qed.

Lemma remove_pool `{Crypto} (mp : Mempool) (hash : list Z) :
  pool_transactions (snd (remove mp hash)) = delete hash (pool_transactions mp).
Proof.
  unfold remove. destruct (pool_transactions mp !! hash) eqn:E; [reflexivity|].
  simpl. symmetry. apply delete_id. exact E.
Qed.

Lemma remove_limits `{Crypto} (mp : Mempool) (hash : list Z) :
  max_size (snd (remove mp hash)) = max_size mp /\
  max_tx_size (snd (remove mp hash)) = max_tx_size mp.
Proof.
  unfold remove. destruct (pool_transactions mp !! hash); split; reflexivity.
Qed.

Section PoolProofs.
Context `{Crypto}.
Variable set_first : gset (list Z) -> option (list Z).

Lemma evict_cases (mp : Mempool) :
  evict_lowest_fee set_first mp = mp \/
  exists h, evict_lowest_fee set_first mp = snd (remove mp h).
Proof.
  unfold evict_lowest_fee. repeat case_match; eauto.
Qed.

Lemma add_cases (mp : Mempool) (tx : Transaction) :
  (exists e, add set_first mp tx = (Err e, mp)) \/
  (pool_transactions mp !! tx_hash tx = None /\
   (tx_nullifier tx ∉ nullifiers mp) /\
   (exists mp1, (mp1 = mp \/ exists h, mp1 = snd (remove mp h)) /\
     add set_first mp tx = (Ok tt, insert_indexes mp1 tx (tx_hash tx) (tx_nullifier tx)) /\
     (Z.of_nat (size (pool_transactions mp)) < max_size mp -> mp1 = mp))).
Proof.
  unfold add.
  destruct (_ >? _); [left; eexists; reflexivity|].
  case_bool_decide as Hd; [left; eexists; reflexivity|].
  case_bool_decide as Hn; [left; eexists; reflexivity|].
  assert (Hnew : pool_transactions mp !! tx_hash tx = None)
    by (destruct (pool_transactions mp !! tx_hash tx); [exfalso; apply Hd; eauto|reflexivity]).
  destruct (Z.geb_spec (Z.of_nat (size (pool_transactions mp))) (max_size mp)) as [Hge|Hlt].
  - destruct (btree_first_key (by_fee mp)) as [k|].
    + destruct (fee tx <=? k); [left; eexists; reflexivity|].
      right. split_and!; [exact Hnew|exact Hn|].
      exists (evict_lowest_fee set_first mp). split_and!; [apply evict_cases|reflexivity|lia].
    + right. split_and!; [exact Hnew|exact Hn|].
      exists mp. split_and!; [left; reflexivity|reflexivity|reflexivity].
  - right. split_and!; [exact Hnew|exact Hn|].
    exists mp. split_and!; [left; reflexivity|reflexivity|reflexivity].
Qed.

Lemma add_wf (mp : Mempool) (tx : Transaction) :
  mempool_wf mp -> mempool_wf (snd (add set_first mp tx)).
Proof.
  intros Hwf. destruct (add_cases mp tx) as [[e ->]|(Hnew & _ & mp1 & Hmp1 & -> & _)]; [exact Hwf|].
  simpl. apply insert_indexes_wf.
  - destruct Hmp1 as [->|[h ->]]; [exact Hwf|apply remove_wf, Hwf].
  - destruct Hmp1 as [->|[h ->]]; [exact Hnew|].
    rewrite remove_pool. apply lookup_delete_None. right. exact Hnew.
Qed.

End PoolProofs.

(** X14: Mempool::add, evict_lowest_fee and remove keep the fee index and
    the sender index consistent with the transaction map (mempool_wf),
    whatever element HashSet iteration yields first. *)
Theorem mempool_ops_keep_wf `{Crypto} (set_first : gset (list Z) -> option (list Z))
    (mp : Mempool) (tx : Transaction) (hash : list Z) :
  mempool_wf mp ->
  mempool_wf (snd (add set_first mp tx)) /\
  mempool_wf (evict_lowest_fee set_first mp) /\
  mempool_wf (snd (remove mp hash)).
Proof.
  intros Hwf. split_and!.
  - apply add_wf, Hwf.
  - destruct (evict_cases set_first mp) as [->|[h ->]]; [exact Hwf|apply remove_wf, Hwf].
  - apply remove_wf, Hwf.
Qed.

Lemma filter_all_id (P : list Z -> Prop) `{forall x, Decision (P x)} (l : list (list Z)) :
  (forall x, x ∈ l -> P x) -> filter P l = l.
Proof.
  induction l as [|x l IH]; intros Hall; [reflexivity|].
  rewrite filter_cons_True by (apply Hall; constructor).
  rewrite IH; [reflexivity|]. intros y Hy. apply Hall. constructor. exact Hy.
Qed.

(** X15: on a consistent pool that is not full, removing the hash of a
    transaction just accepted by add returns that transaction and gives back
    exactly the pool before the add (transactions, both indexes, nullifiers
    and limits). *)
Theorem add_remove_roundtrip `{Crypto} (set_first : gset (list Z) -> option (list Z))
    (mp mp1 : Mempool) (tx : Transaction) :
  mempool_wf mp -> pool_len mp < max_size mp ->
  add set_first mp tx = (Ok tt, mp1) ->
  remove mp1 (tx_hash tx) = (Some tx, mp).
Proof.
  intros Hwf Hlt Hadd.
  destruct (add_cases set_first mp tx) as [[e He]|(Hnew & Hnul & mp2 & _ & Hadd2 & Hnf)];
    [congruence|].
  rewrite Hnf in Hadd2 by exact Hlt. rewrite Hadd in Hadd2. injection Hadd2 as ->.
  destruct Hwf as [[Hf1 Hf2] [Hs1 Hs2]].
  unfold map_Forall, set_Forall in *.
  unfold remove, insert_indexes. cbn [pool_transactions by_fee by_sender nullifiers max_size max_tx_size].
  rewrite lookup_insert_eq. rewrite !lookup_insert_eq.
  f_equal. destruct mp as [P BF BS N ms mts]. cbn [pool_transactions by_fee by_sender nullifiers] in *.
  f_equal.
  - rewrite delete_insert_eq. apply delete_id. exact Hnew.
  - destruct (BF !! fee tx) as [D|] eqn:ED; simpl.
    + assert (HnD : tx_hash tx ∉ D).
      { intros Hin. pose proof (proj2 (Hf1 _ _ ED) _ Hin) as Hp. rewrite Hnew in Hp. discriminate. }
      replace (({[tx_hash tx]} ∪ D) ∖ {[tx_hash tx]}) with D by (apply leibniz_equiv; set_solver).
      rewrite bool_decide_eq_false_2 by exact (proj1 (Hf1 _ _ ED)).
      rewrite insert_insert_eq. apply insert_id. exact ED.
    + replace (({[tx_hash tx]} ∪ ∅) ∖ {[tx_hash tx]}) with (∅ : gset (list Z)) by (apply leibniz_equiv; set_solver).
      rewrite bool_decide_eq_true_2 by reflexivity.
      rewrite delete_insert_eq. apply delete_id. exact ED.
  - destruct (BS !! from tx) as [L|] eqn:EL; simpl.
    + assert (HL : filter (fun h => h ≠ tx_hash tx) (L ++ [tx_hash tx]) = L).
      { rewrite filter_app, (filter_singleton_False _ (tx_hash tx) []) by (intros Hc; cbv beta in Hc; congruence).
        rewrite app_nil_r. apply filter_all_id. intros h Hh ->.
        pose proof (proj1 (Forall_forall _ _) (proj2 (Hs1 _ _ EL)) _ Hh) as Hp.
        cbv beta in Hp. rewrite Hnew in Hp. discriminate. }
      rewrite HL. rewrite bool_decide_eq_false_2 by exact (proj1 (Hs1 _ _ EL)).
      rewrite insert_insert_eq. apply insert_id. exact EL.
    + rewrite (filter_singleton_False _ (tx_hash tx) []) by (intros Hc; cbv beta in Hc; congruence).
      rewrite bool_decide_eq_true_2 by reflexivity.
      rewrite delete_insert_eq. apply delete_id. exact EL.
  - apply leibniz_equiv. set_solver.
Qed.

Lemma size_delete_Some {A} (m : gmap (list Z) A) (h : list Z) (t : A) :
  m !! h = Some t -> size m = S (size (delete h m)).
Proof.
  intros Hm. pose proof (map_size_insert_None (A := A) h t (delete h m) (lookup_delete_eq m h)) as E.
  rewrite insert_delete_eq, insert_id in E by exact Hm. exact E.
Qed.

(** X16: on a consistent pool, add grows the pool by one, except when it
    accepts into a full non-empty pool, where an eviction keeps the size; a
    failed add keeps the size. Hence a pool holding at most max(max_size, 1)
    transactions keeps that bound (a max_size of 0 still admits one
    transaction). *)
Theorem add_len `{Crypto} (set_first : gset (list Z) -> option (list Z))
    (Hsf_in : forall s h, set_first s = Some h -> h ∈ s)
    (Hsf_some : forall s, s ≠ ∅ -> set_first s ≠ None)
    (mp : Mempool) (tx : Transaction) :
  mempool_wf mp ->
  let '(r, mp') := add set_first mp tx in
  pool_len mp' =
    (if is_ok r then
       if (0 <? pool_len mp) && (max_size mp <=? pool_len mp) then pool_len mp
       else pool_len mp + 1
     else pool_len mp) /\
  (pool_len mp <= Z.max (max_size mp) 1 -> pool_len mp' <= Z.max (max_size mp) 1).
Proof.
  intros Hwf. pose proof Hwf as [[Hf1 Hf2] _].
  unfold map_Forall, set_Forall in Hf1, Hf2.
  unfold add, pool_len.
  destruct (_ >? max_tx_size mp); [cbn; lia|].
  case_bool_decide as Hdup; [cbn; lia|].
  case_bool_decide as Hnul; [cbn; lia|].
  assert (Hnew : pool_transactions mp !! tx_hash tx = None)
    by (destruct (pool_transactions mp !! tx_hash tx); [exfalso; apply Hdup; eauto|reflexivity]).
  assert (Hins : forall mp1, pool_transactions mp1 !! tx_hash tx = None ->
            Z.of_nat (size (pool_transactions (insert_indexes mp1 tx (tx_hash tx) (tx_nullifier tx))))
            = Z.of_nat (size (pool_transactions mp1)) + 1).
  { intros mp1 E. unfold insert_indexes. cbn [pool_transactions].
    rewrite map_size_insert_None by exact E. lia. }
  destruct (Z.of_nat (size (pool_transactions mp)) >=? max_size mp) eqn:Efull.
  - pose proof (btree_first_key_spec (by_fee mp)) as Hbk.
    destruct (btree_first_key (by_fee mp)) as [lowest|] eqn:Elow.
    + destruct (fee tx <=? lowest); [cbn; lia|].
      destruct Hbk as [[hs Ehs] _].
      destruct (Hf1 _ _ Ehs) as [Hne Hall].
      unfold evict_lowest_fee. rewrite Elow, Ehs.
      destruct (set_first hs) as [h|] eqn:Eh; [|exfalso; exact (Hsf_some _ Hne Eh)].
      pose proof (Hall h (Hsf_in _ _ Eh)) as Hp.
      destruct (pool_transactions mp !! h) as [t|] eqn:Et; [|discriminate].
      pose proof (size_delete_Some _ _ _ Et) as Hsz.
      rewrite Hins by (rewrite remove_pool, lookup_delete_None; right; exact Hnew).
      rewrite remove_pool. cbn [is_ok].
      rewrite Hsz in Efull |- *. apply Z.geb_le in Efull.
      replace ((0 <? _) && _) with true by (symmetry; apply andb_true_iff; split; [apply Z.ltb_lt|apply Z.leb_le]; lia).
      lia.
    + rewrite Hins by exact Hnew. cbn [is_ok].
      destruct (decide (pool_transactions mp = ∅)) as [Ep|Ep].
      * rewrite Ep, map_size_empty. cbn [Z.of_nat Z.ltb andb]. split; [reflexivity|lia].
      * exfalso. apply map_choose in Ep as (i & x & Hi).
        pose proof (Hf2 i x Hi) as Hin. rewrite Hbk, lookup_empty in Hin.
        simpl in Hin. set_solver.
  - rewrite Hins by exact Hnew. cbn [is_ok]. rewrite Z.geb_leb, Z.leb_gt in Efull.
    replace ((0 <? _) && _) with false by (symmetry; apply andb_false_iff; right; apply Z.leb_gt; lia).
    lia.
Qed.

Lemma take_mining_take (pool : gmap (list Z) Transaction) (mc : Z) (acc : list Transaction)
    (hs : list (list Z)) :
  Z.of_nat (length acc) < Z.max mc 1 ->
  take_mining pool mc acc hs =
    acc ++ take (Z.to_nat (Z.max mc 1) - length acc) (omap (fun h => pool !! h) hs).
Proof.
  revert acc. induction hs as [|h hs IH]; intros acc Hlt; simpl.
  - rewrite take_nil, app_nil_r. reflexivity.
  - destruct (pool !! h) as [t|] eqn:Et.
    + rewrite length_app; simpl.
      destruct (Z.of_nat (length acc + 1) >=? mc) eqn:Ec.
      * rewrite Z.geb_le in Ec.
        replace (Z.to_nat (Z.max mc 1) - length acc)%nat with 1%nat by lia.
        simpl. reflexivity.
      * rewrite Z.geb_leb, Z.leb_gt in Ec.
        rewrite IH by (rewrite length_app; simpl; lia).
        rewrite <- app_assoc. f_equal.
        replace (Z.to_nat (Z.max mc 1) - length acc)%nat
          with (S (Z.to_nat (Z.max mc 1) - length (acc ++ [t])))
          by (rewrite length_app; simpl; lia).
        reflexivity.
    + apply IH. exact Hlt.
Qed.

Lemma StronglySorted_reverse {A} (R : relation A) (l : list A) :
  StronglySorted R l -> StronglySorted (fun x y => R y x) (reverse l).
Proof.
  induction l as [|x l IH]; intros Hs; [constructor|].
  apply StronglySorted_inv in Hs as [Hs Hx].
  rewrite reverse_cons. apply StronglySorted_app. split_and!.
  - intros x1 x2 Hx1 Hx2. apply list_elem_of_singleton in Hx2 as ->.
    rewrite elem_of_reverse in Hx1. rewrite Forall_forall in Hx. exact (Hx x1 Hx1).
  - apply IH, Hs.
  - repeat constructor.
Qed.

Lemma by_fee_desc_spec (m : gmap Z (gset (list Z))) :
  NoDup ((by_fee_desc m).*1) /\
  (forall k s, (k, s) ∈ by_fee_desc m <-> m !! k = Some s) /\
  StronglySorted (fun a b => b.1 <= a.1) (by_fee_desc m).
Proof.
  unfold by_fee_desc. split_and!.
  - rewrite fmap_reverse, reverse_Permutation, merge_sort_Permutation.
    apply NoDup_fst_map_to_list.
  - intros k s. rewrite elem_of_reverse, <- elem_of_map_to_list.
    rewrite merge_sort_Permutation. reflexivity.
  - apply (StronglySorted_reverse fee_le). apply StronglySorted_merge_sort.
    + intros a b c; unfold fee_le; lia.
    + intros a b; unfold fee_le; lia.
Qed.

Lemma omap_all_length {A B} (f : A -> option B) (l : list A) :
  (forall x, x ∈ l -> is_Some (f x)) -> length (omap f l) = length l.
Proof.
  induction l as [|x l IH]; intros Hall; [reflexivity|]. simpl.
  destruct (Hall x (list_elem_of_here _ _)) as [y Hy]. rewrite Hy. simpl.
  f_equal. apply IH. intros z Hz. apply Hall. right. exact Hz.
Qed.

Section Buckets.
Variable set_list : gset (list Z) -> list (list Z).
Hypothesis Hsl : forall s, NoDup (set_list s) /\ forall h, h ∈ set_list s <-> h ∈ s.
Variable pool : gmap (list Z) Transaction.

Lemma concat_buckets (ps : list (Z * gset (list Z))) :
  NoDup ps.*1 ->
  (forall k s, (k, s) ∈ ps -> forall h, h ∈ s -> fee <$> pool !! h = Some k) ->
  NoDup (concat (map (fun kv => set_list kv.2) ps)) /\
  (forall h, h ∈ concat (map (fun kv => set_list kv.2) ps) <->
             exists k s, (k, s) ∈ ps /\ h ∈ s).
Proof.
  induction ps as [|[k s] ps IH]; intros Hnd Hb; simpl.
  - split; [constructor|]. intros h; split; [intros Hh; inversion Hh|].
    intros (k & s & Hin & _). inversion Hin.
  - apply NoDup_cons in Hnd as [Hk Hnd].
    destruct IH as [IHnd IHin]; [exact Hnd|intros; eapply Hb; [right|]; eauto|].
    destruct (Hsl s) as [Hsnd Hsin]. split.
    + apply NoDup_app. split_and!; [exact Hsnd| |exact IHnd].
      intros h Hh1 Hh2. apply Hsin in Hh1. apply IHin in Hh2 as (k' & s' & Hin' & Hh').
      pose proof (Hb k s (list_elem_of_here _ _) h Hh1) as E1.
      pose proof (Hb k' s' (list_elem_of_further _ _ _ Hin') h Hh') as E2.
      rewrite E1 in E2. injection E2 as Ekk. subst k'. apply Hk.
      apply list_elem_of_fmap. exists (k, s'). split; [reflexivity|exact Hin'].
    + intros h. rewrite elem_of_app, Hsin, IHin. split.
      * intros [Hh|(k' & s' & Hin' & Hh')]; [exists k, s; split; [left|]; auto|].
        exists k', s'. split; [right|]; auto.
      * intros (k' & s' & Hin' & Hh'). apply elem_of_cons in Hin' as [E|Hin'].
        -- injection E as -> ->. left. exact Hh'.
        -- right. eauto.
Qed.

Lemma same_fee_sorted (k : Z) (l : list Transaction) :
  (forall t, t ∈ l -> fee t = k) -> StronglySorted (fun t1 t2 => fee t2 <= fee t1) l.
Proof.
  induction l as [|t l IH]; intros Hall; constructor.
  - apply IH. intros t' Ht'. apply Hall. right. exact Ht'.
  - apply Forall_forall. intros t' Ht'.
    rewrite (Hall t (list_elem_of_here _ _)), (Hall t' (list_elem_of_further _ _ _ Ht')). lia.
Qed.

Lemma concat_buckets_sorted (ps : list (Z * gset (list Z))) :
  StronglySorted (fun a b => b.1 <= a.1) ps ->
  (forall k s, (k, s) ∈ ps -> forall h, h ∈ s -> fee <$> pool !! h = Some k) ->
  StronglySorted (fun t1 t2 => fee t2 <= fee t1)
    (omap (fun h => pool !! h) (concat (map (fun kv => set_list kv.2) ps))).
Proof.
  induction ps as [|[k s] ps IH]; intros Hs Hb; simpl; [constructor|].
  apply StronglySorted_inv in Hs as [Hs Hk]. rewrite omap_app.
  assert (Hfk : forall t, t ∈ omap (fun h => pool !! h) (set_list s) -> fee t = k).
  { intros t Ht. apply list_elem_of_omap in Ht as (h & Hh & Ht).
    apply (Hsl s) in Hh. pose proof (Hb k s (list_elem_of_here _ _) h Hh) as E.
    rewrite Ht in E. injection E as E. exact E. }
  apply StronglySorted_app. split_and!.
  - intros t1 t2 Ht1 Ht2. rewrite (Hfk t1 Ht1).
    apply list_elem_of_omap in Ht2 as (h & Hh & Ht2).
    apply list_elem_of_In, in_concat in Hh as (l' & Hl' & Hh).
    apply in_map_iff in Hl' as ([k' s'] & <- & Hin'). simpl in Hh.
    apply list_elem_of_In, (Hsl s') in Hh. apply list_elem_of_In in Hin'.
    pose proof (Hb k' s' (list_elem_of_further _ _ _ Hin') h Hh) as E.
    rewrite Ht2 in E. injection E as E. rewrite E.
    rewrite Forall_forall in Hk. exact (Hk _ Hin').
  - apply (same_fee_sorted k). exact Hfk.
  - apply IH; [exact Hs|]. intros; eapply Hb; [right|]; eauto.
Qed.
End Buckets.

(** X17: on a consistent pool, get_for_mining(max_count) returns
    min(max(max_count, 1), len) pool transactions (one even when max_count
    is 0), in non-increasing fee order, and no pool transaction left out has
    a higher fee than one returned. *)
Theorem get_for_mining_spec (set_list : gset (list Z) -> list (list Z))
    (Hsl : forall s, NoDup (set_list s) /\ forall h, h ∈ set_list s <-> h ∈ s)
    (mp : Mempool) (max_count : Z) :
  pool_wf mp ->
  let res := get_for_mining set_list mp max_count in
  Z.of_nat (length res) = Z.min (Z.max max_count 1) (pool_len mp) /\
  StronglySorted (fun t1 t2 => fee t2 <= fee t1) res /\
  (forall t, t ∈ res -> exists h, pool_transactions mp !! h = Some t) /\
  (forall h t, pool_transactions mp !! h = Some t -> t ∉ res ->
     forall t', t' ∈ res -> fee t <= fee t').
Proof.
  intros [Hf1 Hf2]. unfold map_Forall, set_Forall in Hf1, Hf2.
  destruct (by_fee_desc_spec (by_fee mp)) as (Hnd & Hin & Hsorted).
  set (ps := by_fee_desc (by_fee mp)) in *.
  assert (Hb : forall k s, (k, s) ∈ ps -> forall h, h ∈ s ->
                 fee <$> pool_transactions mp !! h = Some k).
  { intros k s Hks h Hh. apply Hin in Hks. exact (proj2 (Hf1 _ _ Hks) h Hh). }
  destruct (concat_buckets set_list Hsl (pool_transactions mp) ps Hnd Hb) as [HLnd HLin].
  pose proof (concat_buckets_sorted set_list Hsl (pool_transactions mp) ps Hsorted Hb) as HLs.
  set (L := concat (map (fun kv => set_list kv.2) ps)) in *.
  assert (HLdom : forall h, h ∈ L <-> is_Some (pool_transactions mp !! h)).
  { intros h. rewrite HLin. split.
    - intros (k & s & Hks & Hh). pose proof (Hb k s Hks h Hh) as E.
      destruct (pool_transactions mp !! h); [eexists; reflexivity|discriminate].
    - intros [t Ht]. pose proof (Hf2 h t Ht) as Hh.
      destruct (by_fee mp !! fee t) as [s|] eqn:Es; simpl in Hh; [|set_solver].
      exists (fee t), s. split; [apply Hin; exact Es|exact Hh]. }
  set (L' := omap (fun h => pool_transactions mp !! h) L) in *.
  assert (HL'in : forall t, t ∈ L' <-> exists h, pool_transactions mp !! h = Some t).
  { intros t. unfold L'. rewrite list_elem_of_omap. split.
    - intros (h & _ & Ht). eauto.
    - intros (h & Ht). exists h. split; [apply HLdom; eauto|exact Ht]. }
  assert (HL'len : length L' = size (pool_transactions mp)).
  { unfold L'. rewrite omap_all_length by (intros h Hh; apply HLdom, Hh).
    rewrite <- (size_list_to_set (C := gset (list Z)) L HLnd), <- size_dom.
    f_equal. apply set_eq. intros h. rewrite elem_of_list_to_set, elem_of_dom. apply HLdom. }
  cbv zeta. unfold get_for_mining. fold ps. fold L.
  rewrite take_mining_take by (simpl; lia). simpl. fold L'.
  rewrite Nat.sub_0_r.
  pose proof (take_drop (Z.to_nat (Z.max max_count 1)) L') as Htd.
  split_and!.
  - rewrite length_take, HL'len. unfold pool_len. lia.
  - rewrite <- Htd in HLs. apply StronglySorted_app in HLs. apply HLs.
  - intros t Ht. apply HL'in. apply elem_of_take in Ht as (i & Hi & _).
    apply list_elem_of_lookup_2 in Hi. exact Hi.
  - intros h t Ht Hnot t' Ht'.
    assert (Hd : t ∈ drop (Z.to_nat (Z.max max_count 1)) L').
    { assert (Hall : t ∈ L') by (apply HL'in; eauto).
      rewrite <- Htd in Hall. apply elem_of_app in Hall as [?|?]; [contradiction|assumption]. }
    rewrite <- Htd in HLs. apply StronglySorted_app in HLs as [Hx _].
    exact (Hx t' t Ht' Hd).
Qed.

(** X18: remove_batch keeps the pool consistent, removes exactly the listed
    hashes from the transaction map (unknown hashes are ignored) and keeps
    max_size. *)
Theorem remove_batch_spec `{Crypto} (mp : Mempool) (hashes : list (list Z)) :
  mempool_wf mp ->
  mempool_wf (remove_batch mp hashes) /\
  (forall h, pool_transactions (remove_batch mp hashes) !! h =
             if decide (h ∈ hashes) then None else pool_transactions mp !! h) /\
  max_size (remove_batch mp hashes) = max_size mp.
Proof.
  unfold remove_batch. revert mp. induction hashes as [|x xs IH]; intros mp Hwf; simpl.
  - split_and!; [exact Hwf| |reflexivity].
    intros h. reflexivity.
  - destruct (IH _ (remove_wf mp x Hwf)) as (Hwf' & Hlk & Hms).
    split_and!; [exact Hwf'| |].
    + intros h. rewrite Hlk, remove_pool.
      case_decide as Hx; case_decide as Hx'; rewrite elem_of_cons in Hx'.
      * reflexivity.
      * exfalso. tauto.
      * destruct Hx' as [->|Hx']; [apply lookup_delete_eq|contradiction].
      * apply lookup_delete_ne. intros ->. tauto.
    + rewrite Hms. apply remove_limits.
Qed.

(** X19: on a consistent pool, get_by_sender(a) returns exactly the pool
    transactions whose sender is a (an empty list for an unknown sender). *)
Theorem get_by_sender_members (mp : Mempool) (a : list Z) :
  mempool_wf mp ->
  forall t, t ∈ get_by_sender mp a <->
            exists h, pool_transactions mp !! h = Some t /\ from t = a.
Proof.
  intros [_ [Hs1 Hs2]] t. unfold map_Forall in Hs1, Hs2. unfold get_by_sender.
  destruct (by_sender mp !! a) as [L|] eqn:EL.
  - rewrite list_elem_of_omap. split.
    + intros (h & Hh & Ht). exists h. split; [exact Ht|].
      pose proof (proj1 (Forall_forall _ _) (proj2 (Hs1 _ _ EL)) h Hh) as Hp.
      cbv beta in Hp. rewrite Ht in Hp. injection Hp as Hp. exact Hp.
    + intros (h & Ht & <-). exists h. split; [|exact Ht].
      pose proof (Hs2 h t Ht) as Hin. rewrite EL in Hin. exact Hin.
  - split; [intros Hin; inversion Hin|].
    intros (h & Ht & <-). pose proof (Hs2 h t Ht) as Hin. rewrite EL in Hin.
    inversion Hin.
Qed.

Lemma omap_insert_fresh (pool : gmap (list Z) Transaction) (hash : list Z) (tx : Transaction)
    (l : list (list Z)) :
  pool !! hash = None -> (forall h, h ∈ l -> is_Some (pool !! h)) ->
  omap (fun h => <[hash := tx]> pool !! h) l = omap (fun h => pool !! h) l.
Proof.
  intros Hnew. induction l as [|h l IH]; intros Hall; [reflexivity|].
  change (omap ?f (h :: l)) with (match f h with Some y => y :: omap f l | None => omap f l end).
  cbv beta.
  rewrite lookup_insert_ne.
  - rewrite IH; [reflexivity|]. intros h' Hh'. apply Hall. right. exact Hh'.
  - intros E. subst h. destruct (Hall hash (list_elem_of_here _ _)) as [y Hy]. congruence.
Qed.

(** X20: when add accepts a transaction into a consistent, non-full pool,
    get_by_sender of its sender returns the previous list with the new
    transaction appended, and get_by_sender of every other address is
    unchanged. *)
Theorem add_get_by_sender `{Crypto} (set_first : gset (list Z) -> option (list Z))
    (mp mp' : Mempool) (tx : Transaction) :
  mempool_wf mp -> pool_len mp < max_size mp ->
  add set_first mp tx = (Ok tt, mp') ->
  get_by_sender mp' (from tx) = get_by_sender mp (from tx) ++ [tx] /\
  (forall a, a <> from tx -> get_by_sender mp' a = get_by_sender mp a).
Proof.
  intros Hwf Hlt Hadd.
  destruct (add_cases set_first mp tx) as [[e He]|(Hnew & _ & mp2 & _ & Hadd2 & Hnf)];
    [congruence|].
  rewrite Hnf in Hadd2 by exact Hlt. rewrite Hadd in Hadd2. injection Hadd2 as ->.
  destruct Hwf as [_ [Hs1 _]]. unfold map_Forall in Hs1.
  assert (Hsome : forall a L, by_sender mp !! a = Some L ->
                    forall h, h ∈ L -> is_Some (pool_transactions mp !! h)).
  { intros a L EL h Hh.
    pose proof (proj1 (Forall_forall _ _) (proj2 (Hs1 _ _ EL)) h Hh) as Hp.
    cbv beta in Hp. destruct (pool_transactions mp !! h); [eexists; reflexivity|discriminate]. }
  unfold get_by_sender, insert_indexes. cbn [by_sender pool_transactions]. split.
  - rewrite lookup_insert_eq. destruct (by_sender mp !! from tx) as [L|] eqn:EL; simpl.
    + rewrite omap_app. rewrite omap_insert_fresh by eauto. simpl.
      rewrite lookup_insert_eq. reflexivity.
    + rewrite lookup_insert_eq. reflexivity.
  - intros a Na. rewrite lookup_insert_ne by congruence.
    destruct (by_sender mp !! a) as [L|] eqn:EL; [|reflexivity].
    apply omap_insert_fresh; eauto.
Qed.

(* Witnesses *)

Lemma calculate_total_supply_prefix_witness :
  0 <= 5 <= U64_MAX /\ calculate_total_supply 5 = reward_prefix (Z.to_nat 5).
Proof.
  split; [unfold U64_MAX; lia|]. apply calculate_total_supply_prefix. unfold U64_MAX; lia.
Defined.

Lemma calculate_total_supply_limit_witness :
  0 <= 5 <= 50000000 /\ 50000000 <= U64_MAX /\
  (calculate_total_supply 5 <= calculate_total_supply 50000000 <= 12399999986360000 /\
   (33 * HALVING_INTERVAL <= 5 -> calculate_total_supply 5 = 12399999986360000)).
Proof.
  split; [lia|split; [unfold U64_MAX; lia|]].
  apply calculate_total_supply_limit; [lia|unfold U64_MAX; lia].
Defined.

Lemma remaining_supply_floor_witness :
  0 <= 5 <= U64_MAX /\
  (remaining_supply 5 = TOTAL_SUPPLY - calculate_total_supply 5 /\
   111600000013640000 <= remaining_supply 5).
Proof.
  split; [unfold U64_MAX; lia|]. apply remaining_supply_floor. unfold U64_MAX; lia.
Defined.

Lemma blocks_until_halving_next_era_witness :
  0 <= 1240005 /\
  (let b := blocks_until_halving 1240005 in
   1 <= b <= HALVING_INTERVAL /\
   (1240005 + b) mod HALVING_INTERVAL = 0 /\
   (1240005 + b) / HALVING_INTERVAL = 1240005 / HALVING_INTERVAL + 1 /\
   (forall i, 1240005 <= i < 1240005 + b -> get_mining_reward i = get_mining_reward 1240005)).
Proof. split; [lia|]. apply blocks_until_halving_next_era. lia. Defined.

Lemma EraStats_for_height_range_witness :
  0 <= 1240005 <= U64_MAX /\
  (let st := EraStats_for_height 1240005 in
   es_reward st = Z.shiftr INITIAL_REWARD (es_era st) /\
   es_total_era_supply st
     = reward_prefix (Z.to_nat (es_end_height st))
       - reward_prefix (Z.to_nat (es_start_height st)) /\
   (1240005 < 64 * HALVING_INTERVAL ->
      es_era st = 1240005 / HALVING_INTERVAL /\
      es_start_height st <= 1240005 < es_end_height st) /\
   (64 * HALVING_INTERVAL <= 1240005 ->
      es_era st = 63 /\ es_end_height st <= 1240005 /\ es_reward st = 0)).
Proof.
  split; [unfold U64_MAX; lia|]. apply EraStats_for_height_range. unfold U64_MAX; lia.
Defined.

Lemma Block_mining_reward_hundredth_witness :
  0 <= slot (block1 [] 5) /\
  (Block_mining_reward (slot (block1 [] 5)) = get_mining_reward (slot (block1 [] 5)) / 100 /\
   (forall a, balance (apply_mining_reward (block1 [] 5) S2_state) a =
      if decide (a = miner (block1 [] 5))
      then u64_add (balance S2_state a) (get_mining_reward (slot (block1 [] 5)) / 100)
      else balance S2_state a) /\
   st_total_issued (apply_mining_reward (block1 [] 5) S2_state) = st_total_issued S2_state /\
   nonces (apply_mining_reward (block1 [] 5) S2_state) = nonces S2_state).
Proof.
  split; [simpl; lia|]. apply Block_mining_reward_hundredth. simpl; lia.
Defined.

Section StubWitness.
#[local] Existing Instance stub_crypto.


Lemma meets_difficulty_antimono_witness :
  0 <= 1 <= 1000 /\
  (Block_meets_difficulty (block1 [] 5) 1000 = true -> Block_meets_difficulty (block1 [] 5) 1 = true) /\
  (lwma_meets_difficulty (Block_hash (block1 [] 5)) 1000 = true ->
   lwma_meets_difficulty (Block_hash (block1 [] 5)) 1 = true).
Proof. split; [lia|]. apply meets_difficulty_antimono. lia. Defined.

Lemma mempool_ops_keep_wf_witness :
  mempool_wf S4_pool2 /\
  (mempool_wf (snd (add stub_set_first S4_pool2 S4_tx15)) /\
   mempool_wf (evict_lowest_fee stub_set_first S4_pool2) /\
   mempool_wf (snd (remove S4_pool2 (tx_hash S4_tx5)))).
Proof.
  assert (Hwf : mempool_wf S4_pool2).
  { unfold mempool_wf, pool_wf, sender_wf. apply (bool_decide_unpack _). vm_compute. reflexivity. }
  split; [exact Hwf|]. apply mempool_ops_keep_wf. exact Hwf.
Defined.

End StubWitness.

Section WChain.
#[local] Existing Instance stub_crypto.

Lemma chain_difficulty_bounds_witness :
  Timechain_new genesis = Some chain0 /\ chain_steps chain0 chain1 /\
  1 <= difficulty chain1 <= U64_MAX.
Proof.
  assert (H0 : Timechain_new genesis = Some chain0) by (vm_compute; reflexivity).
  assert (H1 : add_block chain0 (block1 [] 5) 1800 = Some (Ok tt, chain1))
    by (vm_compute; reflexivity).
  assert (Hs : chain_steps chain0 chain1)
    by (eapply steps_add; [exact H1|apply steps_refl]).
  split; [exact H0|]. split; [exact Hs|].
  exact (proj1 (chain_difficulty_bounds genesis chain0 chain1 H0 Hs)).
Defined.

Lemma rebuild_state_accepted_witness :
  Timechain_new genesis = Some chain0 /\ accepted_steps chain0 chain1 /\
  rebuild_state chain1 = chain1.
Proof.
  assert (H0 : Timechain_new genesis = Some chain0) by (vm_compute; reflexivity).
  assert (H1 : add_block chain0 (block1 [] 5) 1800 = Some (Ok tt, chain1))
    by (vm_compute; reflexivity).
  assert (Hs : accepted_steps chain0 chain1)
    by (eapply acc_add; [exact H1|apply acc_refl]).
  split; [exact H0|]. split; [exact Hs|].
  exact (rebuild_state_accepted genesis chain0 chain1 H0 Hs).
Defined.

Lemma validate_and_sync_chain_adopted_witness :
  validate_and_sync_chain [genesis; block1 [] 5] chain0 = Some (Some chain1) /\
  blocks chain1 = [genesis; block1 [] 5].
Proof.
  assert (H : validate_and_sync_chain [genesis; block1 [] 5] chain0 = Some (Some chain1))
    by (vm_compute; reflexivity).
  split; [exact H|].
  destruct (validate_and_sync_chain_adopted _ _ _ H) as (p0 & c0 & rest & cs & Hp & _ & _ & Hb & _).
  injection Hp as <- <-. exact Hb.
Defined.
End WChain.

Section StubWitness2.
#[local] Existing Instance stub_crypto.

Lemma add_remove_roundtrip_witness :
  mempool_wf pool3_5 /\ pool_len pool3_5 < max_size pool3_5 /\
  add stub_set_first pool3_5 S4_tx10 = (Ok tt, pool3_5_10) /\
  remove pool3_5_10 (tx_hash S4_tx10) = (Some S4_tx10, pool3_5).
Proof.
  assert (Hwf : mempool_wf pool3_5).
  { unfold mempool_wf, pool_wf, sender_wf. apply (bool_decide_unpack _). vm_compute. reflexivity. }
  assert (Hadd : add stub_set_first pool3_5 S4_tx10 = (Ok tt, pool3_5_10))
    by (vm_compute; reflexivity).
  split_and!; [exact Hwf|vm_compute; reflexivity|exact Hadd|].
  apply (add_remove_roundtrip stub_set_first pool3_5 pool3_5_10 S4_tx10 Hwf); [vm_compute; reflexivity|exact Hadd].
Defined.

Lemma add_len_witness :
  mempool_wf S4_pool2 /\
  (let '(r, mp') := add stub_set_first S4_pool2 S4_tx15 in
   pool_len mp' =
     (if is_ok r then
        if (0 <? pool_len S4_pool2) && (max_size S4_pool2 <=? pool_len S4_pool2) then pool_len S4_pool2
        else pool_len S4_pool2 + 1
      else pool_len S4_pool2) /\
   (pool_len S4_pool2 <= Z.max (max_size S4_pool2) 1 ->
    pool_len mp' <= Z.max (max_size S4_pool2) 1)).
Proof.
  assert (Hwf : mempool_wf S4_pool2).
  { unfold mempool_wf, pool_wf, sender_wf. apply (bool_decide_unpack _). vm_compute. reflexivity. }
  split; [exact Hwf|].
  pose proof (add_len stub_set_first stub_set_first_elem stub_set_first_nonempty S4_pool2 S4_tx15 Hwf) as H.
  exact H.
Defined.

Lemma elements_set_list (s : gset (list Z)) :
  NoDup (elements s) /\ forall h, h ∈ elements s <-> h ∈ s.
Proof. split; [apply NoDup_elements|intros h; apply elem_of_elements]. Qed.

Lemma get_for_mining_spec_witness :
  pool_wf S4_pool2 /\
  (let res := get_for_mining elements S4_pool2 0 in
   Z.of_nat (length res) = Z.min (Z.max 0 1) (pool_len S4_pool2) /\
   StronglySorted (fun t1 t2 => fee t2 <= fee t1) res /\
   (forall t, t ∈ res -> exists h, pool_transactions S4_pool2 !! h = Some t) /\
   (forall h t, pool_transactions S4_pool2 !! h = Some t -> t ∉ res ->
      forall t', t' ∈ res -> fee t <= fee t')).
Proof.
  assert (Hwf : pool_wf S4_pool2).
  { unfold pool_wf. apply (bool_decide_unpack _). vm_compute. reflexivity. }
  split; [exact Hwf|].
  pose proof (get_for_mining_spec elements elements_set_list S4_pool2 0 Hwf) as H.
  exact H.
Defined.

Lemma remove_batch_spec_witness :
  mempool_wf S4_pool2 /\
  (mempool_wf (remove_batch S4_pool2 [tx_hash S4_tx5; tx_hash S4_tx15]) /\
   (forall h, pool_transactions (remove_batch S4_pool2 [tx_hash S4_tx5; tx_hash S4_tx15]) !! h =
      if decide (h ∈ [tx_hash S4_tx5; tx_hash S4_tx15]) then None
      else pool_transactions S4_pool2 !! h) /\
   max_size (remove_batch S4_pool2 [tx_hash S4_tx5; tx_hash S4_tx15]) = max_size S4_pool2).
Proof.
  assert (Hwf : mempool_wf S4_pool2).
  { unfold mempool_wf, pool_wf, sender_wf. apply (bool_decide_unpack _). vm_compute. reflexivity. }
  split; [exact Hwf|]. apply remove_batch_spec. exact Hwf.
Defined.

Lemma get_by_sender_members_witness :
  mempool_wf S4_pool2 /\
  (forall t, t ∈ get_by_sender S4_pool2 addr_A <->
     exists h, pool_transactions S4_pool2 !! h = Some t /\ from t = addr_A).
Proof.
  assert (Hwf : mempool_wf S4_pool2).
  { unfold mempool_wf, pool_wf, sender_wf. apply (bool_decide_unpack _). vm_compute. reflexivity. }
  split; [exact Hwf|]. apply get_by_sender_members. exact Hwf.
Defined.

Lemma add_get_by_sender_witness :
  mempool_wf pool3_5 /\ pool_len pool3_5 < max_size pool3_5 /\
  add stub_set_first pool3_5 S4_tx10 = (Ok tt, pool3_5_10) /\
  (get_by_sender pool3_5_10 (from S4_tx10) = get_by_sender pool3_5 (from S4_tx10) ++ [S4_tx10] /\
   (forall a, a <> from S4_tx10 -> get_by_sender pool3_5_10 a = get_by_sender pool3_5 a)).
Proof.
  assert (Hwf : mempool_wf pool3_5).
  { unfold mempool_wf, pool_wf, sender_wf. apply (bool_decide_unpack _). vm_compute. reflexivity. }
  assert (Hadd : add stub_set_first pool3_5 S4_tx10 = (Ok tt, pool3_5_10))
    by (vm_compute; reflexivity).
  split_and!; [exact Hwf|vm_compute; reflexivity|exact Hadd| |].
  - apply (add_get_by_sender stub_set_first pool3_5 pool3_5_10 S4_tx10 Hwf); [vm_compute; reflexivity|exact Hadd].
  - apply (add_get_by_sender stub_set_first pool3_5 pool3_5_10 S4_tx10 Hwf); [vm_compute; reflexivity|exact Hadd].
Defined.

End StubWitness2.

Section BlockValidateProofs.
Context `{Crypto}.

Lemma validate_apply_txs_ok st txs st' :
  validate_apply_txs st txs = (Ok tt, st') -> apply_txs st txs = (Ok tt, st').
Proof.
  revert st. induction txs as [|tx rest IH]; intros st; simpl.
  - auto.
  - destruct (tx_validate tx _); [|discriminate].
    destruct (apply_tx st tx) as [[u|e] s1]; [|discriminate]. apply IH.
Qed.

Lemma validate_apply_txs_err st txs e st' :
  validate_apply_txs st txs = (Err e, st') ->
  exists k, (k < length txs)%nat /\ apply_txs st (take k txs) = (Ok tt, st').
Proof.
  revert st. induction txs as [|tx rest IH]; intros st; simpl.
  - discriminate.
  - destruct (tx_validate tx _) eqn:Ev.
    + destruct (apply_tx st tx) as [[u|e'] s1] eqn:Ea.
      * intros Hr. destruct (IH s1 Hr) as (k & Hk & Hap).
        exists (S k). split; [lia|]. simpl. rewrite Ea. destruct u. exact Hap.
      * intros Hr. injection Hr as -> ->.
        exists 0%nat. split; [lia|]. simpl.
        unfold apply_tx in Ea.
        repeat match type of Ea with context [if ?c then _ else _] => destruct c end;
          congruence.
    + intros Hr. injection Hr as -> ->. exists 0%nat. split; [lia|]. reflexivity.
Qed.

(** X21: when Block::validate returns Ok, the modulus is non-zero, the
    block's VDF proof (read little-endian) equals seed^(2^t) mod |n| for
    the seed of the parent hash and parent slot, the block meets the PoW
    difficulty, its ZK proof is non-empty, and the returned state is the
    one reached by applying all its transactions in order with
    State::apply_tx, each of them succeeding. *)
Theorem Block_validate_ok b ph ps st d t n st' :
  Block_validate b ph ps st d t n = Some (Ok tt, st') ->
  n <> 0 /\
  from_digits_lsf (vdf_proof b) = from_digits_lsf (vdf_evaluate ph ps) ^ (2 ^ t) mod Z.abs n /\
  Block_meets_difficulty b d = true /\ zk_proof b <> [] /\
  apply_txs st (transactions b) = (Ok tt, st').
Proof.
  unfold Block_validate, wesolowski_verify, wesolowski_evaluate.
  destruct (Z.eqb_spec n 0) as [|Hn]; [discriminate|].
  destruct (Z.eqb_spec (from_digits_lsf (vdf_evaluate ph ps) ^ 2 ^ t mod Z.abs n)
             (from_digits_lsf (vdf_proof b))) as [Hv|]; [|discriminate].
  destruct (Block_meets_difficulty b d); [|discriminate]. simpl.
  case_bool_decide; [discriminate|].
  intros Hr. injection Hr as Hr.
  repeat split; auto. apply validate_apply_txs_ok. exact Hr.
Qed.

(** X22: Block::validate does not roll back the state on failure: when it
    returns an error, the state it leaves is the one reached by
    successfully applying some prefix of the block's transactions (the
    empty prefix when a VDF, PoW or ZK check fails). *)
Theorem Block_validate_err_partial b ph ps st d t n e st' :
  Block_validate b ph ps st d t n = Some (Err e, st') ->
  exists k, (k <= length (transactions b))%nat /\
            apply_txs st (take k (transactions b)) = (Ok tt, st').
Proof.
  unfold Block_validate.
  destruct (wesolowski_verify _ _ _ _) as [[|]|]; [|intros Hr; injection Hr as _ <-; exists 0%nat; split; [lia|reflexivity]|discriminate].
  destruct (Block_meets_difficulty b d); simpl;
    [|intros Hr; injection Hr as _ <-; exists 0%nat; split; [lia|reflexivity]].
  case_bool_decide; [intros Hr; injection Hr as _ <-; exists 0%nat; split; [lia|reflexivity]|].
  intros Hr. injection Hr as Hr.
  destruct (validate_apply_txs_err _ _ _ _ Hr) as (k & Hk & Hap).
  exists k. split; [lia|exact Hap].
Qed.
End BlockValidateProofs.

Section StubWitness3.
#[local] Existing Instance stub_crypto.

Lemma Block_validate_ok_witness :
  Block_validate (bv_block [S2_tx]) zeros32 0 S2_state 1 1 bv_modulus
    = Some (Ok tt, S2_state1) /\
  bv_modulus <> 0 /\
  from_digits_lsf (vdf_proof (bv_block [S2_tx]))
    = from_digits_lsf (vdf_evaluate zeros32 0) ^ (2 ^ 1) mod Z.abs bv_modulus /\
  Block_meets_difficulty (bv_block [S2_tx]) 1 = true /\ zk_proof (bv_block [S2_tx]) <> [] /\
  apply_txs S2_state (transactions (bv_block [S2_tx])) = (Ok tt, S2_state1).
Proof.
  assert (E : Block_validate (bv_block [S2_tx]) zeros32 0 S2_state 1 1 bv_modulus
                = Some (Ok tt, S2_state1)) by (vm_compute; reflexivity).
  split; [exact E|].
  pose proof (Block_validate_ok _ _ _ _ _ _ _ _ E) as Hw. exact Hw.
Defined.

Lemma Block_validate_err_partial_witness :
  Block_validate (bv_block [S2_tx; S2_tx]) zeros32 0 S2_state 1 1 bv_modulus
    = Some (Err "Invalid nonce", S2_state1) /\
  exists k, (k <= length (transactions (bv_block [S2_tx; S2_tx])))%nat /\
            apply_txs S2_state (take k (transactions (bv_block [S2_tx; S2_tx])))
              = (Ok tt, S2_state1).
Proof.
  assert (E : Block_validate (bv_block [S2_tx; S2_tx]) zeros32 0 S2_state 1 1 bv_modulus
                = Some (Err "Invalid nonce", S2_state1)) by (vm_compute; reflexivity).
  split; [exact E|].
  pose proof (Block_validate_err_partial _ _ _ _ _ _ _ _ _ E) as Hw. exact Hw.
Defined.
End StubWitness3.
